(** * rshogi analysis scripts: a shallow embedding and its properties

    The development follows the Python scripts under
    [packages/rust-core/scripts/analysis]: one module per script, every
    function under the name it has in the source.

    - Python integers are [Z]; [None] is the [None] of [option].
    - Python [str] values are lists of characters, with the character
      classes of Python for the code points below 256.
    - Python floats are IEEE-754 binary64 values ([PrimFloat.float]);
      integers enter float arithmetic through [PyFloat.of_int], which is
      Python's conversion for magnitudes below [2^63].
    - A loop that mutates local variables is a fold over an explicit state;
      a block that can raise returns a sum or an option.
    - What a script reads from outside comes in as an argument: the lines of
      a file, the rows of a JSON document, the result of a regular
      expression search on a line, the outcome of a subprocess, the random
      draws. *)

From Stdlib Require Import ZArith List String Ascii Bool Lia.
From Stdlib Require Import Floats.PrimFloat Floats.SpecFloat Floats.FloatOps.
From Stdlib Require Import Numbers.Cyclic.Int63.Uint63.
From Stdlib Require Import Numbers.DecimalString.
From stdpp Require Import gmap strings sorting.
Import ListNotations.

Open Scope Z_scope.

(** ** Python built-ins used by the scripts *)

Module PyStr.

Definition str := list ascii.

(** A string literal of the source. *)
Definition lit (s : string) : str := list_ascii_of_string s.

(** [not s] for an [Optional[str]]: [None] and the empty string are falsy. *)
Definition falsy (s : option str) : bool :=
  match s with
  | None => true
  | Some [] => true
  | Some (_ :: _) => false
  end.

(** [bool(t)] for a string. *)
Definition truthy (t : str) : bool :=
  match t with
  | [] => false
  | _ :: _ => true
  end.

Definition in_range (lo hi : nat) (c : ascii) : bool :=
  let n := nat_of_ascii c in (lo <=? n)%nat && (n <=? hi)%nat.

(** [c.isspace()], the separator class of [str.split()] and [str.strip()]. *)
Definition isspace (c : ascii) : bool :=
  in_range 9 13 c || in_range 28 32 c || in_range 133 133 c
  || in_range 160 160 c.

(** The class [\w] of [re] on [str] patterns: alphanumerics and the
    underscore. *)
Definition is_word (c : ascii) : bool :=
  in_range 48 57 c || in_range 65 90 c || in_range 95 95 c
  || in_range 97 122 c || in_range 170 170 c || in_range 178 179 c
  || in_range 181 181 c || in_range 185 186 c || in_range 188 190 c
  || in_range 192 214 c || in_range 216 246 c || in_range 248 255 c.

(** [s.startswith(p)]. *)
Fixpoint startswith (p s : str) : bool :=
  match p, s with
  | [], _ => true
  | _ :: _, [] => false
  | a :: p', b :: s' => Ascii.eqb a b && startswith p' s'
  end.

(** [s.split(sep, 1)] when [sep] occurs in [s]: the text before the first
    occurrence and the text after it; [None] when [sep] does not occur
    (Python then returns the one-element list [[s]]). *)
Fixpoint partition (sep s : str) : option (str * str) :=
  if startswith sep s then Some ([], skipn (length sep) s)
  else match s with
       | [] => None
       | c :: s' =>
           match partition sep s' with
           | Some (a, b) => Some (c :: a, b)
           | None => None
           end
       end.

(** [sep in s]. *)
Definition contains (sep s : str) : bool :=
  match partition sep s with
  | Some _ => true
  | None => false
  end.

Fixpoint lstrip (s : str) : str :=
  match s with
  | [] => []
  | c :: s' => if isspace c then lstrip s' else s
  end.

Definition rstrip (s : str) : str := rev (lstrip (rev s)).

(** [s.strip()]. *)
Definition strip (s : str) : str := rstrip (lstrip s).

(** The scan of [s.split()]: the word that starts at the front of [s]
    (empty when [s] starts with white space) and the words after it. *)
Fixpoint split_scan (s : str) : str * list str :=
  match s with
  | [] => ([], [])
  | c :: s' =>
      let '(w, ws) := split_scan s' in
      if isspace c
      then ([], match w with [] => ws | _ :: _ => w :: ws end)
      else (c :: w, ws)
  end.

(** [s.split()]: the maximal runs of non-space characters. *)
Definition split (s : str) : list str :=
  let '(w, ws) := split_scan s in
  match w with [] => ws | _ :: _ => w :: ws end.

(** [sep.join(l)]. *)
Fixpoint join (sep : str) (l : list str) : str :=
  match l with
  | [] => []
  | [t] => t
  | t :: l' => t ++ sep ++ join sep l'
  end.

(** [l[:stop]] for a Python list. *)
Definition slice_to {A} (l : list A) (stop : Z) : list A :=
  if stop <? 0
  then firstn (Z.to_nat (Z.of_nat (length l) + stop)) l
  else firstn (Z.to_nat stop) l.

(** [range(a, b)]. *)
Definition range (a b : Z) : list Z :=
  map (fun n => a + Z.of_nat n) (seq 0 (Z.to_nat (b - a))).

(** [enumerate(l, start)]. *)
Fixpoint enumerate {A} (start : Z) (l : list A) : list (Z * A) :=
  match l with
  | [] => []
  | x :: l' => (start, x) :: enumerate (start + 1) l'
  end.

(** [str(n)] for an integer. *)
Definition str_of_int (n : Z) : str :=
  lit (NilZero.string_of_int (Z.to_int n)).

(** [sorted(s)] for a set of integers. *)
Definition sorted_set (s : gset Z) : list Z := merge_sort Z.le (elements s).

(** [s.split(sep)] for a one-character separator: the pieces between the
    separators, at least one. *)
Fixpoint split_char (sep : ascii) (s : str) : list str :=
  match s with
  | [] => [[]]
  | c :: s' =>
      if Ascii.eqb c sep then [] :: split_char sep s'
      else
        match split_char sep s' with
        | piece :: pieces => (c :: piece) :: pieces
        | [] => [[c]]
        end
  end.

(** [sorted(l, key=key)] and [l.sort(key=key)] for an integer key: a stable
    sort, elements of equal key keep their order. *)
Fixpoint insert_by {A} (key : A -> Z) (x : A) (l : list A) : list A :=
  match l with
  | [] => [x]
  | y :: l' => if key x <=? key y then x :: l else y :: insert_by key x l'
  end.

Definition sort_by {A} (key : A -> Z) (l : list A) : list A :=
  fold_right (insert_by key) [] l.

(** [d.setdefault(k, []).append(v)] for a dictionary with string keys, in
    insertion order. *)
Fixpoint setdefault_append {V} (k : str) (v : V) (d : list (str * list V))
  : list (str * list V) :=
  match d with
  | [] => [(k, [v])]
  | (k', vs) :: d' =>
      if bool_decide (k' = k) then (k', vs ++ [v]) :: d'
      else (k', vs) :: setdefault_append k v d'
  end.

End PyStr.

Import PyStr.

(** ** expand_targets_back.py *)

Module ExpandTargetsBack.

(** [chop_moves(pos_line, back_plies)].  The membership test
    [' moves ' not in pos_line] and the following
    [pos_line.split(' moves ', 1)] are one search for the first
    separator. *)
Definition chop_moves (pos_line : option str) (back_plies : Z) : option str :=
  match pos_line with
  | None => None
  | Some [] => Some []
  | Some s =>
      match partition (lit " moves ") s with
      | None => Some s
      | Some (head, moves) =>
          let toks := List.filter truthy (split (strip moves)) in
          let toks :=
            if (back_plies >? 0) && (Z.of_nat (length toks) >=? back_plies)
            then slice_to toks (- back_plies)
            else toks in
          Some (if negb (Nat.eqb (length toks) 0)
                then head ++ lit " moves " ++ join (lit " ") toks
                else head)
      end
  end.

(** An entry of the input file's ['targets'] list. *)
Record base_target := {
  bt_tag : str;
  bt_pre_position : option str;
  bt_pos_after : option str
}.

(** An entry of the output list. *)
Record target := {
  tag : str;
  pre_position : option str;
  origin : str;
  back_plies : Z
}.

(** [a or b] on [Optional[str]]. *)
Definition py_or (a b : option str) : option str :=
  if falsy a then b else a.

(** The body of the inner loop of [main]: the entry appended for [t] and
    [k]. *)
Definition expand_one (t : base_target) (k : Z) : target :=
  let pos := py_or (bt_pre_position t) (bt_pos_after t) in
  {| tag := bt_tag t ++ lit "_back" ++ str_of_int k;
     pre_position := chop_moves pos k;
     origin := bt_tag t;
     back_plies := k |}.

(** [main]: the list [out] written to the output file, for the input
    targets [base] and the arguments [--min] and [--max]. *)
Definition main (base : list base_target) (arg_min arg_max : Z)
  : list target :=
  fold_left
    (fun out t =>
       fold_left (fun out k => out ++ [expand_one t k])
         (range arg_min (arg_max + 1)) out)
    base [].

End ExpandTargetsBack.

(** ** make_targets_from_logs.py *)

Module MakeTargetsFromLogs.

(** One turn of the loop of [compute_spikes]: the state is [prev] and
    [spikes]. *)
Definition spike_step (threshold : Z) (st : option Z * list (Z * Z))
  (x : Z * Z) : option Z * list (Z * Z) :=
  let '(prev, spikes) := st in
  let '(i, sc) := x in
  match prev with
  | None => (Some sc, spikes)
  | Some p =>
      let delta := sc - p in
      (Some sc,
       if Z.abs delta >=? threshold then spikes ++ [(i, delta)] else spikes)
  end.

Definition compute_spikes (evals : list Z) (threshold : Z) : list (Z * Z) :=
  snd (fold_left (spike_step threshold) (enumerate 1 evals) (None, [])).

(** [POS_MOVES_SPLIT_RE.split(s, maxsplit=1)[0]] for the pattern
    [\b moves \b]: the text before the first [" moves "] that has a word
    character right before it and right after it, or all of [s] when there
    is none.  [prev] is the character before the current position. *)
Fixpoint re_split_head (prev : option ascii) (s : str) : str :=
  match s with
  | [] => []
  | c :: s' =>
      if match prev with Some p => is_word p | None => false end
         && startswith (lit " moves ") s
         && match nth_error s 7 with Some n => is_word n | None => false end
      then []
      else c :: re_split_head (Some c) s'
  end.

Definition chop_moves (pos_line : option str) (back_plies : Z) : option str :=
  match pos_line with
  | None => None
  | Some [] => None
  | Some s =>
      match partition (lit " moves ") s with
      | None => Some s
      | Some (_, moves) =>
          if back_plies <=? 0 then Some s
          else
            let head := re_split_head None s in
            let toks := List.filter truthy (split (strip moves)) in
            let toks :=
              if Z.of_nat (length toks) >=? back_plies
              then slice_to toks (- back_plies)
              else [] in
            Some (if negb (Nat.eqb (length toks) 0)
                  then head ++ lit " moves " ++ join (lit " ") toks
                  else head)
      end
  end.

(** An entry of the list [best] of [parse_bestmoves_with_positions]. *)
Record best_entry := {
  idx : Z;
  bestmove : str;
  pos_after : option str;
  last_cp : option Z;
  last_depth : Z
}.

Record target := {
  tag : str;
  pre_position : str;
  origin_log : str;
  origin_ply : Z;
  origin_delta : Z;
  back_plies : Z
}.

(** A log path of the command line as [main] sees it: a file that cannot
    be opened, or the base name of the path, that name without its
    extension, and the pair [(best, evals)] that
    [parse_bestmoves_with_positions] returns for the file's lines. *)
Inductive log_file :=
| NotFound
| Parsed (base stem : str) (best : list best_entry) (evals : list Z).

Record args := {
  threshold : Z;
  topk : Z;
  back_min : Z;
  back_max : Z
}.

(** [sorted(spikes, key=lambda x: abs(x[1]), reverse=True)]: a stable sort,
    elements of equal key keep their order. *)
Fixpoint insert_desc (x : Z * Z) (l : list (Z * Z)) : list (Z * Z) :=
  match l with
  | [] => [x]
  | y :: l' =>
      if Z.abs (snd y) <=? Z.abs (snd x) then x :: l
      else y :: insert_desc x l'
  end.

Definition sorted_desc (l : list (Z * Z)) : list (Z * Z) :=
  fold_right insert_desc [] l.

(** The state of the generation loops: [uniq_positions] and [targets]. *)
Definition gen_state : Type := gset str * list target.

(** The body of the loop over [k]. *)
Definition emit_back (base stem : str) (ply delta : Z) (b : best_entry)
  (st : gen_state) (k : Z) : gen_state :=
  let '(uniq_positions, targets) := st in
  match chop_moves (pos_after b) k with
  | None => st
  | Some [] => st
  | Some pos =>
      if bool_decide (pos ∈ uniq_positions) then st
      else
        ({[ pos ]} ∪ uniq_positions,
         targets ++
           [ {| tag := stem ++ lit "_ply" ++ str_of_int ply
                      ++ lit "_back" ++ str_of_int k;
                pre_position := pos;
                origin_log := base;
                origin_ply := ply;
                origin_delta := delta;
                back_plies := k |} ])
  end.

(** The body of the loop over [spikes]. *)
Definition emit_spike (a : args) (base stem : str) (best : list best_entry)
  (st : gen_state) (spike : Z * Z) : gen_state :=
  let '(ply, delta) := spike in
  if (ply <? 1) || (ply >? Z.of_nat (length best)) then st
  else
    match nth_error best (Z.to_nat (ply - 1)) with
    | None => st
    | Some b =>
        fold_left (emit_back base stem ply delta b)
          (range (back_min a) (back_max a + 1)) st
    end.

(** The spikes of one log after the [--topk] cut. *)
Definition select_spikes (a : args) (evals : list Z) : list (Z * Z) :=
  let spikes := compute_spikes evals (threshold a) in
  if negb (topk a =? 0) && (Z.of_nat (length spikes) >? topk a)
  then slice_to (sorted_desc spikes) (topk a)
  else spikes.

(** The body of the loop over the log paths. *)
Definition process_log (a : args) (st : gen_state) (f : log_file)
  : gen_state :=
  match f with
  | NotFound => st
  | Parsed base stem best evals =>
      match best with
      | [] => st
      | _ :: _ =>
          fold_left (emit_spike a base stem best) (select_spikes a evals) st
      end
  end.

(** [main]: the list [targets] written to [targets.json]. *)
Definition main (a : args) (logs : list log_file) : list target :=
  snd (fold_left (process_log a) logs (∅, [])).

(** Group 1 of [INFO_RE]. *)
Inductive score_kind := Cp | Mate.

Section Parse.

(** [INFO_RE.search(l)]: groups 1 and 2; [BESTMOVE_RE.search(l)]: group 1;
    whether [POS_LINE_RE.search(l)] matches; and
    [re.search(r"info\s+depth\s+(\d+)", l)]: group 1.  Numbers through
    [int]. *)
Variable INFO_RE : str -> option (score_kind * Z).
Variable BESTMOVE_RE : str -> option str.
Variable POS_LINE_RE : str -> bool.
Variable DEPTH_RE : str -> option Z.

(** The loop over [j] for the lines that follow a bestmove line: the text
    after [" position "] of the first of the next 79 lines that matches
    [POS_LINE_RE].  The outer [None] is the [IndexError] of
    [split(" position ", 1)[1]] on a matching line without
    [" position "]. *)
Definition find_pos_after (following : list str) : option (option str) :=
  match find POS_LINE_RE (firstn 79 following) with
  | None => Some None
  | Some l =>
      match partition (lit " position ") l with
      | Some (_, rest) => Some (Some (strip rest))
      | None => None
      end
  end.

(** The variables of [parse_bestmoves_with_positions]. *)
Record parse_state := {
  ps_best : list best_entry;
  ps_evals : list Z;
  ps_cur_eval : option Z;
  ps_last_cp : option Z;
  ps_last_depth : Z
}.

(** The loop of [parse_bestmoves_with_positions] from a line on; [None] is
    the exception. *)
Fixpoint parse_from (lines : list str) (st : parse_state)
  : option (list best_entry * list Z) :=
  match lines with
  | [] => Some (ps_best st, ps_evals st)
  | l :: following =>
      match INFO_RE l with
      | Some (kind, val) =>
          let e :=
            match kind with
            | Cp => val
            | Mate => if val >? 0 then 100000 else -100000
            end in
          parse_from following
            {| ps_best := ps_best st;
               ps_evals := ps_evals st;
               ps_cur_eval := Some e;
               ps_last_cp := Some e;
               ps_last_depth :=
                 match DEPTH_RE l with
                 | Some d => d
                 | None => ps_last_depth st
                 end |}
      | None =>
          match BESTMOVE_RE l with
          | Some bm =>
              match find_pos_after following with
              | None => None
              | Some pos =>
                  parse_from following
                    {| ps_best :=
                         ps_best st ++
                           [ {| idx := Z.of_nat (length (ps_best st)) + 1;
                                bestmove := bm;
                                pos_after := pos;
                                last_cp := ps_last_cp st;
                                last_depth := ps_last_depth st |} ];
                       ps_evals :=
                         ps_evals st ++
                           [ match ps_cur_eval st, ps_evals st with
                             | Some e, _ => e
                             | None, _ :: _ => List.last (ps_evals st) 0
                             | None, [] => 0
                             end ];
                       ps_cur_eval := None;
                       ps_last_cp := ps_last_cp st;
                       ps_last_depth := ps_last_depth st |}
              end
          | None => parse_from following st
          end
      end
  end.

Definition parse_bestmoves_with_positions (lines : list str)
  : option (list best_entry * list Z) :=
  parse_from lines
    {| ps_best := []; ps_evals := []; ps_cur_eval := None;
       ps_last_cp := None; ps_last_depth := -1 |}.

End Parse.

End MakeTargetsFromLogs.

(** ** extract_eval_spikes.py *)

Module ExtractEvalSpikes.

(** Group 1 of [INFO_RE]. *)
Inductive score_kind := Cp | Mate.

Section ParseLog.

(** [INFO_RE.search(line)]: groups 1 and 2 of the match, group 2 through
    [int]; [BESTMOVE_RE.search(line)]: group 1; the optional [--include]
    and [--exclude] patterns as their [search] tests. *)
Variable INFO_RE : str -> option (score_kind * Z).
Variable BESTMOVE_RE : str -> option str.
Variables include_re exclude_re : option (str -> bool).

(** The state of the loop of [parse_log]: [evals], [moves] and
    [cur_eval]. *)
Definition parse_state : Type := list Z * list str * option Z.

Definition parse_line (st : parse_state) (line : str) : parse_state :=
  let '(evals, moves, cur_eval) := st in
  if match include_re with Some re => negb (re line) | None => false end
  then st
  else if match exclude_re with Some re => re line | None => false end
  then st
  else
    match INFO_RE line with
    | Some (kind, val) =>
        match kind with
        | Cp => (evals, moves, Some val)
        | Mate =>
            (evals, moves, Some (if val >? 0 then 100000 else -100000))
        end
    | None =>
        match BESTMOVE_RE line with
        | Some mv =>
            let moves := moves ++ [mv] in
            match cur_eval, evals with
            | None, _ :: _ => (evals ++ [List.last evals 0], moves, None)
            | None, [] => (evals ++ [0], moves, None)
            | Some e, _ => (evals ++ [e], moves, None)
            end
        | None => st
        end
    end.

(** [parse_log] on the lines of the file. *)
Definition parse_log (lines : list str) : list Z * list str :=
  fst (fold_left parse_line lines ([], [], None)).

End ParseLog.

Definition spike_step (threshold : Z) (st : option Z * list (Z * Z))
  (x : Z * Z) : option Z * list (Z * Z) :=
  let '(prev, spikes) := st in
  let '(i, sc) := x in
  match prev with
  | None => (Some sc, spikes)
  | Some p =>
      let delta := sc - p in
      (Some sc,
       if Z.abs delta >=? threshold then spikes ++ [(i, delta)] else spikes)
  end.

Definition compute_spikes (evals : list Z) (threshold : Z) : list (Z * Z) :=
  snd (fold_left (spike_step threshold) (enumerate 1 evals) (None, [])).

(** [expand_windows(indices, back, forward, nmax)]: the body of the outer
    loop, then the function. *)
Definition window_step (back forward nmax : Z) (wanted : gset Z) (idx : Z)
  : gset Z :=
  let a := Z.max 1 (idx - back) in
  let b := Z.min nmax (idx + forward) in
  fold_left (fun wanted k => {[ k ]} ∪ wanted) (range a (b + 1)) wanted.

Definition expand_windows (indices : list Z) (back forward nmax : Z)
  : list Z :=
  sorted_set (fold_left (window_step back forward nmax) indices ∅).

Record args := {
  threshold : Z;
  back : Z;
  forward : Z;
  topk : Z
}.

(** What [main] writes: the rows of [evals.csv] (ply, move, eval_cp,
    delta_cp), the rows of [spikes.csv] and the numbers of
    [prefixes.txt]. *)
Record outputs := {
  evals_csv : list (Z * str * Z * Z);
  spikes_csv : list (Z * Z);
  prefixes : list Z
}.

(** The loop that writes [evals.csv]: the state is [prev] and the rows
    written. *)
Definition csv_step (st : option Z * list (Z * str * Z * Z))
  (x : Z * (str * Z)) : option Z * list (Z * str * Z * Z) :=
  let '(prev, rows) := st in
  let '(i, (mv, sc)) := x in
  let delta := match prev with None => 0 | Some p => sc - p end in
  (Some sc, rows ++ [(i, mv, sc, delta)]).

(** [main] after [parse_log]: [None] is the exit with status 1 when no
    bestmove was found. *)
Definition main_outputs (a : args) (evals : list Z) (moves : list str)
  : option outputs :=
  match moves with
  | [] => None
  | _ :: _ =>
      let spikes := compute_spikes evals (threshold a) in
      let spikes :=
        if negb (topk a =? 0) && (Z.of_nat (length spikes) >? topk a)
        then slice_to (MakeTargetsFromLogs.sorted_desc spikes) (topk a)
        else spikes in
      let rows :=
        snd (fold_left csv_step (enumerate 1 (combine moves evals))
               (None, [])) in
      let spike_indices := map fst spikes in
      Some {| evals_csv := rows;
              spikes_csv := spikes;
              prefixes :=
                expand_windows spike_indices (back a) (forward a)
                  (Z.of_nat (length moves)) |}
  end.

Section Main.

Variable INFO_RE : str -> option (score_kind * Z).
Variable BESTMOVE_RE : str -> option str.
(** [re.compile(args.include)] and [re.compile(args.exclude)] when the
    arguments are given. *)
Variables include_re exclude_re : option (str -> bool).

(** [main] on the lines of the log. *)
Definition main (a : args) (lines : list str) : option outputs :=
  let '(evals, moves) :=
    parse_log INFO_RE BESTMOVE_RE include_re exclude_re lines in
  main_outputs a evals moves.

End Main.

End ExtractEvalSpikes.

(** ** make_targets_from_moves.py *)

Module MakeTargetsFromMoves.

(** The evaluation fields of a record of [moves.jsonl]: the values of
    ["eval_cp"] and ["eval_mate"] when they are integers, [None] when the
    key is absent or holds anything else. *)
Record move_rec := {
  eval_cp : option Z;
  eval_mate : option Z
}.

(** One turn of the loop of [main] over [recs_sorted]: the state is
    [cur_eval] and [evals]. *)
Definition eval_step (st : option Z * list Z) (r : move_rec)
  : option Z * list Z :=
  let '(cur_eval, evals) := st in
  let cp_val :=
    match eval_cp r, eval_mate r with
    | Some cp, _ => Some cp
    | None, Some m => Some (if m >? 0 then 100000 else -100000)
    | None, None => None
    end in
  let cur_eval :=
    match cp_val with Some v => Some v | None => cur_eval end in
  let cur_eval :=
    match cur_eval, evals with
    | Some v, _ => v
    | None, _ :: _ => List.last evals 0
    | None, [] => 0
    end in
  (Some cur_eval, evals ++ [cur_eval]).

(** The list [evals] that [main] builds for one game. *)
Definition main_evals (recs_sorted : list move_rec) : list Z :=
  snd (fold_left eval_step recs_sorted (None, [])).

Definition spike_step (threshold : Z) (st : option Z * list (Z * Z))
  (x : Z * Z) : option Z * list (Z * Z) :=
  let '(prev, spikes) := st in
  let '(i, sc) := x in
  match prev with
  | None => (Some sc, spikes)
  | Some p =>
      let delta := sc - p in
      (Some sc,
       if Z.abs delta >=? threshold then spikes ++ [(i, delta)] else spikes)
  end.

Definition compute_spikes (evals : list Z) (threshold : Z) : list (Z * Z) :=
  snd (fold_left (spike_step threshold) (enumerate 1 evals) (None, [])).

Definition chop_moves (pos_line : option str) (back_plies : Z) : option str :=
  match pos_line with
  | None => None
  | Some [] => None
  | Some s =>
      match partition (lit " moves ") s with
      | None => Some s
      | Some (head, moves) =>
          if back_plies <=? 0 then Some s
          else
            let toks := List.filter truthy (split (strip moves)) in
            let toks :=
              if Z.of_nat (length toks) >=? back_plies
              then slice_to toks (- back_plies)
              else [] in
            Some (if negb (Nat.eqb (length toks) 0)
                  then head ++ lit " moves " ++ join (lit " ") toks
                  else head)
      end
  end.

Definition make_pos_after (pos_body bestmove : str) : str :=
  let mv := strip bestmove in
  if negb (truthy mv)
     || bool_decide (mv = lit "resign") || bool_decide (mv = lit "none")
  then pos_body
  else
    match partition (lit " moves ") pos_body with
    | Some (head, moves) =>
        let toks := List.filter truthy (split (strip moves)) in
        let toks := toks ++ [mv] in
        head ++ lit " moves " ++ join (lit " ") toks
    | None => pos_body ++ lit " moves " ++ mv
    end.

(** A record of [moves.jsonl] as [main] reads it: [int(r.get("ply", 0))],
    [r.get("position") or ""], [r.get("bestmove") or ""], the side, and
    [bool(r.get("cand_black", False))]. *)
Record record := {
  r_eval : move_rec;
  r_ply : Z;
  r_position : str;
  r_bestmove : str;
  r_side : option str;
  r_cand_black : bool
}.

Record target := {
  tag : str;
  pre_position : str;
  origin_log : str;
  origin_game_index : Z;
  origin_ply : Z;
  origin_delta : Z;
  back_plies : Z;
  origin_side : option str;
  origin_cand_black : bool
}.

Record args := {
  threshold : Z;
  topk : Z;
  back_min : Z;
  back_max : Z
}.

(** An item of [sorted(by_group.items(), ...)]: the base name of the file,
    that name without its extension, the game index, and the records of the
    group in the order read. *)
Record group := {
  g_base : str;
  g_stem : str;
  g_game_index : Z;
  g_recs : list record
}.

Definition gen_state : Type := gset str * list target.

(** The body of the loop over [back]. *)
Definition emit_back (g : group) (delta : Z) (m : record) (pos_after : str)
  (st : gen_state) (back : Z) : gen_state :=
  let '(uniq_positions, targets) := st in
  match chop_moves (Some pos_after) back with
  | None => st
  | Some [] => st
  | Some pos =>
      if bool_decide (pos ∈ uniq_positions) then st
      else
        ({[ pos ]} ∪ uniq_positions,
         targets ++
           [ {| tag := g_stem g ++ lit "_g" ++ str_of_int (g_game_index g)
                      ++ lit "_ply" ++ str_of_int (r_ply m)
                      ++ lit "_back" ++ str_of_int back;
                pre_position := pos;
                origin_log := g_base g;
                origin_game_index := g_game_index g;
                origin_ply := r_ply m;
                origin_delta := delta;
                back_plies := back;
                origin_side := r_side m;
                origin_cand_black := r_cand_black m |} ])
  end.

(** The body of the loop over [spikes]; [meta] holds one entry for each
    record of [recs_sorted]. *)
Definition emit_spike (a : args) (g : group) (meta : list record)
  (st : gen_state) (spike : Z * Z) : gen_state :=
  let '(idx, delta) := spike in
  if (idx <? 1) || (idx >? Z.of_nat (length meta)) then st
  else
    match nth_error meta (Z.to_nat (idx - 1)) with
    | None => st
    | Some m =>
        let pos_after := make_pos_after (r_position m) (r_bestmove m) in
        fold_left (emit_back g delta m pos_after)
          (range (back_min a) (back_max a + 1)) st
    end.

(** The spikes of one game after the [--topk] cut. *)
Definition select_spikes (a : args) (evals : list Z) : list (Z * Z) :=
  let spikes := compute_spikes evals (threshold a) in
  if negb (topk a =? 0) && (Z.of_nat (length spikes) >? topk a)
  then slice_to (MakeTargetsFromLogs.sorted_desc spikes) (topk a)
  else spikes.

(** The body of the loop over the groups. *)
Definition process_group (a : args) (st : gen_state) (g : group)
  : gen_state :=
  let recs_sorted := sort_by r_ply (g_recs g) in
  let evals := main_evals (map r_eval recs_sorted) in
  match evals with
  | [] => st
  | _ :: _ =>
      fold_left (emit_spike a g recs_sorted) (select_spikes a evals) st
  end.

(** [main] after the grouping: the list [targets] written to
    [targets.json]. *)
Definition main (a : args) (groups : list group) : list target :=
  snd (fold_left (process_group a) groups (∅, [])).

End MakeTargetsFromMoves.

(** ** Python floats *)

Module PyFloat.

(** [float(n)] for an integer below [2^63] in magnitude. *)
Definition of_int (n : Z) : float :=
  if n <? 0 then PrimFloat.opp (of_uint63 (of_Z (- n)))
  else of_uint63 (of_Z n).

(** [a / b] on integers (exact operands below [2^53]). *)
Definition truediv (a b : Z) : float :=
  PrimFloat.div (of_int a) (of_int b).

(** Half-to-even rounding of [m / 2^k] for a natural [m]. *)
Definition round_shift (m k : Z) : Z :=
  let d := 2 ^ k in
  let q := m / d in
  let r := m mod d in
  if 2 * r <? d then q
  else if d <? 2 * r then q + 1
  else if Z.even q then q else q + 1.

(** [round(f)]: the nearest integer, ties to even; [None] where Python
    raises (infinities and NaN). *)
Definition round (f : float) : option Z :=
  match Prim2SF f with
  | S754_zero _ => Some 0
  | S754_finite s m e =>
      let v := if 0 <=? e then Z.pos m * 2 ^ e
               else round_shift (Z.pos m) (- e) in
      Some (if s then - v else v)
  | S754_infinity _ => None
  | S754_nan => None
  end.

End PyFloat.

(** ** summarize_drop_metrics.py *)

Module SummarizeDropMetrics.

(** The value under ["depth"] of a row of [summary.json]: key absent, an
    integer, or any other JSON value. *)
Inductive json_depth :=
| DepthAbsent
| DepthInt (d : Z)
| DepthOther.

Record row := {
  profile : option str;
  eval_cp : option Z;
  depth : json_depth
}.

(** The dictionary that [main] prints. *)
Record metrics := {
  m_profile : option str;
  total : Z;
  valid : Z;
  bad_th : Z;
  bad_count : Z;
  spike_rate_percent : option float;
  avg_cp : option float;
  avg_depth : option float
}.

(** The counters of the loop: [bad], [cp_sum], [depth_sum], [valid]. *)
Record counters := {
  c_bad : Z;
  c_cp_sum : Z;
  c_depth_sum : Z;
  c_valid : Z
}.

(** [isinstance(d, int) and d >= 0] for [d = r.get('depth', -1)], with the
    value to add. *)
Definition depth_to_add (d : json_depth) : option Z :=
  match d with
  | DepthAbsent => if -1 >=? 0 then Some (-1) else None
  | DepthInt d => if d >=? 0 then Some d else None
  | DepthOther => None
  end.

Definition count_row (arg_bad_th : Z) (c : counters) (r : row) : counters :=
  let c :=
    match eval_cp r with
    | Some cp =>
        {| c_bad := if cp <=? arg_bad_th then c_bad c + 1 else c_bad c;
           c_cp_sum := c_cp_sum c + cp;
           c_depth_sum := c_depth_sum c;
           c_valid := c_valid c + 1 |}
    | None => c
    end in
  match depth_to_add (depth r) with
  | Some d =>
      {| c_bad := c_bad c;
         c_cp_sum := c_cp_sum c;
         c_depth_sum := c_depth_sum c + d;
         c_valid := c_valid c |}
  | None => c
  end.

(** [main] on the rows of [summary.json] and the arguments [--profile]
    and [--bad-th]. *)
Definition main (rows : list row) (arg_profile : option str)
  (arg_bad_th : Z) : metrics :=
  let rows :=
    if falsy arg_profile then rows
    else List.filter (fun r => bool_decide (profile r = arg_profile)) rows in
  let c :=
    fold_left (count_row arg_bad_th) rows
      {| c_bad := 0; c_cp_sum := 0; c_depth_sum := 0; c_valid := 0 |} in
  {| m_profile := arg_profile;
     total := Z.of_nat (length rows);
     valid := c_valid c;
     bad_th := arg_bad_th;
     bad_count := c_bad c;
     spike_rate_percent :=
       if c_valid c =? 0 then None
       else Some (PrimFloat.mul (PyFloat.truediv (c_bad c) (c_valid c))
                    100%float);
     avg_cp :=
       if c_valid c =? 0 then None
       else Some (PyFloat.truediv (c_cp_sum c) (c_valid c));
     avg_depth :=
       if c_valid c =? 0 then None
       else Some (PyFloat.truediv (c_depth_sum c) (c_valid c)) |}.

End SummarizeDropMetrics.

(** ** summarize_first_bad_metrics.py *)

Module SummarizeFirstBadMetrics.

Import SummarizeDropMetrics.

(** The loop body of [compute_metrics]: the threshold is the constant
    [-600]. *)
Definition count_row (c : counters) (r : row) : counters :=
  let c :=
    match eval_cp r with
    | Some cp =>
        {| c_bad := if cp <=? -600 then c_bad c + 1 else c_bad c;
           c_cp_sum := c_cp_sum c + cp;
           c_depth_sum := c_depth_sum c;
           c_valid := c_valid c + 1 |}
    | None => c
    end in
  match depth_to_add (depth r) with
  | Some d =>
      {| c_bad := c_bad c;
         c_cp_sum := c_cp_sum c;
         c_depth_sum := c_depth_sum c + d;
         c_valid := c_valid c |}
  | None => c
  end.

(** [compute_metrics(rows)]; the key ['profile'] is added by the caller. *)
Definition compute_metrics (rows : list row) : metrics :=
  let c :=
    fold_left count_row rows
      {| c_bad := 0; c_cp_sum := 0; c_depth_sum := 0; c_valid := 0 |} in
  {| m_profile := None;
     total := Z.of_nat (length rows);
     valid := c_valid c;
     bad_th := -600;
     bad_count := c_bad c;
     spike_rate_percent :=
       if c_valid c =? 0 then None
       else Some (PrimFloat.mul (PyFloat.truediv (c_bad c) (c_valid c))
                    100%float);
     avg_cp :=
       if c_valid c =? 0 then None
       else Some (PyFloat.truediv (c_cp_sum c) (c_valid c));
     avg_depth :=
       if c_valid c =? 0 then None
       else Some (PyFloat.truediv (c_depth_sum c) (c_valid c)) |}.

(** The fields of an entry of [targets.json] and of a row of
    [summary.json] that [derive_first_bad_tags_from_summary] reads. *)
Record target_entry := {
  t_origin_log : option str;
  t_back_plies : option Z;
  t_tag : option str
}.

Record summary_row := {
  s_tag : option str;
  s_profile : option str;
  s_eval_cp : option Z
}.

(** The loop that fills [t_by_origin]. *)
Definition group_target (t_by_origin : list (str * list (Z * str)))
  (t : target_entry) : list (str * list (Z * str)) :=
  let origin := match t_origin_log t with Some o => o | None => [] end in
  let back := match t_back_plies t with Some b => b | None => 0 end in
  match origin, t_tag t with
  | _ :: _, Some tag => setdefault_append origin (back, tag) t_by_origin
  | _, _ => t_by_origin
  end.

(** The loop that fills [cp_idx]. *)
Definition index_row (cp_idx : gmap (option str * option str) (option Z))
  (r : summary_row) : gmap (option str * option str) (option Z) :=
  <[ (s_tag r, s_profile r) := s_eval_cp r ]> cp_idx.

(** The inner loop: the tag of the first item whose score is at or below
    the threshold. *)
Fixpoint first_bad (cp_idx : gmap (option str * option str) (option Z))
  (profile : option str) (bad_th : Z) (items : list (Z * str))
  : option str :=
  match items with
  | [] => None
  | (back, tag) :: items' =>
      match cp_idx !! (Some tag, profile) with
      | Some (Some cp) =>
          if cp <=? bad_th then Some tag
          else first_bad cp_idx profile bad_th items'
      | _ => first_bad cp_idx profile bad_th items'
      end
  end.

Definition derive_first_bad_tags_from_summary (targets : list target_entry)
  (rows : list summary_row) (profile : option str) (bad_th : Z)
  : list str :=
  let t_by_origin := fold_left group_target targets [] in
  let cp_idx := fold_left index_row rows ∅ in
  fold_left
    (fun tags item =>
       let items := sort_by fst (snd item) in
       match first_bad cp_idx profile bad_th items with
       | Some (c :: tag) => tags ++ [c :: tag]
       | _ => tags
       end)
    t_by_origin [].

End SummarizeFirstBadMetrics.

(** ** spsa_optimize.py *)

Module SpsaOptimize.

(** [clamp_step(x, mn, mx, step)] on integers.  [None] stands for the
    exception of [round] on a value that is not finite. *)
Definition clamp_step (x mn mx step : Z) : option Z :=
  let x := Z.max mn (Z.min mx x) in
  if negb (step =? 0) && (step >? 1)
  then
    match PyFloat.round (PyFloat.truediv (x - mn) step) with
    | Some k =>
        let r := k * step + mn in
        let r := Z.max mn (Z.min mx r) in
        Some r
    | None => None
    end
  else Some x.

(** An entry of [cfg['params']]; [pc_step] is [None] when the key ['step']
    is absent. *)
Record param_cfg := {
  pc_init : Z;
  pc_min : Z;
  pc_max : Z;
  pc_step : option Z
}.

(** [int(pc.get('step', 1))]. *)
Definition get_step (pc : param_cfg) : Z :=
  match pc_step pc with
  | Some s => s
  | None => 1
  end.

(** A loop whose body can raise. *)
Fixpoint fold_raise {S A} (f : S -> A -> option S) (l : list A) (s : S)
  : option S :=
  match l with
  | [] => Some s
  | x :: l' =>
      match f s x with
      | Some s' => fold_raise f l' s'
      | None => None
      end
  end.

Section Iteration.

(** [cfg['params']] in the order of its keys. *)
Variable params_cfg : list (str * param_cfg).

(** The gains [ak] and [ck] of the iteration, the outcomes of its calls
    of [random.random() < 0.5] in order, and the value of
    ['spike_rate_percent'] that [eval_candidate] reports for a
    vector. *)
Variables ak ck : float.
Variable draw : nat -> bool.
Variable spike_rate : gmap str Z -> option float.

Definition delta_sign : gmap str Z :=
  fold_left
    (fun m ik => <[ snd ik := if draw (fst ik) then 1 else -1 ]> m)
    (combine (seq 0 (length params_cfg)) (map fst params_cfg))
    ∅.

(** The body of the loop that fills [theta_plus] and [theta_minus]. *)
Definition perturb_param (theta : gmap str Z)
  (st : gmap str Z * gmap str Z) (kp : str * param_cfg)
  : option (gmap str Z * gmap str Z) :=
  let '(theta_plus, theta_minus) := st in
  let '(k, pc) := kp in
  let step := get_step pc in
  match (if step >? 0
         then PyFloat.round (PrimFloat.mul ck (PyFloat.of_int step))
         else PyFloat.round ck),
        theta !! k, delta_sign !! k with
  | Some d, Some t, Some sg =>
      let d := if d <? 1 then 1 else d in
      match clamp_step (t + sg * d) (pc_min pc) (pc_max pc) step,
            clamp_step (t - sg * d) (pc_min pc) (pc_max pc) step with
      | Some p, Some m =>
          Some (<[ k := p ]> theta_plus, <[ k := m ]> theta_minus)
      | _, _ => None
      end
  | _, _, _ => None
  end.

(** [x or 0.0] on the reported rate. *)
Definition or_zero (j : option float) : float :=
  match j with
  | Some x => if PrimFloat.eqb x 0%float then 0%float else x
  | None => 0%float
  end.

(** The body of the loop that fills [g]. *)
Definition gradient_param (Jp Jm : float)
  (theta_plus theta_minus : gmap str Z) (g : gmap str float)
  (kp : str * param_cfg) : option (gmap str float) :=
  let '(k, pc) := kp in
  match theta_plus !! k, theta_minus !! k with
  | Some p, Some m =>
      let d := Z.max (Z.abs (p - m)) 1 in
      Some (<[ k := PrimFloat.div (PrimFloat.sub Jp Jm) (PyFloat.of_int d) ]> g)
  | _, _ => None
  end.

(** The body of the update loop. *)
Definition update_param (g : gmap str float) (theta : gmap str Z)
  (kp : str * param_cfg) : option (gmap str Z) :=
  let '(k, pc) := kp in
  match theta !! k, g !! k with
  | Some t, Some gk =>
      let newv :=
        PrimFloat.sub (PyFloat.of_int t)
          (PrimFloat.mul (PrimFloat.mul ak gk)
             (PyFloat.of_int (get_step pc))) in
      match PyFloat.round newv with
      | Some n =>
          match clamp_step n (pc_min pc) (pc_max pc) (get_step pc) with
          | Some v => Some (<[ k := v ]> theta)
          | None => None
          end
      | None => None
      end
  | _, _ => None
  end.

(** One turn of the loop of [main]: [theta_plus], [theta_minus] and the
    updated [theta]. *)
Definition iteration (theta : gmap str Z)
  : option (gmap str Z * gmap str Z * gmap str Z) :=
  match fold_raise (perturb_param theta) params_cfg (∅, ∅) with
  | Some (theta_plus, theta_minus) =>
      let Jp := or_zero (spike_rate theta_plus) in
      let Jm := or_zero (spike_rate theta_minus) in
      match fold_raise (gradient_param Jp Jm theta_plus theta_minus)
              params_cfg ∅ with
      | Some g =>
          match fold_raise (update_param g) params_cfg theta with
          | Some theta' => Some (theta_plus, theta_minus, theta')
          | None => None
          end
      | None => None
      end
  | None => None
  end.

End Iteration.

(** [theta = {k: int(v['init']) for k, v in params_cfg.items()}]. *)
Definition initial_theta (params_cfg : list (str * param_cfg))
  : gmap str Z :=
  fold_left (fun m kp => <[ fst kp := pc_init (snd kp) ]> m) params_cfg ∅.

(** The loop of [main] over [it = first, first + 1, ...]: [n] turns.  The
    schedules [ak] and [ck] and the random draws are given per iteration.
    The result is the list of the vectors stored in each turn and the
    final [theta]. *)
Fixpoint iterations (params_cfg : list (str * param_cfg))
  (ak ck : Z -> float) (draw : Z -> nat -> bool)
  (spike_rate : gmap str Z -> option float)
  (n : nat) (first : Z) (theta : gmap str Z)
  : option (list (gmap str Z * gmap str Z * gmap str Z) * gmap str Z) :=
  match n with
  | O => Some ([], theta)
  | S n' =>
      match iteration params_cfg (ak first) (ck first) (draw first)
              spike_rate theta with
      | Some (tp, tm, theta') =>
          match iterations params_cfg ak ck draw spike_rate n'
                  (first + 1) theta' with
          | Some (trace, final) => Some ((tp, tm, theta') :: trace, final)
          | None => None
          end
      | None => None
      end
  end.

(** [main] from the initial vector, for [--iters]. *)
Definition main (params_cfg : list (str * param_cfg))
  (ak ck : Z -> float) (draw : Z -> nat -> bool)
  (spike_rate : gmap str Z -> option float) (iters : Z)
  : option (list (gmap str Z * gmap str Z * gmap str Z) * gmap str Z) :=
  iterations params_cfg ak ck draw spike_rate (Z.to_nat iters) 1
    (initial_theta params_cfg).

End SpsaOptimize.

(** ** run_eval_targets.py and run_eval_targets_params.py *)

Module RunEvalTargets.

Section RunOne.

(** [re.search(r'info depth (\d+).*?score cp ([+-]?\d+)', ln)]: groups 1
    and 2 through [int]. *)
Variable INFO_DEPTH_CP_RE : str -> option (N * Z).

(** The body of the loop over [out_lines]: the state is [last_cp] and
    [last_depth]. *)
Definition scan_line (st : option Z * Z) (ln : str) : option Z * Z :=
  let '(last_cp, last_depth) := st in
  match INFO_DEPTH_CP_RE ln with
  | Some (d, cp) =>
      if Z.of_N d >=? last_depth then (Some cp, Z.of_N d) else st
  | None => st
  end.

(** The result [(last_cp, last_depth)] of [run_one] for the lines
    [out_lines] collected from the engine. *)
Definition run_one (out_lines : list str) : option Z * Z :=
  fold_left scan_line out_lines (None, -1).

End RunOne.

(** What one turn of the loop of [_read_until] finds before the deadline:
    nothing to read within the slice of 0.1 s, or the decoded chunk that
    [os.read] returns (empty at the end of the stream). *)
Inductive poll :=
| NoData
| Chunk (chunk : str).

(** The loop over the completed lines of one chunk: each line is appended
    with its newline; [true] as soon as one holds a pattern. *)
Fixpoint append_lines (patterns : list str) (lines : list str)
  (out_lines : list str) : bool * list str :=
  match lines with
  | [] => (false, out_lines)
  | ln :: lines' =>
      let ln := ln ++ ["010"%char] in
      let out_lines := out_lines ++ [ln] in
      if existsb (fun pat => contains pat ln) patterns
      then (true, out_lines)
      else append_lines patterns lines' out_lines
  end.

(** The [while] loop, from the turns left before the deadline, with [buf]
    and [out_lines]: the value returned and [out_lines] at the return. *)
Fixpoint read_loop (polls : list poll) (patterns : list str) (buf : str)
  (out_lines : list str) : bool * list str :=
  match polls with
  | [] => (false, out_lines)
  | NoData :: polls' => read_loop polls' patterns buf out_lines
  | Chunk [] :: _ => (false, out_lines)
  | Chunk chunk :: polls' =>
      let buf := buf ++ chunk in
      let lines := split_char "010" buf in
      let buf := List.last lines [] in
      let lines := removelast lines in
      match append_lines patterns lines out_lines with
      | (true, out_lines) => (true, out_lines)
      | (false, out_lines) => read_loop polls' patterns buf out_lines
      end
  end.

Definition _read_until (polls : list poll) (patterns : list str)
  (out_lines : list str) : bool * list str :=
  read_loop polls patterns [] out_lines.

End RunEvalTargets.

Module RunEvalTargetsParams.

Section RunOne.

Variable INFO_DEPTH_CP_RE : str -> option (N * Z).

Definition scan_line (st : option Z * Z) (ln : str) : option Z * Z :=
  let '(last_cp, last_depth) := st in
  match INFO_DEPTH_CP_RE ln with
  | Some (d, cp) =>
      if Z.of_N d >=? last_depth then (Some cp, Z.of_N d) else st
  | None => st
  end.

Definition run_one (out_lines : list str) : option Z * Z :=
  fold_left scan_line out_lines (None, -1).

End RunOne.

(** The same function as in run_eval_targets.py. *)
Definition _read_until (polls : list RunEvalTargets.poll)
  (patterns : list str) (out_lines : list str) : bool * list str :=
  RunEvalTargets.read_loop polls patterns [] out_lines.

End RunEvalTargetsParams.

(** ** run_regression_checks.py *)

Module RunRegressionChecks.

Record PrefixGuard := {
  number : Z;
  allowed_moves : option (list str);
  min_cp : option Z;
  max_cp : option Z
}.

(** The fields of [Scenario] that the checks read; the others only build
    the replay command. *)
Record Scenario := {
  name : str;
  prefixes : list Z;
  score_cp_min : option Z;
  score_cp_max : option Z;
  seldepth_max : option Z;
  prefix_guards : list PrefixGuard
}.

Record PrefixResult := {
  bestmove : str;
  depth : Z;
  seldepth : Z;
  score_cp : Z
}.

(** The exceptions that [run] catches, by the message they carry. *)
Inductive failure :=
| ReplayFailed (msg : str)
    (* raised by [_run_replay]: the replay command failed, or
       "summary not found: ..." *)
| SummaryMissingData (missing : list Z)
    (* "summary missing data for prefixes: {missing}" *)
| PrefixMissing (prefix : Z)
    (* "prefix pre-{prefix} missing in summary" *)
| ScoreBelowMin (prefix score bound : Z)
    (* "pre-{prefix}: score {score} < min {bound}" *)
| ScoreAboveMax (prefix score bound : Z)
    (* "pre-{prefix}: score {score} > max {bound}" *)
| SeldepthAboveMax (prefix seldepth bound : Z)
    (* "pre-{prefix}: seldepth {seldepth} > max {bound}" *)
| GuardMissing (number : Z)
    (* "prefix guard pre-{number} missing" *)
| BestmoveNotAllowed (number : Z) (move : str) (allowed : list str)
    (* "pre-{number}: bestmove {move} not in {allowed}" *)
| GuardScoreBelowMin (number score bound : Z)
    (* "pre-{number}: score {score} < guard min {bound}" *)
| GuardScoreAboveMax (number score bound : Z)
    (* "pre-{number}: score {score} > guard max {bound}" *).

(** A Python [dict] with integer keys, in insertion order. *)
Definition dict (V : Type) : Type := list (Z * V).

Fixpoint dict_get {V} (k : Z) (d : dict V) : option V :=
  match d with
  | [] => None
  | (k', v) :: d' => if k' =? k then Some v else dict_get k d'
  end.

(** [d[k] = v]: an existing key keeps its place. *)
Fixpoint dict_set {V} (k : Z) (v : V) (d : dict V) : dict V :=
  match d with
  | [] => [(k, v)]
  | (k', v') :: d' =>
      if k' =? k then (k, v) :: d' else (k', v') :: dict_set k v d'
  end.

Section Suite.

(** [RE_BESTMOVE.match(line)]: the groups [num] and [move];
    [RE_INFO.match(line)]: the groups [num], [depth], [seldepth] and
    [score]; numbers through [int]. *)
Variable RE_BESTMOVE : str -> option (Z * str).
Variable RE_INFO : str -> option (Z * Z * Z * Z).

(** [_run_replay(scn)] followed by the reading of the summary file: the
    exception raised, or the lines of the file. *)
Variable _run_replay : Scenario -> failure + list str.

(** The body of the loop of [_parse_summary]. *)
Definition parse_line (results : dict PrefixResult) (line : str)
  : dict PrefixResult :=
  let line := strip line in
  if negb (truthy line) || startswith (lit "#") line then results
  else
    match RE_BESTMOVE line with
    | Some (num, best) =>
        match dict_get num results with
        | Some res =>
            dict_set num
              {| bestmove := best; depth := depth res;
                 seldepth := seldepth res; score_cp := score_cp res |}
              results
        | None =>
            dict_set num
              {| bestmove := best; depth := 0; seldepth := 0;
                 score_cp := 0 |}
              results
        end
    | None =>
        match RE_INFO line with
        | Some (num, d, sd, score) =>
            let score :=
              if contains (lit "score mate") line
              then (if score >? 0 then 100000 else -100000)
              else score in
            let best :=
              match dict_get num results with
              | Some res => bestmove res
              | None => lit "(unknown)"
              end in
            dict_set num
              {| bestmove := best; depth := d; seldepth := sd;
                 score_cp := score |}
              results
        | None => results
        end
    end.

Definition _parse_summary (lines : list str)
  : failure + dict PrefixResult :=
  let results := fold_left parse_line lines [] in
  let missing :=
    map fst
      (List.filter (fun kv => bool_decide (bestmove (snd kv) = lit "(unknown)"))
         results) in
  match missing with
  | [] => inr results
  | _ :: _ => inl (SummaryMissingData missing)
  end.

(** [if cond: raise RuntimeError(...)]. *)
Definition raise_if (cond : bool) (f : failure) : failure + unit :=
  if cond then inl f else inr tt.

(** Statements in sequence: the first exception ends the block. *)
Definition and_then (a b : failure + unit) : failure + unit :=
  match a with
  | inl f => inl f
  | inr _ => b
  end.

Local Notation "a >>> b" := (and_then a b)
  (at level 65, right associativity).

(** A [for] loop whose body can raise. *)
Fixpoint for_each {A} (body : A -> failure + unit) (l : list A)
  : failure + unit :=
  match l with
  | [] => inr tt
  | x :: l' => body x >>> for_each body l'
  end.

(** The body of the first loop of [_check_bounds]. *)
Definition check_prefix (scn : Scenario) (results : dict PrefixResult)
  (prefix : Z) : failure + unit :=
  match dict_get prefix results with
  | None => inl (PrefixMissing prefix)
  | Some res =>
      match score_cp_min scn with
      | Some mn =>
          raise_if (score_cp res <? mn)
            (ScoreBelowMin prefix (score_cp res) mn)
      | None => inr tt
      end >>>
      match score_cp_max scn with
      | Some mx =>
          raise_if (score_cp res >? mx)
            (ScoreAboveMax prefix (score_cp res) mx)
      | None => inr tt
      end >>>
      match seldepth_max scn with
      | Some sm =>
          raise_if (seldepth res >? sm)
            (SeldepthAboveMax prefix (seldepth res) sm)
      | None => inr tt
      end
  end.

(** [guard_map = {pg.number: pg for pg in scn.prefix_guards}]. *)
Definition guard_map (scn : Scenario) : dict PrefixGuard :=
  fold_left (fun m pg => dict_set (number pg) pg m) (prefix_guards scn) [].

(** The body of the second loop of [_check_bounds]. *)
Definition check_guard (results : dict PrefixResult)
  (item : Z * PrefixGuard) : failure + unit :=
  let '(number, guard) := item in
  match dict_get number results with
  | None => inl (GuardMissing number)
  | Some res =>
      match allowed_moves guard with
      | Some (m :: ms) =>
          raise_if (negb (bool_decide (bestmove res ∈ m :: ms)))
            (BestmoveNotAllowed number (bestmove res) (m :: ms))
      | Some [] => inr tt
      | None => inr tt
      end >>>
      match min_cp guard with
      | Some mn =>
          raise_if (score_cp res <? mn)
            (GuardScoreBelowMin number (score_cp res) mn)
      | None => inr tt
      end >>>
      match max_cp guard with
      | Some mx =>
          raise_if (score_cp res >? mx)
            (GuardScoreAboveMax number (score_cp res) mx)
      | None => inr tt
      end
  end.

Definition _check_bounds (scn : Scenario) (results : dict PrefixResult)
  : failure + unit :=
  for_each (check_prefix scn results) (prefixes scn) >>>
  for_each (check_guard results) (guard_map scn).

(** The [try] block of [run] for one scenario: the exception caught, or
    the number of prefixes printed with [PASS]. *)
Definition run_scenario (scn : Scenario) : failure + nat :=
  match _run_replay scn with
  | inl f => inl f
  | inr summary =>
      match _parse_summary summary with
      | inl f => inl f
      | inr results =>
          match _check_bounds scn results with
          | inl f => inl f
          | inr _ => inr (length results)
          end
      end
  end.

(** [RegressionSuite.run] on [self.scenarios]: the list [failures]
    printed at the end and the returned exit status. *)
Definition run (scenarios : list Scenario) : list (str * failure) * Z :=
  let failures :=
    fold_left
      (fun failures scn =>
         match run_scenario scn with
         | inl f => failures ++ [(name scn, f)]
         | inr _ => failures
         end)
      scenarios [] in
  (failures, match failures with [] => 0 | _ :: _ => 1 end).

End Suite.

(** The two [SystemExit] of [RegressionSuite.__init__]. *)
Inductive init_error :=
| NoScenarios
    (* "Config file has no scenarios" *)
| UnknownScenarios (missing : list str)
    (* "Unknown scenarios requested: {missing}" *).

(** [RegressionSuite.__init__]: [self.scenarios] for the entries of the
    config file, each already through [Scenario.from_dict], and the names
    given with [--scenario] ([None] when the option is absent). *)
Definition __init__ (all_entries : list Scenario)
  (scenarios : option (list str)) : init_error + list Scenario :=
  match all_entries with
  | [] => inl NoScenarios
  | _ :: _ =>
      let requested :=
        match scenarios with
        | Some (n :: ns) => Some (n :: ns)
        | _ => None
        end in
      let selected :=
        fold_left
          (fun selected scn =>
             match requested with
             | Some names =>
                 if bool_decide (name scn ∈ names) then selected ++ [scn]
                 else selected
             | None => selected ++ [scn]
             end)
          all_entries [] in
      match requested with
      | Some names =>
          match List.filter
                  (fun n => negb (bool_decide (n ∈ map name selected)))
                  names with
          | [] => inr selected
          | m :: ms => inl (UnknownScenarios (m :: ms))
          end
      | None => inr selected
      end
  end.

End RunRegressionChecks.

(** * Vocabulary of the properties *)

(** ** Spike detection *)

(** The adjacent differences of the samples [p :: l], numbered from [i]. *)
Fixpoint deltas (i p : Z) (l : list Z) : list (Z * Z) :=
  match l with
  | [] => []
  | sc :: l' => (i, sc - p) :: deltas (i + 1) sc l'
  end.

(** Sample number [i] of a series, counted from 1. *)
Definition eval_at (E : list Z) (i : Z) : Z := nth (Z.to_nat (i - 1)) E 0.

(** The spikes as the specification words them: the indices from 2 to the
    length of the series whose difference to the sample before reaches the
    threshold, each with that difference. *)
Definition flagged (E : list Z) (T : Z) : list (Z * Z) :=
  List.filter (fun s => Z.abs (snd s) >=? T)
    (map (fun i => (i, eval_at E i - eval_at E (i - 1)))
       (range 2 (Z.of_nat (length E) + 1))).

(** ** Transcript parsing *)

Module TranscriptVocabulary.

Import ExtractEvalSpikes.

Section Lines.

Variable INFO_RE : str -> option (score_kind * Z).
Variable BESTMOVE_RE : str -> option str.
Variables include_re exclude_re : option (str -> bool).

(** What a transcript line is for the parser: filtered out, an evaluation
    reading, a decision, or neither. *)
Inductive line_kind :=
| Filtered
| Reading (kind : score_kind) (val : Z)
| Decision (mv : str)
| Neither.

Definition kind_of (line : str) : line_kind :=
  if match include_re with Some re => negb (re line) | None => false end
  then Filtered
  else if match exclude_re with Some re => re line | None => false end
  then Filtered
  else
    match INFO_RE line, BESTMOVE_RE line with
    | Some (k, v), _ => Reading k v
    | None, Some mv => Decision mv
    | None, None => Neither
    end.

Definition is_decision (line : str) : bool :=
  match kind_of line with
  | Decision _ => true
  | _ => false
  end.

(** The last evaluation reading among some lines. *)
Definition last_reading (lines : list str) : option (score_kind * Z) :=
  fold_left
    (fun r line =>
       match kind_of line with
       | Reading k v => Some (k, v)
       | _ => r
       end)
    lines None.

(** The lines before a segment end a record: there are none, or the last of
    them is a decision. *)
Definition closed (lines : list str) : bool :=
  match rev lines with
  | [] => true
  | l :: _ => is_decision l
  end.

End Lines.

End TranscriptVocabulary.

(** The sample that a reading stands for. *)
Definition reading_sample (r : ExtractEvalSpikes.score_kind * Z) : Z :=
  match r with
  | (ExtractEvalSpikes.Cp, v) => v
  | (ExtractEvalSpikes.Mate, n) => if n >? 0 then 100000 else -100000
  end.

(** The sample of a decision: that of the last reading since the decision
    before, else the sample before, else 0. *)
Definition decision_sample (r : option (ExtractEvalSpikes.score_kind * Z))
  (evals : list Z) : Z :=
  match r with
  | Some r => reading_sample r
  | None => List.last evals 0
  end.

(** The reading of a record of [moves.jsonl]. *)
Definition rec_reading (r : MakeTargetsFromMoves.move_rec)
  : option (ExtractEvalSpikes.score_kind * Z) :=
  match MakeTargetsFromMoves.eval_cp r, MakeTargetsFromMoves.eval_mate r with
  | Some cp, _ => Some (ExtractEvalSpikes.Cp, cp)
  | None, Some m => Some (ExtractEvalSpikes.Mate, m)
  | None, None => None
  end.

(** ** Engine sessions *)



(** ** Metrics *)

Module MetricsVocabulary.

Import SummarizeDropMetrics.

(** The rows that [--profile] selects. *)
Definition selected (rows : list row) (arg_profile : option str) : list row :=
  match arg_profile with
  | Some (c :: p) =>
      List.filter (fun r => bool_decide (profile r = Some (c :: p))) rows
  | _ => rows
  end.

(** The number of rows with a property. *)
Definition count (P : row -> bool) (rows : list row) : Z :=
  Z.of_nat (length (List.filter P rows)).

(** A result with a score. *)
Definition has_score (r : row) : bool :=
  match eval_cp r with
  | Some _ => true
  | None => false
  end.

(** A result with a score at or below the threshold. *)
Definition is_bad (th : Z) (r : row) : bool :=
  match eval_cp r with
  | Some cp => cp <=? th
  | None => false
  end.

(** The depth that a row adds: its depth when that is a non-negative
    integer, whatever its score. *)
Definition depth_of (r : row) : Z :=
  match depth r with
  | DepthInt d => if 0 <=? d then d else 0
  | _ => 0
  end.

Definition score_of (r : row) : Z :=
  match eval_cp r with
  | Some cp => cp
  | None => 0
  end.

Definition total_of (f : row -> Z) (rows : list row) : Z :=
  fold_right (fun r acc => f r + acc) 0 rows.

End MetricsVocabulary.

(** ** SPSA *)

Module SpsaVocabulary.

Import SpsaOptimize.

(** The value lies within the declared bounds. *)
Definition in_bounds (pc : param_cfg) (v : Z) : Prop :=
  pc_min pc <= v <= pc_max pc.

(** The value is the minimum plus a multiple of the declared step. *)
Definition on_grid (pc : param_cfg) (v : Z) : Prop :=
  exists m : Z, v = pc_min pc + m * get_step pc.

(** A domain whose bounds are ordered and whose step is positive and
    divides the width. *)
Definition aligned (pc : param_cfg) : Prop :=
  pc_min pc <= pc_max pc
  /\ 1 <= get_step pc
  /\ exists w : Z, pc_max pc - pc_min pc = w * get_step pc.

(** The three vectors stored in one iteration hold, for the key [k] of
    domain [pc], values with the property [P]. *)
Definition stored (P : Z -> Prop) (k : str)
  (it : gmap str Z * gmap str Z * gmap str Z) : Prop :=
  let '(theta_plus, theta_minus, theta) := it in
  (exists v, theta_plus !! k = Some v /\ P v)
  /\ (exists v, theta_minus !! k = Some v /\ P v)
  /\ (exists v, theta !! k = Some v /\ P v).

End SpsaVocabulary.

(** ** Regression suite *)

Module RegressionVocabulary.

Import RunRegressionChecks.

(** The outcome of checks of which the first violation counts. *)
Definition first_failure (l : list failure) : failure + unit :=
  match l with
  | [] => inr tt
  | f :: _ => inl f
  end.

(** Every violation of the global bounds at one prefix, in the order of the
    checks. *)
Definition prefix_violations (scn : Scenario) (results : dict PrefixResult)
  (prefix : Z) : list failure :=
  match dict_get prefix results with
  | None => [PrefixMissing prefix]
  | Some res =>
      match score_cp_min scn with
      | Some mn =>
          if score_cp res <? mn
          then [ScoreBelowMin prefix (score_cp res) mn] else []
      | None => []
      end
      ++ match score_cp_max scn with
         | Some mx =>
             if score_cp res >? mx
             then [ScoreAboveMax prefix (score_cp res) mx] else []
         | None => []
         end
      ++ match seldepth_max scn with
         | Some sm =>
             if seldepth res >? sm
             then [SeldepthAboveMax prefix (seldepth res) sm] else []
         | None => []
         end
  end.

(** Every violation of one prefix guard. *)
Definition guard_violations (results : dict PrefixResult)
  (item : Z * PrefixGuard) : list failure :=
  match dict_get (fst item) results with
  | None => [GuardMissing (fst item)]
  | Some res =>
      match allowed_moves (snd item) with
      | Some (m :: ms) =>
          if bool_decide (bestmove res ∈ m :: ms) then []
          else [BestmoveNotAllowed (fst item) (bestmove res) (m :: ms)]
      | _ => []
      end
      ++ match min_cp (snd item) with
         | Some mn =>
             if score_cp res <? mn
             then [GuardScoreBelowMin (fst item) (score_cp res) mn] else []
         | None => []
         end
      ++ match max_cp (snd item) with
         | Some mx =>
             if score_cp res >? mx
             then [GuardScoreAboveMax (fst item) (score_cp res) mx] else []
         | None => []
         end
  end.

(** Every violation of a scenario: the bounds of each declared prefix in
    order, then the guards. *)
Definition violations (scn : Scenario) (results : dict PrefixResult)
  : list failure :=
  flat_map (prefix_violations scn results) (prefixes scn)
  ++ flat_map (guard_violations results) (guard_map scn).

Section Summary.

Variable RE_BESTMOVE : str -> option (Z * str).
Variable RE_INFO : str -> option (Z * Z * Z * Z).

(** A line of the summary yields a record for the prefix [p]. *)
Definition mentions (p : Z) (line : str) : bool :=
  let line := strip line in
  if negb (truthy line) || startswith (lit "#") line then false
  else
    match RE_BESTMOVE line, RE_INFO line with
    | Some (num, _), _ => num =? p
    | None, Some (num, _, _, _) => num =? p
    | None, None => false
    end.

(** The summary omits the prefix [p]. *)
Definition omits (p : Z) (summary : list str) : bool :=
  forallb (fun line => negb (mentions p line)) summary.

End Summary.

(** The entries of [failures] for the scenarios that fail, in order. *)
Definition failed_scenarios (run_scenario : Scenario -> failure + nat)
  (scenarios : list Scenario) : list (str * failure) :=
  flat_map
    (fun scn =>
       match run_scenario scn with
       | inl f => [(name scn, f)]
       | inr _ => []
       end)
    scenarios.

End RegressionVocabulary.

(** A two-line replay summary for the prefix 10 and stand-ins for the two
    patterns that read just these lines. *)
Module RegressionExample.

Import RunRegressionChecks.

Definition bestmove_line : str := lit "pre-10: bestmove=7g7f".

Definition info_line : str :=
  lit "pre-10: last_info=info depth 12 seldepth 14 score cp -250 nodes 1".

Definition RE_BESTMOVE (line : str) : option (Z * str) :=
  if bool_decide (line = bestmove_line) then Some (10, lit "7g7f") else None.

Definition RE_INFO (line : str) : option (Z * Z * Z * Z) :=
  if bool_decide (line = info_line) then Some (10, 12, 14, -250) else None.

Definition _run_replay (scn : Scenario) : failure + list str :=
  inr [bestmove_line; info_line].

(** Prefixes 10 and 20 under a global lower bound on the score. *)
Definition scenario (lower : Z) : Scenario :=
  {| name := lit "example";
     prefixes := [10; 20];
     score_cp_min := Some lower;
     score_cp_max := None;
     seldepth_max := None;
     prefix_guards := [] |}.

Definition results : dict PrefixResult :=
  [(10, {| bestmove := lit "7g7f"; depth := 12; seldepth := 14;
           score_cp := -250 |})].

End RegressionExample.

(** ** Target generation *)

Module TargetsVocabulary.

Import MakeTargetsFromLogs.

(** The target that a spike of a log and a rewind depth propose: none when
    the rewound position is [None] or empty. *)
Definition proposed_back (base stem : str) (ply delta : Z) (b : best_entry)
  (k : Z) : list target :=
  match chop_moves (pos_after b) k with
  | Some (c :: pos) =>
      [ {| tag := stem ++ lit "_ply" ++ str_of_int ply
                  ++ lit "_back" ++ str_of_int k;
           pre_position := c :: pos;
           origin_log := base;
           origin_ply := ply;
           origin_delta := delta;
           back_plies := k |} ]
  | _ => []
  end.

Definition proposed_spike (a : args) (base stem : str)
  (best : list best_entry) (spike : Z * Z) : list target :=
  if (fst spike <? 1) || (fst spike >? Z.of_nat (length best)) then []
  else
    match nth_error best (Z.to_nat (fst spike - 1)) with
    | None => []
    | Some b =>
        flat_map (proposed_back base stem (fst spike) (snd spike) b)
          (range (back_min a) (back_max a + 1))
    end.

Definition proposed_log (a : args) (f : log_file) : list target :=
  match f with
  | Parsed base stem (b :: best) evals =>
      flat_map (proposed_spike a base stem (b :: best)) (select_spikes a evals)
  | _ => []
  end.

(** The targets that all (spike, rewind depth) pairs of a batch propose, in
    the order in which [main] goes through them. *)
Definition proposed (a : args) (logs : list log_file) : list target :=
  flat_map (proposed_log a) logs.

(** The target is at the position [p]. *)
Definition at_position (p : str) (t : target) : bool :=
  bool_decide (pre_position t = p).

(** What the loops do with one proposed target. *)
Definition emit (st : gen_state) (t : target) : gen_state :=
  if bool_decide (pre_position t ∈ fst st) then st
  else ({[ pre_position t ]} ∪ fst st, snd st ++ [t]).

End TargetsVocabulary.

(** ** Positions *)

Module PositionVocabulary.

(** The position string of a head and its move tokens. *)
Definition position (head : str) (moves : list str) : str :=
  match moves with
  | [] => head
  | _ :: _ => head ++ lit " moves " ++ join (lit " ") moves
  end.

(** A move token: not empty, without white space, starting with a word
    character (a digit or a letter in USI moves). *)
Definition token (t : str) : bool :=
  match t with
  | [] => false
  | c :: _ => is_word c && forallb (fun c => negb (isspace c)) t
  end.

(** The last character of [prev] followed by [s]. *)
Definition last_char (prev : option ascii) (s : str) : option ascii :=
  fold_left (fun _ c => Some c) s prev.

(** A head: it does not contain [" moves"] and it ends with a word
    character (["startpos"], or the move counter of an SFEN). *)
Definition head_ok (h : str) : bool :=
  negb (contains (lit " moves") h)
  && match last_char None h with
     | Some c => is_word c
     | None => false
     end.

(** [N - k] tokens, none when [k > N]. *)
Definition kept (moves : list str) (k : Z) : list str :=
  firstn (Z.to_nat (Z.of_nat (length moves) - k)) moves.

End PositionVocabulary.

(** ** Reading engine output *)

Module StreamVocabulary.

Import RunEvalTargets.

(** The text read before the deadline: the chunks in order, up to the end
    of the stream. *)
Fixpoint stream_of (polls : list poll) : str :=
  match polls with
  | [] => []
  | NoData :: polls' => stream_of polls'
  | Chunk [] :: _ => []
  | Chunk chunk :: polls' => chunk ++ stream_of polls'
  end.

(** The complete lines of a text, each with its newline, and the unfinished
    rest after the last newline. *)
Fixpoint lines_of (s : str) : list str * str :=
  match s with
  | [] => ([], [])
  | c :: s' =>
      let '(ls, rest) := lines_of s' in
      if Ascii.eqb c "010" then ([c] :: ls, rest)
      else
        match ls with
        | [] => ([], c :: rest)
        | l :: ls' => ((c :: l) :: ls', rest)
        end
  end.

(** The line holds one of the patterns. *)
Definition holds (patterns : list str) (ln : str) : bool :=
  existsb (fun pat => contains pat ln) patterns.

(** The lines up to the first one that holds a pattern, that one included,
    and whether there is one. *)
Fixpoint upto_match (patterns : list str) (ls : list str) : bool * list str :=
  match ls with
  | [] => (false, [])
  | ln :: ls' =>
      if holds patterns ln then (true, [ln])
      else (fst (upto_match patterns ls'), ln :: snd (upto_match patterns ls'))
  end.

(** A complete line: one newline, at the end. *)
Definition complete_line (ln : str) : Prop :=
  exists body, ln = body ++ ["010"%char] /\ ~ In "010"%char body.

End StreamVocabulary.

(** ** Selection of the largest spikes *)

Module SelectionVocabulary.

(** [kept] is a choice of the largest of [spikes]: together with the spikes
    left out it makes up [spikes], and no spike left out has a larger
    absolute difference than a spike kept. *)
Definition largest_of (kept spikes : list (Z * Z)) : Prop :=
  exists dropped,
    Permutation (kept ++ dropped) spikes
    /\ forall x y, In x kept -> In y dropped ->
         Z.abs (snd y) <= Z.abs (snd x).

(** The number of spikes kept out of [n] for a value of [--topk]. *)
Definition kept_count (topk n : Z) : Z :=
  if topk =? 0 then n
  else if 0 <? topk then Z.min topk n
  else Z.max 0 (n + topk).

(** From the largest absolute difference down. *)
Definition descending (l : list (Z * Z)) : Prop :=
  StronglySorted (fun x y => Z.abs (snd y) <= Z.abs (snd x)) l.

End SelectionVocabulary.

(** ** Parsing a log with its positions *)

Module ParserVocabulary.

(** The two scripts compile the same patterns [INFO_RE] and [BESTMOVE_RE];
    a match of the one of make_targets_from_logs.py, read as a match of the
    one of extract_eval_spikes.py. *)
Definition kind_of_logs (k : MakeTargetsFromLogs.score_kind)
  : ExtractEvalSpikes.score_kind :=
  match k with
  | MakeTargetsFromLogs.Cp => ExtractEvalSpikes.Cp
  | MakeTargetsFromLogs.Mate => ExtractEvalSpikes.Mate
  end.

Definition info_of_logs
  (INFO_RE : str -> option (MakeTargetsFromLogs.score_kind * Z)) (l : str)
  : option (ExtractEvalSpikes.score_kind * Z) :=
  match INFO_RE l with
  | Some (k, v) => Some (kind_of_logs k, v)
  | None => None
  end.

(** The entries are numbered from 1 in the order of the list. *)
Definition numbered (best : list MakeTargetsFromLogs.best_entry) : Prop :=
  forall i b,
    nth_error best i = Some b ->
    MakeTargetsFromLogs.idx b = Z.of_nat i + 1.

End ParserVocabulary.

(** ** Targets from move records *)

Module MovesVocabulary.

Import MakeTargetsFromMoves.

(** The target comes from a record of one of the groups: a rewind depth
    within the bounds, a difference that reaches the threshold, the origin
    fields of the group and of the record, and the position after the move
    of the record, rewound by the depth. *)
Definition sourced (a : args) (groups : list group) (t : target) : Prop :=
  pre_position t <> []
  /\ back_min a <= back_plies t <= back_max a
  /\ threshold a <= Z.abs (origin_delta t)
  /\ exists g m,
       In g groups /\ In m (g_recs g)
       /\ origin_log t = g_base g
       /\ origin_game_index t = g_game_index g
       /\ origin_ply t = r_ply m
       /\ origin_side t = r_side m
       /\ origin_cand_black t = r_cand_black m
       /\ chop_moves
            (Some (make_pos_after (r_position m) (r_bestmove m)))
            (back_plies t)
          = Some (pre_position t).

(** The state of the loops holds the positions of its targets, once each,
    and all its targets are sourced. *)
Definition generated (a : args) (groups : list group) (st : gen_state)
  : Prop :=
  (forall p, p ∈ fst st <-> In p (map pre_position (snd st)))
  /\ List.NoDup (map pre_position (snd st))
  /\ Forall (sourced a groups) (snd st).

End MovesVocabulary.

(** ** A small log *)

Module LogExample.

Import MakeTargetsFromLogs.

Definition lines : list str :=
  [ lit "< info depth 8 score cp 30 pv 7g7f";
    lit "< bestmove 7g7f";
    lit "> position startpos moves 7g7f";
    lit "< info depth 9 score cp -400 pv 3c3d";
    lit "< bestmove 3c3d";
    lit "> position startpos moves 7g7f 3c3d" ].

(** The patterns of the script on the lines above. *)
Definition INFO_RE (l : str) : option (score_kind * Z) :=
  if bool_decide (l = lit "< info depth 8 score cp 30 pv 7g7f")
  then Some (Cp, 30)
  else if bool_decide (l = lit "< info depth 9 score cp -400 pv 3c3d")
  then Some (Cp, -400)
  else None.

Definition BESTMOVE_RE (l : str) : option str :=
  if startswith (lit "< bestmove ") l then Some (skipn 11 l) else None.

Definition POS_LINE_RE (l : str) : bool :=
  contains (lit "position startpos") l.

Definition DEPTH_RE (l : str) : option Z :=
  if bool_decide (l = lit "< info depth 8 score cp 30 pv 7g7f")
  then Some 8
  else if bool_decide (l = lit "< info depth 9 score cp -400 pv 3c3d")
  then Some 9
  else None.

Definition best : list best_entry :=
  [ {| idx := 1; bestmove := lit "7g7f";
       pos_after := Some (lit "startpos moves 7g7f");
       last_cp := Some 30; last_depth := 8 |};
    {| idx := 2; bestmove := lit "3c3d";
       pos_after := Some (lit "startpos moves 7g7f 3c3d");
       last_cp := Some (-400); last_depth := 9 |} ].

Definition evals : list Z := [30; -400].

Definition a : args :=
  {| threshold := 250; topk := 10; back_min := 1; back_max := 2 |}.

End LogExample.

(** ** The files of extract_eval_spikes.py for the small log *)

Module SpikeFilesExample.

Import ExtractEvalSpikes.

Definition a : args :=
  {| threshold := 300; back := 3; forward := 2; topk := 0 |}.

Definition out : outputs :=
  {| evals_csv := [(1, lit "7g7f", 30, 0); (2, lit "3c3d", -400, -430)];
     spikes_csv := [(2, -430)];
     prefixes := [1; 2] |}.

End SpikeFilesExample.

(** ** A position and a bestmove *)

Module PositionExample.

Definition h : str := lit "startpos".

Definition ts : list str := [lit "7g7f"; lit "3c3d"].

(** The bestmove as it stands in a record, with white space around it. *)
Definition bestmove : str := lit " 8h2b ".

End PositionExample.

(** ** Reading a replay summary *)

Module SummaryVocabulary.

Import RunRegressionChecks.

Section Lines.

Variable RE_BESTMOVE : str -> option (Z * str).
Variable RE_INFO : str -> option (Z * Z * Z * Z).

(** What a line of the summary says: nothing (blank or a comment), the
    best move of a prefix, the last search report of a prefix with the
    score in centipawns (a mate score is [+100000] or [-100000]), or
    nothing that the parser knows. *)
Inductive summary_line :=
| Skipped
| BestmoveLine (num : Z) (move : str)
| InfoLine (num : Z) (depth seldepth score : Z)
| Unknown.

Definition read_line (line : str) : summary_line :=
  let line := strip line in
  if negb (truthy line) || startswith (lit "#") line then Skipped
  else
    match RE_BESTMOVE line with
    | Some (num, move) => BestmoveLine num move
    | None =>
        match RE_INFO line with
        | Some (num, d, sd, score) =>
            InfoLine num d sd
              (if contains (lit "score mate") line
               then (if score >? 0 then 100000 else -100000)
               else score)
        | None => Unknown
        end
    end.

(** The move of the last bestmove line of the prefix [p]. *)
Definition last_move (p : Z) (lines : list str) : option str :=
  fold_left
    (fun acc line =>
       match read_line line with
       | BestmoveLine num move => if num =? p then Some move else acc
       | _ => acc
       end)
    lines None.

(** Depth, selective depth and score of the last report of the prefix
    [p]. *)
Definition last_info (p : Z) (lines : list str) : option (Z * Z * Z) :=
  fold_left
    (fun acc line =>
       match read_line line with
       | InfoLine num d sd score =>
           if num =? p then Some (d, sd, score) else acc
       | _ => acc
       end)
    lines None.

(** The record of the prefix [p]: none when no line is about it;
    ["(unknown)"] stands for a missing bestmove line and zeros for a
    missing report. *)
Definition entry (p : Z) (lines : list str) : option PrefixResult :=
  match last_move p lines, last_info p lines with
  | None, None => None
  | move, info =>
      let '(d, sd, score) :=
        match info with Some i => i | None => (0, 0, 0) end in
      Some {| bestmove :=
                match move with Some m => m | None => lit "(unknown)" end;
              depth := d; seldepth := sd; score_cp := score |}
  end.

End Lines.

(** The guard that applies to its prefix number: the last one declared
    with that number. *)
Definition effective (scn : Scenario) (g : PrefixGuard) : Prop :=
  find (fun g' => number g' =? number g) (rev (prefix_guards scn)) = Some g.

(** The scenario is selected by the names on the command line: all are
    when there are none. *)
Definition wanted (scenarios : option (list str)) (scn : Scenario) : bool :=
  match scenarios with
  | Some (n :: ns) => bool_decide (name scn ∈ n :: ns)
  | _ => true
  end.

(** The names asked for. *)
Definition requested (scenarios : option (list str)) : list str :=
  match scenarios with
  | Some names => names
  | None => []
  end.

End SummaryVocabulary.

(** ** The first bad target of an origin *)

Module FirstBadVocabulary.

Import SummarizeFirstBadMetrics.

(** [t.get('origin_log') or ''] and [int(t.get('back_plies') or 0)]. *)
Definition origin_of (t : target_entry) : str :=
  match t_origin_log t with Some o => o | None => [] end.

Definition back_of (t : target_entry) : Z :=
  match t_back_plies t with Some b => b | None => 0 end.

(** The score of a tag under a profile: the one of the last row of the
    summary for them, if it has a score. *)
Definition score_of (rows : list summary_row) (profile : option str)
  (tag : str) : option Z :=
  match
    find (fun r => bool_decide ((s_tag r, s_profile r) = (Some tag, profile)))
      (rev rows)
  with
  | Some r => s_eval_cp r
  | None => None
  end.

(** The tag has a score at or below the threshold. *)
Definition bad (rows : list summary_row) (profile : option str) (bad_th : Z)
  (tag : str) : Prop :=
  exists cp, score_of rows profile tag = Some cp /\ cp <= bad_th.

(** The rewind depths and tags of the targets of an origin that have a
    tag, in the order of the file. *)
Definition candidates (targets : list target_entry) (origin : str)
  : list (Z * str) :=
  flat_map
    (fun t =>
       match t_tag t with
       | Some tag =>
           if bool_decide (origin_of t = origin) then [(back_of t, tag)]
           else []
       | None => []
       end)
    targets.

(** [d.get(k)] for a dictionary with string keys in insertion order. *)
Fixpoint assoc {V} (k : str) (d : list (str * V)) : option V :=
  match d with
  | [] => None
  | (k', v) :: d' => if bool_decide (k' = k) then Some v else assoc k d'
  end.

End FirstBadVocabulary.

Module FirstBadExample.

Import SummarizeFirstBadMetrics.

Definition targets : list target_entry :=
  [ {| t_origin_log := Some (lit "game.md"); t_back_plies := Some 3;
       t_tag := Some (lit "game_ply9_back3") |};
    {| t_origin_log := Some (lit "game.md"); t_back_plies := Some 2;
       t_tag := Some (lit "game_ply9_back2") |};
    {| t_origin_log := Some (lit "game.md"); t_back_plies := Some 1;
       t_tag := Some (lit "game_ply9_back1") |} ].

Definition rows : list summary_row :=
  [ {| s_tag := Some (lit "game_ply9_back3"); s_profile := Some (lit "base");
       s_eval_cp := Some (-900) |};
    {| s_tag := Some (lit "game_ply9_back2"); s_profile := Some (lit "base");
       s_eval_cp := Some (-700) |};
    {| s_tag := Some (lit "game_ply9_back1"); s_profile := Some (lit "base");
       s_eval_cp := Some 50 |} ].

End FirstBadExample.

(** ** The waits of a session *)

Module SessionVocabulary.



End SessionVocabulary.

(** * Properties *)

(** ** Spike detection *)

Section Spikes.

Import ExtractEvalSpikes.

Lemma range_cons a n :
  range a (a + Z.of_nat (S n)) = a :: range (a + 1) (a + 1 + Z.of_nat n).
Proof.
  unfold range.
  replace (a + Z.of_nat (S n) - a) with (Z.of_nat (S n)) by lia.
  replace (a + 1 + Z.of_nat n - (a + 1)) with (Z.of_nat n) by lia.
  rewrite !Nat2Z.id. simpl. f_equal; [lia|].
  rewrite <- seq_shift, map_map. apply map_ext. intros k. lia.
Qed.

Lemma range_empty a b : b <= a -> range a b = [].
Proof.
  intros H. unfold range. replace (Z.to_nat (b - a)) with O by lia. reflexivity.
Qed.

Lemma in_range_iff a b i : In i (range a b) <-> a <= i < b.
Proof.
  unfold range. rewrite in_map_iff. split.
  - intros (n & <- & Hn). apply in_seq in Hn. lia.
  - intros H. exists (Z.to_nat (i - a)). split; [lia|]. apply in_seq. lia.
Qed.

Lemma deltas_nth l : forall i p,
  deltas i p l =
    map (fun j => (j, nth (S (Z.to_nat (j - i))) (p :: l) 0
                      - nth (Z.to_nat (j - i)) (p :: l) 0))
      (range i (i + Z.of_nat (length l))).
Proof.
  induction l as [|sc l IH]; intros i p.
  - simpl. rewrite range_empty by lia. reflexivity.
  - cbn [length]. rewrite range_cons. cbn [deltas map].
    replace (Z.to_nat (i - i)) with O by lia. cbn [nth]. f_equal.
    rewrite IH. apply map_ext_in. intros j Hj. apply in_range_iff in Hj.
    replace (Z.to_nat (j - i)) with (S (Z.to_nat (j - (i + 1)))) by lia.
    reflexivity.
Qed.

Lemma spike_fold T l : forall i p acc,
  snd (fold_left (spike_step T) (enumerate i l) (Some p, acc)) =
    acc ++ List.filter (fun s => Z.abs (snd s) >=? T) (deltas i p l).
Proof.
  induction l as [|sc l IH]; intros i p acc.
  - simpl. now rewrite app_nil_r.
  - cbn [enumerate fold_left spike_step deltas List.filter snd].
    rewrite IH. destruct (Z.abs (sc - p) >=? T).
    + now rewrite <- app_assoc.
    + reflexivity.
Qed.

Lemma compute_spikes_flagged E T : compute_spikes E T = flagged E T.
Proof.
  unfold compute_spikes, flagged. destruct E as [|e0 E].
  - reflexivity.
  - cbn [enumerate fold_left spike_step]. rewrite spike_fold. cbn [app].
    rewrite deltas_nth. f_equal.
    replace (Z.of_nat (length (e0 :: E)) + 1) with (2 + Z.of_nat (length E))
      by (cbn [length]; lia).
    apply map_ext_in. intros j Hj. apply in_range_iff in Hj.
    unfold eval_at. f_equal.
    replace (Z.to_nat (j - 1)) with (S (Z.to_nat (j - 2))) by lia.
    replace (Z.to_nat (j - 1 - 1)) with (Z.to_nat (j - 2)) by lia.
    reflexivity.
Qed.

Lemma logs_compute_spikes_same E T :
  MakeTargetsFromLogs.compute_spikes E T = compute_spikes E T.
Proof. reflexivity. Qed.

(** C3. For every series [E] and threshold [T], [compute_spikes] returns, in
    increasing order and once each, exactly the indices [i] from 2 to
    [len(E)] with [|E[i] - E[i-1]| >= T], each paired with the signed
    difference [E[i] - E[i-1]]; index 1 is never returned.  Both copies of
    the function (extract_eval_spikes.py and make_targets_from_logs.py)
    behave so. *)
Theorem compute_spikes_flags_exactly (E : list Z) (T : Z) :
  compute_spikes E T = flagged E T
  /\ MakeTargetsFromLogs.compute_spikes E T = flagged E T
  /\ (forall i d,
        In (i, d) (compute_spikes E T) <->
        2 <= i <= Z.of_nat (length E)
        /\ d = eval_at E i - eval_at E (i - 1)
        /\ T <= Z.abs d)
  /\ (forall d, ~ In (1, d) (compute_spikes E T)).
Proof.
  assert (Hin : forall i d,
        In (i, d) (compute_spikes E T) <->
        2 <= i <= Z.of_nat (length E)
        /\ d = eval_at E i - eval_at E (i - 1)
        /\ T <= Z.abs d).
  { intros i d. rewrite compute_spikes_flagged. unfold flagged.
    rewrite filter_In, in_map_iff. cbn [snd]. split.
    - intros [(j & Hj & Hr) Hd]. inversion Hj; subst.
      apply in_range_iff in Hr. repeat split; lia.
    - intros (Hi & -> & Hd). split; [|lia].
      exists i. split; [reflexivity|]. apply in_range_iff. lia. }
  split; [|split; [|split]].
  - apply compute_spikes_flagged.
  - rewrite logs_compute_spikes_same. apply compute_spikes_flagged.
  - exact Hin.
  - intros d Hd. apply Hin in Hd. lia.
Qed.

End Spikes.

(** The second concrete scenario of the specification. *)
Example compute_spikes_scenario :
  ExtractEvalSpikes.compute_spikes [50; 120; -280; -300] 300 = [(3, -400)].
Proof. reflexivity. Qed.

(** ** Engine sessions *)

Section Sessions.

Variable INFO_DEPTH_CP_RE : str -> option (N * Z).






End Sessions.


(** ** Transcript parsing *)

Section Transcript.

Import ExtractEvalSpikes TranscriptVocabulary.

Variable INFO_RE : str -> option (score_kind * Z).
Variable BESTMOVE_RE : str -> option str.
Variables include_re exclude_re : option (str -> bool).

Local Abbreviation parse_line :=
  (ExtractEvalSpikes.parse_line INFO_RE BESTMOVE_RE include_re exclude_re).
Local Abbreviation parse_log :=
  (ExtractEvalSpikes.parse_log INFO_RE BESTMOVE_RE include_re exclude_re).
Local Abbreviation kind_of :=
  (TranscriptVocabulary.kind_of INFO_RE BESTMOVE_RE include_re exclude_re).
Local Abbreviation is_decision :=
  (TranscriptVocabulary.is_decision INFO_RE BESTMOVE_RE include_re exclude_re).
Local Abbreviation last_reading :=
  (TranscriptVocabulary.last_reading INFO_RE BESTMOVE_RE include_re exclude_re).
Local Abbreviation closed :=
  (TranscriptVocabulary.closed INFO_RE BESTMOVE_RE include_re exclude_re).

(** The parser's step, by the kind of the line. *)
Lemma parse_line_kind evals moves cur line :
  parse_line (evals, moves, cur) line =
    match kind_of line with
    | Filtered => (evals, moves, cur)
    | Reading k v => (evals, moves, Some (reading_sample (k, v)))
    | Decision mv =>
        (evals ++ [decision_sample
                     match cur with
                     | Some e => Some (Cp, e)
                     | None => None
                     end evals],
         moves ++ [mv], None)
    | Neither => (evals, moves, cur)
    end.
Proof.
  unfold ExtractEvalSpikes.parse_line, TranscriptVocabulary.kind_of.
  destruct (match include_re with Some _ => _ | None => _ end); [reflexivity|].
  destruct (match exclude_re with Some _ => _ | None => _ end); [reflexivity|].
  destruct (INFO_RE line) as [[[] v]|]; [reflexivity|reflexivity|].
  destruct (BESTMOVE_RE line) as [mv|]; [|reflexivity].
  destruct cur, evals; reflexivity.
Qed.

(** After a decision no reading is pending. *)
Lemma closed_no_pending lines :
  closed lines = true ->
  snd (fold_left parse_line lines ([], [], None)) = None.
Proof.
  unfold TranscriptVocabulary.closed.
  destruct lines as [|x l _] using rev_ind; [reflexivity|].
  rewrite rev_app_distr. cbn [rev app]. intros Hdec.
  rewrite fold_left_app. cbn [fold_left].
  destruct (fold_left _ l _) as [[evals moves] cur].
  rewrite parse_line_kind. unfold TranscriptVocabulary.is_decision in Hdec.
  destruct (kind_of x); try discriminate. reflexivity.
Qed.

(** Lines without a decision leave the samples alone and keep the last
    reading. *)
Lemma segment_fold seg : forall evals moves cur,
  forallb (fun l => negb (is_decision l)) seg = true ->
  fold_left parse_line seg (evals, moves, cur) =
    (evals, moves,
     match fold_left
             (fun r line =>
                match kind_of line with
                | Reading k v => Some (k, v)
                | _ => r
                end) seg None with
     | Some r => Some (reading_sample r)
     | None => cur
     end).
Proof.
  induction seg as [|x seg IH] using rev_ind; intros evals moves cur Hseg.
  - reflexivity.
  - rewrite forallb_app in Hseg. apply andb_true_iff in Hseg as [Hseg Hx].
    cbn [forallb] in Hx. rewrite andb_true_r in Hx.
    rewrite !fold_left_app. cbn [fold_left]. rewrite IH by exact Hseg.
    rewrite parse_line_kind. unfold TranscriptVocabulary.is_decision in Hx.
    destruct (kind_of x); try discriminate; reflexivity.
Qed.

Lemma parse_log_decision pre seg dec mv :
  closed pre = true ->
  forallb (fun l => negb (is_decision l)) seg = true ->
  kind_of dec = Decision mv ->
  fst (parse_log (pre ++ seg ++ [dec])) =
    fst (parse_log pre)
    ++ [decision_sample (last_reading seg) (fst (parse_log pre))].
Proof.
  intros Hpre Hseg Hdec. unfold ExtractEvalSpikes.parse_log.
  apply closed_no_pending in Hpre.
  rewrite !fold_left_app. cbn [fold_left].
  destruct (fold_left parse_line pre _) as [[evals moves] cur].
  cbn [snd] in Hpre. subst cur. rewrite segment_fold by exact Hseg.
  rewrite parse_line_kind, Hdec. cbn [fst].
  unfold TranscriptVocabulary.last_reading.
  destruct (fold_left _ seg None) as [[[] v]|]; reflexivity.
Qed.

Lemma main_evals_snoc recs r :
  MakeTargetsFromMoves.main_evals (recs ++ [r]) =
    MakeTargetsFromMoves.main_evals recs
    ++ [decision_sample (rec_reading r) (MakeTargetsFromMoves.main_evals recs)].
Proof.
  unfold MakeTargetsFromMoves.main_evals.
  assert (Hinv : forall l,
    let st := fold_left MakeTargetsFromMoves.eval_step l (None, []) in
    fst st = match snd st with
             | [] => None
             | _ :: _ => Some (List.last (snd st) 0)
             end).
  { induction l as [|x l IH] using rev_ind; [reflexivity|].
    rewrite fold_left_app. cbn [fold_left].
    destruct (fold_left _ l _) as [cur evals]. cbn [fst snd] in *.
    unfold MakeTargetsFromMoves.eval_step. cbn [fst snd].
    rewrite last_last. destruct (evals ++ _) eqn:He; [|reflexivity].
    now destruct evals. }
  rewrite fold_left_app. cbn [fold_left]. specialize (Hinv recs).
  destruct (fold_left _ recs _) as [cur evals]. cbn [fst snd] in *. subst cur.
  unfold MakeTargetsFromMoves.eval_step, rec_reading, decision_sample.
  cbn [snd].
  destruct (MakeTargetsFromMoves.eval_cp r), (MakeTargetsFromMoves.eval_mate r),
    evals; reflexivity.
Qed.

(** C8. In [parse_log], a decision line that follows a closed record and a
    segment of lines without a decision appends one sample: the value of the
    segment's last reading, where a mate reading [n] counts as [+100000] when
    [n > 0] and as [-100000] otherwise, and, when the segment has no reading,
    the sample before, or 0 when there is none.  The loop of
    make_targets_from_moves.py appends the same sample for every record. *)
Theorem decision_sample_recorded
  (pre seg : list str) (dec mv : str)
  (recs : list MakeTargetsFromMoves.move_rec) (r : MakeTargetsFromMoves.move_rec) :
  closed pre = true ->
  forallb (fun l => negb (is_decision l)) seg = true ->
  kind_of dec = Decision mv ->
  let evals := fst (parse_log pre) in
  let sample :=
    match last_reading seg with
    | Some (Cp, v) => v
    | Some (Mate, n) => if n >? 0 then 100000 else -100000
    | None => match evals with [] => 0 | _ :: _ => List.last evals 0 end
    end in
  fst (parse_log (pre ++ seg ++ [dec])) = evals ++ [sample]
  /\ let evals' := MakeTargetsFromMoves.main_evals recs in
     let sample' :=
       match MakeTargetsFromMoves.eval_cp r, MakeTargetsFromMoves.eval_mate r with
       | Some cp, _ => cp
       | None, Some n => if n >? 0 then 100000 else -100000
       | None, None => match evals' with [] => 0 | _ :: _ => List.last evals' 0 end
       end in
     MakeTargetsFromMoves.main_evals (recs ++ [r]) = evals' ++ [sample'].
Proof.
  intros Hpre Hseg Hdec evals sample. split.
  - rewrite (parse_log_decision pre seg dec mv Hpre Hseg Hdec).
    fold evals. f_equal. f_equal. subst sample. unfold decision_sample.
    destruct (last_reading seg) as [[[] v]|]; try reflexivity.
    now destruct evals.
  - intros evals' sample'. rewrite main_evals_snoc. fold evals'.
    f_equal. f_equal. subst sample'. unfold decision_sample, rec_reading.
    destruct (MakeTargetsFromMoves.eval_cp r),
      (MakeTargetsFromMoves.eval_mate r); try reflexivity.
    now destruct evals'.
Qed.

End Transcript.

Lemma decision_sample_recorded_witness :
  let INFO_RE := fun l : str =>
    if bool_decide (l = lit "info depth 9 score mate -3")
    then Some (ExtractEvalSpikes.Mate, -3) else None in
  let BESTMOVE_RE := fun l : str =>
    if bool_decide (l = lit "bestmove 7g7f") then Some (lit "7g7f") else None in
  fst (ExtractEvalSpikes.parse_log INFO_RE BESTMOVE_RE None None
         ([lit "bestmove 7g7f"]
          ++ [lit "info depth 9 score mate -3"; lit "readyok"]
          ++ [lit "bestmove 7g7f"]))
  = [0] ++ [-100000]
  /\ MakeTargetsFromMoves.main_evals
       ([ {| MakeTargetsFromMoves.eval_cp := Some 35;
             MakeTargetsFromMoves.eval_mate := None |} ]
        ++ [ {| MakeTargetsFromMoves.eval_cp := None;
                MakeTargetsFromMoves.eval_mate := None |} ])
     = [35] ++ [35].
Proof.
  cbv zeta.
  pose proof
    (decision_sample_recorded
       (fun l : str =>
          if bool_decide (l = lit "info depth 9 score mate -3")
          then Some (ExtractEvalSpikes.Mate, -3) else None)
       (fun l : str =>
          if bool_decide (l = lit "bestmove 7g7f")
          then Some (lit "7g7f") else None)
       None None
       [lit "bestmove 7g7f"]
       [lit "info depth 9 score mate -3"; lit "readyok"]
       (lit "bestmove 7g7f") (lit "7g7f")
       [ {| MakeTargetsFromMoves.eval_cp := Some 35;
            MakeTargetsFromMoves.eval_mate := None |} ]
       {| MakeTargetsFromMoves.eval_cp := None;
          MakeTargetsFromMoves.eval_mate := None |}
       eq_refl eq_refl eq_refl) as H.
  vm_compute in H. vm_compute. exact H.
Defined.

(** ** Metrics *)

Section Metrics.

Import SummarizeDropMetrics MetricsVocabulary.

Lemma count_cons P r rows :
  count P (r :: rows) = (if P r then 1 else 0) + count P rows.
Proof.
  unfold count. cbn [List.filter]. destruct (P r); cbn [length]; lia.
Qed.

Lemma count_nonneg P rows : 0 <= count P rows.
Proof. unfold count. lia. Qed.

Lemma count_row_step th c r :
  count_row th c r =
    {| c_bad := c_bad c + (if is_bad th r then 1 else 0);
       c_cp_sum := c_cp_sum c + score_of r;
       c_depth_sum := c_depth_sum c + depth_of r;
       c_valid := c_valid c + (if has_score r then 1 else 0) |}.
Proof.
  unfold count_row, depth_to_add, is_bad, has_score, score_of, depth_of.
  destruct c as [b s d v].
  destruct (eval_cp r) as [cp|], (depth r) as [|n|];
    cbn [c_bad c_cp_sum c_depth_sum c_valid];
    change (-1 >=? 0) with false; cbv iota;
    rewrite ?Z.geb_leb;
    try destruct (0 <=? n); try destruct (cp <=? th);
    cbn [c_bad c_cp_sum c_depth_sum c_valid]; f_equal; lia.
Qed.

Lemma count_row_fold th rows : forall c,
  fold_left (count_row th) rows c =
    {| c_bad := c_bad c + count (is_bad th) rows;
       c_cp_sum := c_cp_sum c + total_of score_of rows;
       c_depth_sum := c_depth_sum c + total_of depth_of rows;
       c_valid := c_valid c + count has_score rows |}.
Proof.
  induction rows as [|r rows IH]; intros c.
  - destruct c. unfold count. cbn. f_equal; lia.
  - cbn [fold_left]. rewrite IH, !count_cons, count_row_step.
    cbn [c_bad c_cp_sum c_depth_sum c_valid].
    change (total_of ?f (r :: rows)) with (f r + total_of f rows).
    f_equal; lia.
Qed.

Lemma first_bad_count_row_same c r :
  SummarizeFirstBadMetrics.count_row c r = count_row (-600) c r.
Proof. reflexivity. Qed.

Lemma selected_rows rows p :
  (if falsy p then rows
   else List.filter (fun r => bool_decide (profile r = p)) rows)
  = selected rows p.
Proof. destruct p as [[|c p]|]; reflexivity. Qed.

Lemma main_counters rows p th :
  let batch := selected rows p in
  let m := main rows p th in
  valid m = count has_score batch
  /\ bad_count m = count (is_bad th) batch
  /\ spike_rate_percent m =
       (if valid m =? 0 then None
        else Some (PrimFloat.mul (PyFloat.truediv (bad_count m) (valid m))
                     100%float))
  /\ avg_depth m =
       (if valid m =? 0 then None
        else Some (PyFloat.truediv (total_of depth_of batch) (valid m))).
Proof.
  intros batch m. subst m. unfold main. rewrite selected_rows. fold batch.
  rewrite count_row_fold.
  cbn [valid bad_count spike_rate_percent avg_depth c_bad c_valid c_depth_sum].
  rewrite !Z.add_0_l. repeat split.
Qed.

Lemma compute_metrics_counters rows :
  let m := SummarizeFirstBadMetrics.compute_metrics rows in
  valid m = count has_score rows
  /\ avg_depth m =
       (if valid m =? 0 then None
        else Some (PyFloat.truediv (total_of depth_of rows) (valid m))).
Proof.
  intros m. subst m. unfold SummarizeFirstBadMetrics.compute_metrics.
  change (fold_left SummarizeFirstBadMetrics.count_row)
    with (fold_left (count_row (-600))).
  rewrite count_row_fold.
  cbn [valid avg_depth c_valid c_depth_sum].
  rewrite !Z.add_0_l. repeat split.
Qed.

(** C4. For every result batch and threshold, [main] reports as [valid] the
    number of results with a score, as [bad_count] the number of those with
    a score at or below the threshold, and as [spike_rate_percent] [None]
    exactly when [valid] is 0 and [bad_count / valid * 100.0] otherwise; the
    batch of scores -700, -100 and null at threshold -600 gives 2, 1 and
    50.0. *)
Theorem metrics_valid_bad_rate (rows : list row) (p : option str) (th : Z) :
  let batch := selected rows p in
  let m := main rows p th in
  valid m = count has_score batch
  /\ bad_count m = count (is_bad th) batch
  /\ (spike_rate_percent m = None <-> valid m = 0)
  /\ (valid m <> 0 ->
      spike_rate_percent m =
        Some (PrimFloat.mul (PyFloat.truediv (bad_count m) (valid m))
                100%float))
  /\ (forall p1 p2 p3 d1 d2 d3,
        let ex := main [ {| profile := p1; eval_cp := Some (-700); depth := d1 |};
                         {| profile := p2; eval_cp := Some (-100); depth := d2 |};
                         {| profile := p3; eval_cp := None; depth := d3 |} ]
                    None (-600) in
        valid ex = 2 /\ bad_count ex = 1
        /\ spike_rate_percent ex = Some 50%float).
Proof.
  intros batch m.
  destruct (main_counters rows p th) as (Hv & Hb & Hr & _).
  fold batch m in Hv, Hb, Hr.
  split; [exact Hv|]. split; [exact Hb|]. split; [|split].
  - rewrite Hr. destruct (Z.eqb_spec (valid m) 0); split; intros; congruence.
  - intros Hne. rewrite Hr. destruct (Z.eqb_spec (valid m) 0); congruence.
  - intros p1 p2 p3 d1 d2 d3 ex. subst ex.
    set (batch3 :=
      [ {| profile := p1; eval_cp := Some (-700); depth := d1 |};
        {| profile := p2; eval_cp := Some (-100); depth := d2 |};
        {| profile := p3; eval_cp := None; depth := d3 |} ]).
    destruct (main_counters batch3 None (-600)) as (Hv' & Hb' & Hr' & _).
    change (selected batch3 None) with batch3 in Hv', Hb'.
    change (count has_score batch3) with 2 in Hv'.
    change (count (is_bad (-600)) batch3) with 1 in Hb'.
    rewrite Hr', Hv', Hb'. repeat split.
Qed.

(** C10. When [valid > 0], [avg_depth] is the sum of the depths of all rows
    whose depth is a non-negative integer, rows without a score included,
    divided by [valid], the number of rows with a score; it is [None] when
    [valid = 0].  So a row with a depth and no score adds to the numerator
    and not to the denominator: a row of depth 10 without a score and a row
    of depth 20 with one give 30.0.  This holds for [main] of
    summarize_drop_metrics.py and for [compute_metrics] of
    summarize_first_bad_metrics.py. *)
Theorem avg_depth_counts_unscored_rows (rows : list row) (p : option str)
  (th : Z) :
  let batch := selected rows p in
  let m := main rows p th in
  let m' := SummarizeFirstBadMetrics.compute_metrics rows in
  (valid m = count has_score batch
   /\ avg_depth m =
        (if valid m =? 0 then None
         else Some (PyFloat.truediv (total_of depth_of batch) (valid m))))
  /\ (valid m' = count has_score rows
      /\ avg_depth m' =
           (if valid m' =? 0 then None
            else Some (PyFloat.truediv (total_of depth_of rows) (valid m'))))
  /\ (forall cp,
        let ex := [ {| profile := None; eval_cp := None; depth := DepthInt 10 |};
                    {| profile := None; eval_cp := Some cp; depth := DepthInt 20 |} ] in
        avg_depth (main ex None th) = Some 30%float
        /\ avg_depth (SummarizeFirstBadMetrics.compute_metrics ex)
           = Some 30%float).
Proof.
  intros batch m m'.
  destruct (main_counters rows p th) as (Hv & _ & _ & Hd).
  destruct (compute_metrics_counters rows) as (Hv' & Hd').
  split; [split; assumption|]. split; [split; assumption|].
  intros cp ex.
  assert (Hc : count has_score ex = 1) by reflexivity.
  assert (Ht : total_of depth_of ex = 30) by reflexivity.
  split.
  - destruct (main_counters ex None th) as (Hv1 & _ & _ & Hd1).
    change (selected ex None) with ex in Hv1, Hd1.
    rewrite Hd1, Hv1, Hc, Ht. reflexivity.
  - destruct (compute_metrics_counters ex) as (Hv1 & Hd1).
    rewrite Hd1, Hv1, Hc, Ht. reflexivity.
Qed.

End Metrics.

Lemma metrics_valid_bad_rate_witness :
  let rows :=
    [ {| SummarizeDropMetrics.profile := None;
         SummarizeDropMetrics.eval_cp := Some (-650);
         SummarizeDropMetrics.depth := SummarizeDropMetrics.DepthInt 12 |} ] in
  SummarizeDropMetrics.spike_rate_percent
    (SummarizeDropMetrics.main rows None (-600))
  = Some (PrimFloat.mul
            (PyFloat.truediv
               (SummarizeDropMetrics.bad_count
                  (SummarizeDropMetrics.main rows None (-600)))
               (SummarizeDropMetrics.valid
                  (SummarizeDropMetrics.main rows None (-600))))
            100%float).
Proof.
  cbv zeta.
  apply (metrics_valid_bad_rate
           [ {| SummarizeDropMetrics.profile := None;
                SummarizeDropMetrics.eval_cp := Some (-650);
                SummarizeDropMetrics.depth := SummarizeDropMetrics.DepthInt 12 |} ]
           None (-600)).
  vm_compute. discriminate.
Defined.

(** ** SPSA *)

Section Spsa.

Import SpsaOptimize SpsaVocabulary.

(** What [clamp_step] returns, whatever [round] gives: a value within
    ordered bounds; with a step above 1, a grid point or a bound. *)
Lemma clamp_step_cases x mn mx step v :
  clamp_step x mn mx step = Some v ->
  mn <= mx ->
  mn <= v <= mx
  /\ (1 <= step -> (exists m, v = mn + m * step) \/ v = mx).
Proof.
  unfold clamp_step. intros Hv Hle.
  destruct (negb (step =? 0) && (step >? 1)) eqn:Hs.
  - destruct (PyFloat.round _) as [k|]; [|discriminate].
    injection Hv as <-. split; [lia|]. intros _.
    destruct (Z.max_spec mn (Z.min mx (k * step + mn))) as [[_ ->]|[_ ->]].
    + destruct (Z.min_spec mx (k * step + mn)) as [[_ ->]|[_ ->]].
      * now right.
      * left. exists k. lia.
    + left. exists 0. lia.
  - injection Hv as <-. split; [lia|]. intros H1.
    assert (step = 1) as ->.
    { apply andb_false_iff in Hs as [Hs|Hs].
      - apply negb_false_iff, Z.eqb_eq in Hs. lia.
      - rewrite Z.gtb_ltb in Hs. apply Z.ltb_ge in Hs. lia. }
    left. exists (Z.max mn (Z.min mx x) - mn). lia.
Qed.

Lemma clamp_step_stored pc x v :
  clamp_step x (pc_min pc) (pc_max pc) (get_step pc) = Some v ->
  pc_min pc <= pc_max pc ->
  in_bounds pc v
  /\ (1 <= get_step pc -> on_grid pc v \/ v = pc_max pc)
  /\ (aligned pc -> on_grid pc v).
Proof.
  intros Hv Hle. destruct (clamp_step_cases _ _ _ _ _ Hv Hle) as [Hb Hg].
  split; [exact Hb|]. split; [exact Hg|].
  intros (_ & H1 & w & Hw). destruct (Hg H1) as [Hon| ->]; [exact Hon|].
  exists w. lia.
Qed.

Lemma fold_raise_inv {S A} (f : S -> A -> option S) (l : list A)
  (I : list A -> S -> Prop) :
  (forall seen x rest s s',
     l = seen ++ x :: rest -> I seen s -> f s x = Some s' ->
     I (seen ++ [x]) s') ->
  forall s0 s, I [] s0 -> fold_raise f l s0 = Some s -> I l s.
Proof.
  intros Hstep.
  assert (H : forall rest seen s0 s,
    l = seen ++ rest -> I seen s0 -> fold_raise f rest s0 = Some s -> I l s).
  { induction rest as [|x rest IH]; intros seen s0 s Hl Hs0 Hf.
    - cbn in Hf. injection Hf as <-. rewrite app_nil_r in Hl. now subst.
    - cbn in Hf. destruct (f s0 x) as [s1|] eqn:Hx; [|discriminate].
      apply (IH (seen ++ [x]) s1 s).
      + rewrite <- app_assoc. exact Hl.
      + eapply Hstep; eassumption.
      + exact Hf. }
  intros s0 s. apply (H l []). reflexivity.
Qed.

Lemma same_key_same_cfg (l : list (str * param_cfg)) k a b :
  List.NoDup (map fst l) -> In (k, a) l -> In (k, b) l -> a = b.
Proof.
  induction l as [|[k' c] l IH]; cbn; intros Hnd Ha Hb; [contradiction|].
  inversion Hnd as [|? ? Hnot Hnd']; subst.
  destruct Ha as [Ha|Ha], Hb as [Hb|Hb].
  - congruence.
  - injection Ha as -> ->. exfalso. apply Hnot.
    apply in_map_iff. now exists (k, b).
  - injection Hb as -> ->. exfalso. apply Hnot.
    apply in_map_iff. now exists (k, a).
  - now apply IH.
Qed.

Section OneIteration.

Variable params_cfg : list (str * param_cfg).
Variables ak ck : float.
Variable draw : nat -> bool.
Variable spike_rate : gmap str Z -> option float.

Variables (k : str) (pc : param_cfg).
Hypothesis Hkeys : List.NoDup (map fst params_cfg).
Hypothesis Hin : In (k, pc) params_cfg.
Hypothesis Hle : pc_min pc <= pc_max pc.

(** The property of a stored value for the key [k]. *)
Let good (v : Z) : Prop :=
  in_bounds pc v
  /\ (1 <= get_step pc -> on_grid pc v \/ v = pc_max pc)
  /\ (aligned pc -> on_grid pc v).

Lemma perturb_stores theta tp tm :
  fold_raise (perturb_param params_cfg ck draw theta) params_cfg (∅, ∅)
    = Some (tp, tm) ->
  (exists v, tp !! k = Some v /\ good v)
  /\ (exists v, tm !! k = Some v /\ good v).
Proof.
  intros Hf.
  apply (fold_raise_inv _ _
    (fun seen st =>
       In (k, pc) seen ->
       (exists v, fst st !! k = Some v /\ good v)
       /\ (exists v, snd st !! k = Some v /\ good v))) in Hf.
  - exact Hf.
  - intros seen [k' pc'] rest [tp0 tm0] [tp1 tm1] Hl IH Hstep Hseen.
    unfold perturb_param in Hstep.
    destruct (if get_step pc' >? 0 then _ else _) as [d|]; [|discriminate].
    destruct (theta !! k') as [t|]; [|discriminate].
    destruct (delta_sign params_cfg draw !! k') as [sg|]; [|discriminate].
    destruct (clamp_step (t + _) _ _ _) as [p|] eqn:Hp; [|discriminate].
    destruct (clamp_step (t - _) _ _ _) as [m|] eqn:Hm; [|discriminate].
    injection Hstep as <- <-. cbn [fst snd] in *.
    destruct (decide (k' = k)) as [->|Hne].
    + assert (pc' = pc) as ->.
      { apply (same_key_same_cfg params_cfg k); [exact Hkeys| |exact Hin].
        rewrite Hl. apply in_or_app. right. now left. }
      rewrite !lookup_insert_eq. split.
      * exists p. split; [reflexivity|]. exact (clamp_step_stored pc _ p Hp Hle).
      * exists m. split; [reflexivity|]. exact (clamp_step_stored pc _ m Hm Hle).
    + rewrite !lookup_insert_ne by exact Hne. apply IH.
      apply in_app_or in Hseen as [Hs|[Hs|[]]]; [exact Hs|congruence].
  - intros [].
  - exact Hin.
Qed.

Lemma update_stores g theta theta' :
  fold_raise (update_param ak g) params_cfg theta = Some theta' ->
  exists v, theta' !! k = Some v /\ good v.
Proof.
  intros Hf.
  apply (fold_raise_inv _ _
    (fun seen th =>
       In (k, pc) seen -> exists v, th !! k = Some v /\ good v)) in Hf.
  - exact Hf.
  - intros seen [k' pc'] rest th0 th1 Hl IH Hstep Hseen.
    unfold update_param in Hstep.
    destruct (th0 !! k') as [t|]; [|discriminate].
    destruct (g !! k') as [gk|]; [|discriminate].
    destruct (PyFloat.round _) as [n|]; [|discriminate].
    destruct (clamp_step n _ _ _) as [v|] eqn:Hv; [|discriminate].
    injection Hstep as <-.
    destruct (decide (k' = k)) as [->|Hne].
    + assert (pc' = pc) as ->.
      { apply (same_key_same_cfg params_cfg k); [exact Hkeys| |exact Hin].
        rewrite Hl. apply in_or_app. right. now left. }
      rewrite lookup_insert_eq. exists v. split; [reflexivity|].
      exact (clamp_step_stored pc _ v Hv Hle).
    + rewrite lookup_insert_ne by exact Hne. apply IH.
      apply in_app_or in Hseen as [Hs|[Hs|[]]]; [exact Hs|congruence].
  - intros [].
  - exact Hin.
Qed.

Lemma iteration_stores theta it :
  iteration params_cfg ak ck draw spike_rate theta = Some it ->
  stored good k it.
Proof.
  unfold iteration. intros Hit.
  destruct (fold_raise (perturb_param _ _ _ _) _ _) as [[tp tm]|] eqn:Hp;
    [|discriminate].
  destruct (fold_raise (gradient_param _ _ _ _) _ _) as [g|]; [|discriminate].
  destruct (fold_raise (update_param _ _) _ _) as [theta'|] eqn:Hu;
    [|discriminate].
  injection Hit as <-. cbn [stored].
  destruct (perturb_stores _ _ _ Hp) as [Hplus Hminus].
  split; [exact Hplus|]. split; [exact Hminus|].
  exact (update_stores _ _ _ Hu).
Qed.

End OneIteration.

Lemma iterations_store params_cfg ak ck draw spike_rate k pc n :
  List.NoDup (map fst params_cfg) ->
  In (k, pc) params_cfg ->
  pc_min pc <= pc_max pc ->
  forall first theta trace final,
  iterations params_cfg ak ck draw spike_rate n first theta
    = Some (trace, final) ->
  Forall
    (stored (fun v =>
       in_bounds pc v
       /\ (1 <= get_step pc -> on_grid pc v \/ v = pc_max pc)
       /\ (aligned pc -> on_grid pc v)) k)
    trace.
Proof.
  intros Hkeys Hin Hle.
  induction n as [|n IH]; intros first theta trace final Hrun; cbn in Hrun.
  - injection Hrun as <- <-. constructor.
  - destruct (iteration _ _ _ _ _ _) as [[[tp tm] theta']|] eqn:Hit;
      [|discriminate].
    destruct (iterations _ _ _ _ _ _ _ _) as [[trace' final']|] eqn:Hrest;
      [|discriminate].
    injection Hrun as <- <-. constructor.
    + exact (iteration_stores params_cfg _ _ _ _ k pc Hkeys Hin Hle _ _ Hit).
    + exact (IH _ _ _ _ Hrest).
Qed.

Lemma iterations_final params_cfg ak ck draw spike_rate n :
  forall first theta trace final,
  iterations params_cfg ak ck draw spike_rate n first theta
    = Some (trace, final) ->
  (trace = [] /\ final = theta)
  \/ exists theta_plus theta_minus, In (theta_plus, theta_minus, final) trace.
Proof.
  induction n as [|n IH]; intros first theta trace final Hrun; cbn in Hrun.
  - injection Hrun as <- <-. now left.
  - destruct (iteration _ _ _ _ _ _) as [[[tp tm] theta']|]; [|discriminate].
    destruct (iterations _ _ _ _ _ _ _ _) as [[trace' final']|] eqn:Hrest;
      [|discriminate].
    injection Hrun as <- <-. right.
    destruct (IH _ _ _ _ Hrest) as [[-> ->]|(tp' & tm' & Hin)].
    + exists tp, tm. now left.
    + exists tp', tm'. now right.
Qed.

(** C5, amended.  In a run of [main], every vector stored by a
    perturbation ([theta_plus], [theta_minus]) or by an update ([theta]),
    and so the final vector of a run of at least one iteration, holds, for
    every parameter whose declared bounds are ordered, a value within the
    bounds; when the declared step is at least 1 the value is the minimum
    plus a multiple of the step or it is the maximum; and when moreover the
    step divides the width of the domain it is always the minimum plus a
    multiple of the step. *)
Theorem spsa_stored_components
  (params_cfg : list (str * param_cfg)) (ak ck : Z -> float)
  (draw : Z -> nat -> bool) (spike_rate : gmap str Z -> option float)
  (iters : Z) (k : str) (pc : param_cfg)
  (trace : list (gmap str Z * gmap str Z * gmap str Z)) (final : gmap str Z) :
  List.NoDup (map fst params_cfg) ->
  In (k, pc) params_cfg ->
  pc_min pc <= pc_max pc ->
  main params_cfg ak ck draw spike_rate iters = Some (trace, final) ->
  let good := fun v =>
    in_bounds pc v
    /\ (1 <= get_step pc -> on_grid pc v \/ v = pc_max pc)
    /\ (aligned pc -> on_grid pc v) in
  Forall (stored good k) trace
  /\ (trace <> [] -> exists v, final !! k = Some v /\ good v).
Proof.
  intros Hkeys Hin Hle Hrun good. unfold main in Hrun.
  pose proof (iterations_store _ _ _ _ _ k pc _ Hkeys Hin Hle _ _ _ _ Hrun)
    as Hall.
  split; [exact Hall|]. intros Hne.
  destruct (iterations_final _ _ _ _ _ _ _ _ _ _ Hrun)
    as [[-> _]|(tp & tm & Hfin)]; [contradiction|].
  rewrite List.Forall_forall in Hall. apply Hall in Hfin.
  destruct Hfin as (_ & _ & Hth). exact Hth.
Qed.

End Spsa.

Lemma spsa_stored_components_witness :
  let k := lit "QS_MarginCapture" in
  let pc := {| SpsaOptimize.pc_init := 150; SpsaOptimize.pc_min := 100;
               SpsaOptimize.pc_max := 250; SpsaOptimize.pc_step := Some 5 |} in
  let good := fun v =>
    SpsaVocabulary.in_bounds pc v
    /\ (1 <= SpsaOptimize.get_step pc ->
        SpsaVocabulary.on_grid pc v \/ v = SpsaOptimize.pc_max pc)
    /\ (SpsaVocabulary.aligned pc -> SpsaVocabulary.on_grid pc v) in
  Forall (SpsaVocabulary.stored good k)
    [ ({[ k := 155 ]}, {[ k := 145 ]}, {[ k := 150 ]});
      ({[ k := 155 ]}, {[ k := 145 ]}, {[ k := 150 ]}) ]
  /\ exists v, ({[ k := 150 ]} : gmap str Z) !! k = Some v /\ good v.
Proof.
  cbv zeta.
  pose proof
    (spsa_stored_components
       [ (lit "QS_MarginCapture",
          {| SpsaOptimize.pc_init := 150; SpsaOptimize.pc_min := 100;
             SpsaOptimize.pc_max := 250; SpsaOptimize.pc_step := Some 5 |}) ]
       (fun _ => 0.5%float) (fun _ => 1%float) (fun _ _ => true)
       (fun th => match th !! lit "QS_MarginCapture" with
                  | Some v => Some (PyFloat.of_int v)
                  | None => None
                  end)
       2 (lit "QS_MarginCapture")
       {| SpsaOptimize.pc_init := 150; SpsaOptimize.pc_min := 100;
          SpsaOptimize.pc_max := 250; SpsaOptimize.pc_step := Some 5 |}
       [ ({[ lit "QS_MarginCapture" := 155 ]},
          {[ lit "QS_MarginCapture" := 145 ]},
          {[ lit "QS_MarginCapture" := 150 ]});
         ({[ lit "QS_MarginCapture" := 155 ]},
          {[ lit "QS_MarginCapture" := 145 ]},
          {[ lit "QS_MarginCapture" := 150 ]}) ]
       {[ lit "QS_MarginCapture" := 150 ]}) as H.
  cbv zeta in H. destruct H as [Hall Hfinal].
  - repeat constructor. simpl. tauto.
  - left. reflexivity.
  - simpl. lia.
  - vm_compute. reflexivity.
  - split; [exact Hall|]. apply Hfinal. discriminate.
Defined.

(** C5 as stated fails: with the domain [{min: 100, max: 208, step: 10}] and
    the current value 200, the perturbation by one step stores 208 in
    [theta_plus], which is within the bounds and is not 100 plus a multiple
    of 10. *)
Lemma spsa_perturbation_leaves_grid :
  let pc := {| SpsaOptimize.pc_init := 200; SpsaOptimize.pc_min := 100;
               SpsaOptimize.pc_max := 208; SpsaOptimize.pc_step := Some 10 |} in
  SpsaOptimize.iteration [(lit "p", pc)] 0.5%float 1%float (fun _ => true)
    (fun _ => None) {[ lit "p" := 200 ]}
  = Some ({[ lit "p" := 208 ]}, {[ lit "p" := 190 ]}, {[ lit "p" := 200 ]})
  /\ SpsaVocabulary.in_bounds pc 208
  /\ ~ SpsaVocabulary.on_grid pc 208.
Proof.
  cbv zeta. split; [vm_compute; reflexivity|]. split.
  - unfold SpsaVocabulary.in_bounds. simpl. lia.
  - intros [m Hm]. unfold SpsaOptimize.get_step in Hm. simpl in Hm. lia.
Qed.

(** C6 as stated fails: the value stored for 215 is not 210. *)
Lemma clamp_step_215_is_not_210 :
  SpsaOptimize.clamp_step 215 100 200 10 <> Some 210.
Proof. vm_compute. discriminate. Qed.

(** C6, amended.  Under the domain [{min: 100, max: 200, step: 10}] the
    proposed value 215 is first clamped to the maximum, and the value stored
    is 200. *)
Theorem clamp_step_215_is_200 :
  SpsaOptimize.clamp_step 215 100 200 10 = Some 200.
Proof. vm_compute. reflexivity. Qed.

(** Without the clamp, 215 is a tie between 210 and 220 and [round] takes
    the even multiple. *)
Lemma clamp_step_215_wide_domain :
  SpsaOptimize.clamp_step 215 100 300 10 = Some 220.
Proof. vm_compute. reflexivity. Qed.

(** ** Regression suite *)

Section Regression.

Import RunRegressionChecks RegressionVocabulary.

Lemma first_failure_app a b :
  first_failure (a ++ b) = and_then (first_failure a) (first_failure b).
Proof. destruct a; reflexivity. Qed.

Lemma raise_if_first (c : bool) f :
  raise_if c f = first_failure (if c then [f] else []).
Proof. destruct c; reflexivity. Qed.

Lemma for_each_first {A} (body : A -> failure + unit)
  (viol : A -> list failure) l :
  (forall x, body x = first_failure (viol x)) ->
  for_each body l = first_failure (flat_map viol l).
Proof.
  intros Hbody. induction l as [|x l IH]; [reflexivity|].
  cbn [for_each flat_map]. now rewrite first_failure_app, Hbody, IH.
Qed.

Lemma check_prefix_first scn results p :
  check_prefix scn results p = first_failure (prefix_violations scn results p).
Proof.
  unfold check_prefix, prefix_violations.
  destruct (dict_get p results) as [res|]; [|reflexivity].
  rewrite !first_failure_app. repeat f_equal.
  - destruct (score_cp_min scn); [apply raise_if_first|reflexivity].
  - destruct (score_cp_max scn); [apply raise_if_first|reflexivity].
  - destruct (seldepth_max scn); [apply raise_if_first|reflexivity].
Qed.

Lemma check_guard_first results item :
  check_guard results item = first_failure (guard_violations results item).
Proof.
  destruct item as [number guard].
  unfold check_guard, guard_violations. cbn [fst snd].
  destruct (dict_get number results) as [res|]; [|reflexivity].
  rewrite !first_failure_app. repeat f_equal.
  - destruct (allowed_moves guard) as [[|m ms]|]; try reflexivity.
    rewrite raise_if_first. now destruct (bool_decide _).
  - destruct (min_cp guard); [apply raise_if_first|reflexivity].
  - destruct (max_cp guard); [apply raise_if_first|reflexivity].
Qed.

(** A scenario fails on the first violation. *)
Lemma check_bounds_first scn results :
  _check_bounds scn results = first_failure (violations scn results).
Proof.
  unfold _check_bounds, violations. rewrite first_failure_app. f_equal.
  - apply for_each_first. intros p. apply check_prefix_first.
  - apply for_each_first. intros item. apply check_guard_first.
Qed.

Lemma for_each_app {A} (body : A -> failure + unit) a b :
  for_each body (a ++ b) = and_then (for_each body a) (for_each body b).
Proof.
  induction a as [|x a IH]; [reflexivity|].
  cbn [app for_each]. rewrite IH. now destruct (body x).
Qed.

Lemma for_each_pass {A} (body : A -> failure + unit) l :
  (forall x, In x l -> body x = inr tt) -> for_each body l = inr tt.
Proof.
  induction l as [|x l IH]; intros Hall; [reflexivity|].
  cbn [for_each]. rewrite (Hall x) by now left.
  cbn [and_then]. apply IH. intros y Hy. apply Hall. now right.
Qed.

Lemma for_each_fails {A} (body : A -> failure + unit) l x f :
  In x l -> body x = inl f -> exists f', for_each body l = inl f'.
Proof.
  induction l as [|y l IH]; intros Hin Hx; [contradiction|].
  cbn [for_each]. destruct Hin as [->|Hin].
  - rewrite Hx. now exists f.
  - destruct (body y) as [g|[]]; [now exists g|]. cbn [and_then]. now apply IH.
Qed.

(** A declared prefix that the results lack makes the scenario fail. *)
Lemma missing_prefix_fails scn results p :
  In p (prefixes scn) -> dict_get p results = None ->
  exists f, _check_bounds scn results = inl f.
Proof.
  intros Hin Hnone. unfold _check_bounds.
  destruct (for_each_fails (check_prefix scn results) (prefixes scn) p
              (PrefixMissing p) Hin) as [f Hf].
  - unfold check_prefix. now rewrite Hnone.
  - exists f. now rewrite Hf.
Qed.

(** The failure names the missing prefix when the prefixes before it
    pass. *)
Lemma missing_prefix_named scn results before p after :
  prefixes scn = before ++ p :: after ->
  dict_get p results = None ->
  (forall q, In q before -> check_prefix scn results q = inr tt) ->
  _check_bounds scn results = inl (PrefixMissing p).
Proof.
  intros Hpre Hnone Hbefore. unfold _check_bounds.
  rewrite Hpre, for_each_app, (for_each_pass _ before Hbefore).
  cbn [and_then for_each]. unfold check_prefix at 1. now rewrite Hnone.
Qed.

Section Suite.

Variable RE_BESTMOVE : str -> option (Z * str).
Variable RE_INFO : str -> option (Z * Z * Z * Z).
Variable _run_replay : Scenario -> failure + list str.

Local Abbreviation parse_line :=
  (RunRegressionChecks.parse_line RE_BESTMOVE RE_INFO).
Local Abbreviation _parse_summary :=
  (RunRegressionChecks._parse_summary RE_BESTMOVE RE_INFO).
Local Abbreviation run_scenario :=
  (RunRegressionChecks.run_scenario RE_BESTMOVE RE_INFO _run_replay).
Local Abbreviation run :=
  (RunRegressionChecks.run RE_BESTMOVE RE_INFO _run_replay).
Local Abbreviation omits := (RegressionVocabulary.omits RE_BESTMOVE RE_INFO).
Local Abbreviation mentions :=
  (RegressionVocabulary.mentions RE_BESTMOVE RE_INFO).

Lemma dict_get_set_other {V} (k k' : Z) (v : V) d :
  k' <> k -> dict_get k (dict_set k' v d) = dict_get k d.
Proof.
  intros Hne. induction d as [|[k0 v0] d IH]; cbn.
  - destruct (Z.eqb_spec k' k); [contradiction|reflexivity].
  - destruct (Z.eqb_spec k0 k') as [->|Hk]; cbn.
    + destruct (Z.eqb_spec k' k); [contradiction|reflexivity].
    + destruct (Z.eqb_spec k0 k); [reflexivity|exact IH].
Qed.

Lemma parse_line_other p results line :
  mentions p line = false ->
  dict_get p (parse_line results line) = dict_get p results.
Proof.
  unfold RunRegressionChecks.parse_line, RegressionVocabulary.mentions.
  destruct (negb (truthy (strip line)) || _); [reflexivity|].
  destruct (RE_BESTMOVE (strip line)) as [[num best]|].
  - intros Hne. apply Z.eqb_neq in Hne.
    destruct (dict_get num results); now apply dict_get_set_other.
  - destruct (RE_INFO (strip line)) as [[[[num d] sd] sc]|]; [|reflexivity].
    intros Hne. apply Z.eqb_neq in Hne. now apply dict_get_set_other.
Qed.

Lemma omitted_not_parsed p summary : forall results,
  omits p summary = true ->
  dict_get p (fold_left parse_line summary results) = dict_get p results.
Proof.
  induction summary as [|line summary IH]; intros results Hom; [reflexivity|].
  cbn [RegressionVocabulary.omits forallb] in Hom.
  apply andb_true_iff in Hom as [Hline Hrest].
  apply negb_true_iff in Hline.
  cbn [fold_left]. rewrite (IH _ Hrest). now apply parse_line_other.
Qed.

(** A scenario whose summary omits a declared prefix fails, whatever else
    happens. *)
Lemma omitted_prefix_fails scn p :
  In p (prefixes scn) ->
  (forall summary, _run_replay scn = inr summary -> omits p summary = true) ->
  exists f, run_scenario scn = inl f.
Proof.
  intros Hin Hom. unfold RunRegressionChecks.run_scenario.
  destruct (_run_replay scn) as [f|summary]; [now exists f|].
  specialize (Hom summary eq_refl).
  destruct (_parse_summary summary) as [f|results] eqn:Hparse; [now exists f|].
  assert (Hnone : dict_get p results = None).
  { unfold RunRegressionChecks._parse_summary in Hparse.
    destruct (map fst _); [|discriminate]. injection Hparse as <-.
    now rewrite (omitted_not_parsed p summary [] Hom). }
  destruct (missing_prefix_fails scn results p Hin Hnone) as [f ->].
  now exists f.
Qed.

Lemma run_failures scenarios : forall failures,
  fold_left
    (fun failures scn =>
       match run_scenario scn with
       | inl f => failures ++ [(name scn, f)]
       | inr _ => failures
       end)
    scenarios failures
  = failures ++ failed_scenarios run_scenario scenarios.
Proof.
  induction scenarios as [|scn scenarios IH]; intros failures; cbn.
  - now rewrite app_nil_r.
  - rewrite IH. destruct (run_scenario scn); [now rewrite <- app_assoc|].
    reflexivity.
Qed.

Lemma failed_scenarios_nil scenarios :
  failed_scenarios run_scenario scenarios = [] <->
  forall scn, In scn scenarios -> exists n, run_scenario scn = inr n.
Proof.
  unfold failed_scenarios. induction scenarios as [|scn scenarios IH]; cbn.
  - split; [intros _ ? []|reflexivity].
  - destruct (run_scenario scn) as [f|n] eqn:Hs; cbn.
    + split; [discriminate|]. intros Hall.
      destruct (Hall scn (or_introl eq_refl)) as [n Hn]. congruence.
    + rewrite IH. split.
      * intros Hall s [<-|Hin]; [now exists n|now apply Hall].
      * intros Hall s Hin. apply Hall. now right.
Qed.

(** C9, amended.  (1) A scenario whose replay summary omits a declared
    prefix fails.  (2) When the results lack a declared prefix and every
    declared prefix before it passes the global bounds, the reason names
    that prefix.  (3) The reason of a failing check is the first violation
    in the order of the checks, and there is no failure without a
    violation.  (4) [run] goes through all scenarios: its list of failures
    holds, in order, one entry for each scenario that fails, and its exit
    status is 1 when that list is not empty and 0 when every scenario
    passes. *)
Theorem regression_suite_failures
  (scenarios : list Scenario) (scn : Scenario) (results : dict PrefixResult)
  (before after : list Z) (p : Z) :
  (In p (prefixes scn) ->
   (forall summary, _run_replay scn = inr summary -> omits p summary = true) ->
   exists f, run_scenario scn = inl f)
  /\ (prefixes scn = before ++ p :: after ->
      dict_get p results = None ->
      (forall q, In q before -> check_prefix scn results q = inr tt) ->
      _check_bounds scn results = inl (PrefixMissing p))
  /\ _check_bounds scn results = first_failure (violations scn results)
  /\ fst (run scenarios) = failed_scenarios run_scenario scenarios
  /\ (snd (run scenarios) = 1 <->
      exists s f, In s scenarios /\ run_scenario s = inl f)
  /\ (snd (run scenarios) = 0 <->
      forall s, In s scenarios -> exists n, run_scenario s = inr n).
Proof.
  split; [apply omitted_prefix_fails|].
  split; [apply missing_prefix_named|].
  split; [apply check_bounds_first|].
  unfold RunRegressionChecks.run. rewrite run_failures. cbn [app fst snd].
  split; [reflexivity|].
  pose proof (failed_scenarios_nil scenarios) as Hnil.
  destruct (failed_scenarios run_scenario scenarios) as [|e l] eqn:Hf.
  - split; split.
    + discriminate.
    + intros (s & f & Hin & Hs).
      destruct (proj1 Hnil eq_refl s Hin) as [n Hn]. congruence.
    + intros _. now apply Hnil.
    + reflexivity.
  - split; split.
    + intros _. unfold failed_scenarios in Hf.
      assert (Hin : In e (e :: l)) by now left.
      rewrite <- Hf in Hin. apply in_flat_map in Hin as (s & Hs & He).
      exists s. destruct (run_scenario s) as [f|]; [|contradiction].
      now exists f.
    + reflexivity.
    + discriminate.
    + intros Hall. apply Hnil in Hall. discriminate.
Qed.

End Suite.

End Regression.

Lemma regression_suite_failures_witness :
  (exists f,
     RunRegressionChecks.run_scenario RegressionExample.RE_BESTMOVE
       RegressionExample.RE_INFO RegressionExample._run_replay
       (RegressionExample.scenario (-300)) = inl f)
  /\ RunRegressionChecks._check_bounds (RegressionExample.scenario (-300))
       RegressionExample.results
     = inl (RunRegressionChecks.PrefixMissing 20).
Proof.
  pose proof
    (regression_suite_failures RegressionExample.RE_BESTMOVE
       RegressionExample.RE_INFO RegressionExample._run_replay
       [RegressionExample.scenario (-300)]
       (RegressionExample.scenario (-300)) RegressionExample.results
       [10] [] 20) as (Hfails & Hnamed & _).
  split.
  - apply Hfails.
    + right. left. reflexivity.
    + intros summary Hs. injection Hs as <-. vm_compute. reflexivity.
  - apply Hnamed.
    + reflexivity.
    + reflexivity.
    + intros q [<-|[]]. vm_compute. reflexivity.
Defined.

(** C9 as stated fails: the summary omits the declared prefix 20, and the
    scenario fails with the reason of the earlier violation at prefix 10,
    which does not name prefix 20. *)
Lemma omitted_prefix_not_named :
  In 20 (RunRegressionChecks.prefixes (RegressionExample.scenario (-100)))
  /\ RegressionVocabulary.omits RegressionExample.RE_BESTMOVE
       RegressionExample.RE_INFO 20
       [RegressionExample.bestmove_line; RegressionExample.info_line] = true
  /\ RunRegressionChecks.run_scenario RegressionExample.RE_BESTMOVE
       RegressionExample.RE_INFO RegressionExample._run_replay
       (RegressionExample.scenario (-100))
     = inl (RunRegressionChecks.ScoreBelowMin 10 (-250) (-100))
  /\ RunRegressionChecks.run_scenario RegressionExample.RE_BESTMOVE
       RegressionExample.RE_INFO RegressionExample._run_replay
       (RegressionExample.scenario (-100))
     <> inl (RunRegressionChecks.PrefixMissing 20).
Proof.
  split; [right; left; reflexivity|].
  split; [vm_compute; reflexivity|].
  split; [vm_compute; reflexivity|].
  vm_compute. discriminate.
Qed.

(** The fifth concrete scenario of the specification. *)
Example check_bounds_scenario :
  RunRegressionChecks._check_bounds (RegressionExample.scenario (-100))
    RegressionExample.results
  = inl (RunRegressionChecks.ScoreBelowMin 10 (-250) (-100)).
Proof. reflexivity. Qed.

(** ** Target generation *)

Section Targets.

Import MakeTargetsFromLogs TargetsVocabulary.

Lemma fold_left_flat_map {S A B} (f : S -> A -> S) (g : S -> B -> S)
  (h : A -> list B) (l : list A) :
  (forall s x, f s x = fold_left g (h x) s) ->
  forall s, fold_left f l s = fold_left g (flat_map h l) s.
Proof.
  intros Hf. induction l as [|x l IH]; intros s; [reflexivity|].
  cbn [fold_left flat_map]. now rewrite fold_left_app, <- Hf, IH.
Qed.

Lemma emit_back_proposed base stem ply delta b st k :
  emit_back base stem ply delta b st k =
    fold_left emit (proposed_back base stem ply delta b k) st.
Proof.
  unfold emit_back, proposed_back. destruct st as [uniq targets].
  destruct (chop_moves (pos_after b) k) as [[|c pos]|]; reflexivity.
Qed.

Lemma emit_spike_proposed a base stem best st spike :
  emit_spike a base stem best st spike =
    fold_left emit (proposed_spike a base stem best spike) st.
Proof.
  unfold emit_spike, proposed_spike. destruct spike as [ply delta].
  cbn [fst snd]. destruct ((ply <? 1) || _); [reflexivity|].
  destruct (nth_error best _) as [b|]; [|reflexivity].
  apply fold_left_flat_map. intros s k. apply emit_back_proposed.
Qed.

Lemma process_log_proposed a st f :
  process_log a st f = fold_left emit (proposed_log a f) st.
Proof.
  destruct f as [|base stem [|b best] evals]; try reflexivity.
  cbn [process_log proposed_log].
  apply fold_left_flat_map. intros s spike. apply emit_spike_proposed.
Qed.

Lemma main_proposed a logs :
  main a logs = snd (fold_left emit (proposed a logs) (∅, [])).
Proof.
  unfold main, proposed. f_equal.
  apply fold_left_flat_map. intros s f. apply process_log_proposed.
Qed.

Lemma find_in_app {A} (f : A -> bool) l1 l2 :
  find f (l1 ++ l2) =
    match find f l1 with
    | Some x => Some x
    | None => find f l2
    end.
Proof.
  induction l1 as [|x l1 IH]; [reflexivity|].
  cbn [app find]. now destruct (f x).
Qed.

Lemma find_at_position_in p l t :
  In t l -> pre_position t = p ->
  exists t', find (at_position p) l = Some t'.
Proof.
  induction l as [|x l IH]; intros Hin Hp; [contradiction|]. cbn [find].
  destruct (at_position p x) eqn:Hx; [now exists x|].
  destruct Hin as [->|Hin]; [|now apply IH].
  unfold at_position in Hx. apply bool_decide_eq_false in Hx. contradiction.
Qed.

(** The loop over the proposed targets keeps, for every position, the first
    target proposed there. *)
Lemma emit_keeps_first cands : forall uniq targets,
  (forall p, p ∈ uniq <-> In p (map pre_position targets)) ->
  List.NoDup (map pre_position targets) ->
  let out := snd (fold_left emit cands (uniq, targets)) in
  List.NoDup (map pre_position out)
  /\ incl out (targets ++ cands)
  /\ forall p, find (at_position p) out = find (at_position p) (targets ++ cands).
Proof.
  induction cands as [|t cands IH]; intros uniq targets Huniq Hnd out.
  - subst out. cbn [fold_left snd]. rewrite app_nil_r.
    split; [exact Hnd|]. split; [apply incl_refl|reflexivity].
  - subst out. cbn [fold_left].
    change (emit (uniq, targets) t)
      with (if bool_decide (pre_position t ∈ uniq) then (uniq, targets)
            else ({[pre_position t]} ∪ uniq, targets ++ [t])).
    destruct (bool_decide (pre_position t ∈ uniq)) eqn:Hseen.
    + apply bool_decide_eq_true in Hseen.
      destruct (IH uniq targets Huniq Hnd) as (H1 & H2 & H3).
      split; [exact H1|]. split.
      * intros x Hx. apply H2 in Hx. apply in_app_or in Hx as [Hx|Hx];
          apply in_or_app; [now left|right; now right].
      * intros p. rewrite H3, !find_in_app.
        destruct (find (at_position p) targets) eqn:Hf; [reflexivity|].
        cbn [find]. destruct (at_position p t) eqn:Hp; [|reflexivity].
        unfold at_position in Hp. apply bool_decide_eq_true in Hp.
        apply Huniq, in_map_iff in Hseen as (t0 & Ht0 & Hin0).
        destruct (find_at_position_in p targets t0 Hin0) as [t' Ht'];
          congruence.
    + apply bool_decide_eq_false in Hseen.
      destruct (IH ({[pre_position t]} ∪ uniq) (targets ++ [t])) as (H1 & H2 & H3).
      * intros p. rewrite map_app, in_app_iff, elem_of_union,
          elem_of_singleton, Huniq. cbn.
        intuition congruence.
      * rewrite map_app. cbn [map]. apply List.NoDup_app.
        { exact Hnd. }
        { repeat constructor. intros []. }
        { intros x Hx [<-|[]]. apply Hseen, Huniq. exact Hx. }
      * rewrite <- app_assoc in H2, H3. cbn [app] in H2, H3.
        split; [exact H1|]. split; [exact H2|exact H3].
Qed.

Lemma logs_main_keeps_first a logs :
  let out := main a logs in
  List.NoDup (map pre_position out)
  /\ incl out (proposed a logs)
  /\ forall p, find (at_position p) out = find (at_position p) (proposed a logs).
Proof.
  cbv zeta. rewrite main_proposed.
  apply (emit_keeps_first (proposed a logs) ∅ []).
  - intros p. cbn. rewrite elem_of_empty. tauto.
  - constructor.
Qed.

Lemma expand_inner t ks : forall out,
  fold_left (fun out k => out ++ [ExpandTargetsBack.expand_one t k]) ks out
  = out ++ map (ExpandTargetsBack.expand_one t) ks.
Proof.
  induction ks as [|k ks IH]; intros out; cbn.
  - now rewrite app_nil_r.
  - now rewrite IH, <- app_assoc.
Qed.

Lemma expand_main_all base mn mx :
  ExpandTargetsBack.main base mn mx =
    flat_map
      (fun t => map (ExpandTargetsBack.expand_one t) (range mn (mx + 1)))
      base.
Proof.
  unfold ExpandTargetsBack.main.
  assert (H : forall out,
    fold_left
      (fun out t =>
         fold_left (fun out k => out ++ [ExpandTargetsBack.expand_one t k])
           (range mn (mx + 1)) out) base out
    = out ++ flat_map
               (fun t => map (ExpandTargetsBack.expand_one t) (range mn (mx + 1)))
               base).
  { induction base as [|t base IH]; intros out; cbn.
    - now rewrite app_nil_r.
    - now rewrite IH, expand_inner, <- app_assoc. }
  apply (H []).
Qed.

(** C2, amended.  In a batch of make_targets_from_logs.py no two emitted
    targets have the same position string: every emitted target is one of
    the proposed ones, and for every position the batch holds the first
    target proposed at that position, and none when no (spike, rewind depth)
    pair proposes it.  expand_targets_back.py has no such test: its batch
    holds one target for every pair of an input target and a rewind
    depth. *)
Theorem targets_deduplicated_in_logs_batch
  (a : args) (logs : list log_file)
  (base : list ExpandTargetsBack.base_target) (arg_min arg_max : Z) :
  let out := main a logs in
  List.NoDup (map pre_position out)
  /\ incl out (proposed a logs)
  /\ (forall p,
        find (at_position p) out = find (at_position p) (proposed a logs))
  /\ ExpandTargetsBack.main base arg_min arg_max =
       flat_map
         (fun t =>
            map (ExpandTargetsBack.expand_one t) (range arg_min (arg_max + 1)))
         base.
Proof.
  intros out. destruct (logs_main_keeps_first a logs) as (H1 & H2 & H3).
  split; [exact H1|]. split; [exact H2|]. split; [exact H3|].
  apply expand_main_all.
Qed.

End Targets.

(** C2 as stated fails for expand_targets_back.py: the input target at
    ["startpos"] with the rewind depths 2 and 3 gives two targets at the same
    position. *)
Lemma expand_batch_repeats_position :
  map ExpandTargetsBack.pre_position
    (ExpandTargetsBack.main
       [ {| ExpandTargetsBack.bt_tag := lit "g_ply3_back4";
            ExpandTargetsBack.bt_pre_position := Some (lit "startpos");
            ExpandTargetsBack.bt_pos_after := None |} ] 2 3)
  = [Some (lit "startpos"); Some (lit "startpos")]
  /\ ~ List.NoDup
         (map ExpandTargetsBack.pre_position
            (ExpandTargetsBack.main
               [ {| ExpandTargetsBack.bt_tag := lit "g_ply3_back4";
                    ExpandTargetsBack.bt_pre_position := Some (lit "startpos");
                    ExpandTargetsBack.bt_pos_after := None |} ] 2 3)).
Proof.
  assert (H : map ExpandTargetsBack.pre_position
    (ExpandTargetsBack.main
       [ {| ExpandTargetsBack.bt_tag := lit "g_ply3_back4";
            ExpandTargetsBack.bt_pre_position := Some (lit "startpos");
            ExpandTargetsBack.bt_pos_after := None |} ] 2 3)
    = [Some (lit "startpos"); Some (lit "startpos")])
    by (vm_compute; reflexivity).
  split; [exact H|]. rewrite H. intros Hnd.
  inversion Hnd as [|? ? Hnot _]. apply Hnot. now left.
Qed.

(** The third concrete scenario of the specification: two spikes of one log
    whose rewinds give the same positions; each position is emitted once,
    tagged from the spike processed first. *)
Example logs_batch_scenario :
  let b := fun i pos =>
    {| MakeTargetsFromLogs.idx := i;
       MakeTargetsFromLogs.bestmove := lit "3a2b";
       MakeTargetsFromLogs.pos_after := Some (lit pos);
       MakeTargetsFromLogs.last_cp := None;
       MakeTargetsFromLogs.last_depth := -1 |} in
  map (fun t => (MakeTargetsFromLogs.tag t, MakeTargetsFromLogs.pre_position t))
    (MakeTargetsFromLogs.main
       {| MakeTargetsFromLogs.threshold := 300; MakeTargetsFromLogs.topk := 10;
          MakeTargetsFromLogs.back_min := 2; MakeTargetsFromLogs.back_max := 3 |}
       [ MakeTargetsFromLogs.Parsed (lit "game.md") (lit "game")
           [ b 1 "startpos moves 7g7f";
             b 2 "startpos moves 7g7f 3c3d 8h2b";
             b 3 "startpos moves 7g7f 3c3d 8h2b 3a2b" ]
           [50; -400; 100] ])
  = [ (lit "game_ply2_back2", lit "startpos moves 7g7f");
      (lit "game_ply2_back3", lit "startpos");
      (lit "game_ply3_back2", lit "startpos moves 7g7f 3c3d") ].
Proof. vm_compute. reflexivity. Qed.

(** ** Rewinding a position *)

Section ChopMoves.

Import PositionVocabulary.

Local Abbreviation sep6 := (lit " moves").
Local Abbreviation sep7 := (lit " moves ").

Lemma partition_cons sep c s :
  partition sep (c :: s) =
    if startswith sep (c :: s) then Some ([], skipn (length sep) (c :: s))
    else match partition sep s with
         | Some (a, b) => Some (c :: a, b)
         | None => None
         end.
Proof. reflexivity. Qed.

Lemma contains_cons sep c s :
  contains sep (c :: s) = false ->
  startswith sep (c :: s) = false /\ contains sep s = false.
Proof.
  unfold contains. rewrite partition_cons.
  destruct (startswith sep (c :: s)); [discriminate|].
  destruct (partition sep s) as [[a b]|]; [discriminate|]. now split.
Qed.

Lemma startswith_app_l p q s :
  startswith (p ++ q) s = true -> startswith p s = true.
Proof.
  revert s. induction p as [|a p IH]; intros s; [reflexivity|].
  destruct s as [|b s]; cbn; [discriminate|].
  intros H. apply andb_true_iff in H as [-> H]. now apply IH.
Qed.

(** A pattern without the character [y] cannot start to match inside [s]
    and end in what follows, when that starts with [y]. *)
Lemma startswith_running_out p y rest : forall s,
  forallb (fun c => negb (Ascii.eqb c y)) p = true ->
  startswith p s = false ->
  startswith p (s ++ y :: rest) = false.
Proof.
  induction p as [|a p IH]; intros s Hp Hs; [discriminate|].
  cbn [forallb] in Hp. apply andb_true_iff in Hp as [Ha Hp].
  destruct s as [|b s]; cbn [app startswith] in *.
  - apply negb_true_iff in Ha. now rewrite Ha.
  - destruct (Ascii.eqb a b); [|reflexivity]. now apply IH.
Qed.

Lemma startswith_cons a p b s :
  startswith (a :: p) (b :: s) = Ascii.eqb a b && startswith p s.
Proof. reflexivity. Qed.

(** No separator starts inside a head that does not contain [" moves"]. *)
Lemma no_separator_inside c h rest :
  startswith sep6 (c :: h) = false ->
  startswith sep7 (c :: h ++ sep7 ++ rest) = false.
Proof.
  intros Hs. destruct (startswith sep7 _) eqn:H7; [|reflexivity].
  change sep7 with (sep6 ++ [" "%char]) in H7 at 1.
  apply startswith_app_l in H7.
  change sep6 with (" "%char :: lit "moves") in Hs, H7.
  rewrite startswith_cons in Hs, H7.
  destruct (Ascii.eqb " " c); [|discriminate].
  cbn [andb] in Hs, H7.
  change (sep7 ++ rest) with (" "%char :: lit "moves " ++ rest) in H7.
  rewrite (startswith_running_out (lit "moves") " "%char _ h) in H7;
    [discriminate|reflexivity|exact Hs].
Qed.

Lemma partition_head h rest :
  contains sep6 h = false ->
  partition sep7 (h ++ sep7 ++ rest) = Some (h, rest).
Proof.
  induction h as [|c h IH]; intros Hh.
  - reflexivity.
  - apply contains_cons in Hh as [Hc Hh].
    cbn [app]. rewrite partition_cons, (no_separator_inside c h rest Hc).
    now rewrite (IH Hh).
Qed.

Lemma partition_none h :
  contains sep6 h = false -> partition sep7 h = None.
Proof.
  induction h as [|c h IH]; intros Hh; [reflexivity|].
  apply contains_cons in Hh as [Hc Hh].
  rewrite partition_cons, (IH Hh).
  destruct (startswith sep7 (c :: h)) eqn:H7; [|reflexivity].
  change sep7 with (sep6 ++ [" "%char]) in H7.
  apply startswith_app_l in H7. congruence.
Qed.

(** The regular expression finds the same head when word characters
    surround the separator. *)
Lemma re_split_head_head h m rest : forall prev,
  contains sep6 h = false ->
  match last_char prev h with Some c => is_word c | None => false end = true ->
  is_word m = true ->
  MakeTargetsFromLogs.re_split_head prev (h ++ sep7 ++ m :: rest) = h.
Proof.
  induction h as [|c h IH]; intros prev Hh Hlast Hm.
  - cbn [last_char fold_left] in Hlast. cbn. rewrite Hm.
    destruct prev as [p|]; [|discriminate]. now rewrite Hlast.
  - apply contains_cons in Hh as [Hc Hh].
    cbn [app MakeTargetsFromLogs.re_split_head].
    rewrite (no_separator_inside c h (m :: rest) Hc).
    rewrite andb_false_r. cbn [andb]. f_equal. now apply IH.
Qed.

(** *** Tokens *)

Lemma token_chars t :
  token t = true ->
  exists c s, t = c :: s /\ is_word c = true
              /\ forallb (fun c => negb (isspace c)) (c :: s) = true.
Proof.
  destruct t as [|c s]; [discriminate|]. unfold token.
  intros H. apply andb_true_iff in H as [Hw Hs]. now exists c, s.
Qed.

Lemma split_scan_word t s :
  forallb (fun c => negb (isspace c)) t = true ->
  split_scan (t ++ s) = (t ++ fst (split_scan s), snd (split_scan s)).
Proof.
  induction t as [|c t IH]; intros Ht.
  - cbn [app]. now destruct (split_scan s).
  - cbn [forallb] in Ht. apply andb_true_iff in Ht as [Hc Ht].
    apply negb_true_iff in Hc. cbn [app split_scan].
    rewrite (IH Ht), Hc. reflexivity.
Qed.

Lemma split_scan_join t ts :
  Forall (fun t => token t = true) (t :: ts) ->
  split_scan (join (lit " ") (t :: ts)) = (t, ts).
Proof.
  revert t. induction ts as [|t2 ts IH]; intros t Hall.
  - inversion Hall as [|? ? Ht _]; subst.
    apply token_chars in Ht as (c & s & -> & _ & Hs).
    cbn [join]. rewrite <- (app_nil_r (c :: s)) at 1.
    rewrite (split_scan_word _ [] Hs). cbn. now rewrite app_nil_r.
  - inversion Hall as [|? ? Ht Hrest]; subst.
    apply token_chars in Ht as (c & s & -> & _ & Hs).
    change (join (lit " ") ((c :: s) :: t2 :: ts))
      with ((c :: s) ++ " "%char :: join (lit " ") (t2 :: ts)).
    rewrite (split_scan_word _ _ Hs). cbn [split_scan].
    rewrite (IH t2 Hrest).
    change (isspace " ") with true. cbn [fst snd]. rewrite app_nil_r.
    inversion Hrest as [|? ? Ht2 _]; subst.
    apply token_chars in Ht2 as (c2 & s2 & -> & _). reflexivity.
Qed.

Lemma split_join ts :
  Forall (fun t => token t = true) ts -> split (join (lit " ") ts) = ts.
Proof.
  destruct ts as [|t ts]; intros Hall; [reflexivity|].
  unfold split. rewrite (split_scan_join t ts Hall).
  inversion Hall as [|? ? Ht _]; subst.
  apply token_chars in Ht as (c & s & -> & _). reflexivity.
Qed.

Lemma filter_truthy_tokens ts :
  Forall (fun t => token t = true) ts -> List.filter truthy ts = ts.
Proof.
  induction 1 as [|t ts Ht _ IH]; [reflexivity|].
  cbn [List.filter]. rewrite IH.
  apply token_chars in Ht as (c & s & -> & _). reflexivity.
Qed.

Lemma lstrip_word s :
  match s with c :: _ => isspace c = false | [] => True end -> lstrip s = s.
Proof. destruct s as [|c s]; [reflexivity|]. cbn. now intros ->. Qed.

Lemma join_first ts :
  Forall (fun t => token t = true) ts ->
  match join (lit " ") ts with
  | c :: _ => isspace c = false
  | [] => True
  end.
Proof.
  destruct ts as [|t ts]; intros Hall; [exact I|].
  inversion Hall as [|? ? Ht _]; subst.
  apply token_chars in Ht as (c & s & -> & _ & Hs).
  cbn [forallb] in Hs. apply andb_true_iff in Hs as [Hc _].
  apply negb_true_iff in Hc. destruct ts; exact Hc.
Qed.

Lemma rev_join_first ts :
  Forall (fun t => token t = true) ts ->
  match rev (join (lit " ") ts) with
  | c :: _ => isspace c = false
  | [] => True
  end.
Proof.
  induction ts as [|t ts IH]; intros Hall; [exact I|].
  inversion Hall as [|? ? Ht Hrest]; subst.
  destruct ts as [|t2 ts].
  - cbn [join]. apply token_chars in Ht as (c & s & -> & _ & Hs).
    destruct (rev (c :: s)) as [|d r] eqn:Hr; [exact I|].
    assert (Hd : In d (c :: s)) by (apply in_rev; rewrite Hr; now left).
    rewrite forallb_forall in Hs. apply Hs in Hd.
    now apply negb_true_iff in Hd.
  - change (join (lit " ") (t :: t2 :: ts))
      with (t ++ lit " " ++ join (lit " ") (t2 :: ts)).
    rewrite !rev_app_distr. specialize (IH Hrest).
    destruct (rev (join (lit " ") (t2 :: ts))) as [|d r] eqn:Hr; [|exact IH].
    exfalso. apply (f_equal (@rev ascii)) in Hr. rewrite rev_involutive in Hr.
    inversion Hrest as [|? ? Ht2 _]; subst.
    apply token_chars in Ht2 as (c2 & s2 & -> & _).
    destruct ts; discriminate.
Qed.

Lemma strip_join ts :
  Forall (fun t => token t = true) ts ->
  strip (join (lit " ") ts) = join (lit " ") ts.
Proof.
  intros Hall. unfold strip, rstrip.
  rewrite (lstrip_word _ (join_first ts Hall)).
  rewrite (lstrip_word _ (rev_join_first ts Hall)).
  apply rev_involutive.
Qed.

Lemma tokens_of_join ts :
  Forall (fun t => token t = true) ts ->
  List.filter truthy (split (strip (join (lit " ") ts))) = ts.
Proof.
  intros Hall. now rewrite strip_join, split_join, filter_truthy_tokens.
Qed.

Lemma position_by_length h ts :
  (if negb (Nat.eqb (length ts) 0)
   then h ++ sep7 ++ join (lit " ") ts else h) = position h ts.
Proof. destruct ts; reflexivity. Qed.

Lemma head_ok_parts h :
  head_ok h = true ->
  contains sep6 h = false
  /\ match last_char None h with Some c => is_word c | None => false end = true
  /\ exists c s, h = c :: s.
Proof.
  unfold head_ok. intros H. apply andb_true_iff in H as [Hc Hl].
  apply negb_true_iff in Hc. split; [exact Hc|]. split; [exact Hl|].
  destruct h as [|c s]; [discriminate|]. now exists c, s.
Qed.

(** The rewind of make_targets_from_logs.py keeps the head and the first
    [N - k] tokens, and the bare head when [k > N]. *)
Lemma logs_chop_moves_position h ts k :
  head_ok h = true ->
  Forall (fun t => token t = true) ts ->
  0 <= k ->
  MakeTargetsFromLogs.chop_moves (Some (position h ts)) k
  = Some (position h (kept ts k)).
Proof.
  intros Hh Hts Hk.
  destruct (head_ok_parts h Hh) as (Hc & Hl & c & s & ->).
  unfold MakeTargetsFromLogs.chop_moves, kept.
  destruct ts as [|t ts].
  - cbn [position]. rewrite (partition_none _ Hc). now rewrite firstn_nil.
  - set (toks := t :: ts) in *.
    change (position (c :: s) toks)
      with ((c :: s) ++ sep7 ++ join (lit " ") toks).
    cbn [app]. change (c :: s ++ sep7 ++ join (lit " ") toks)
      with ((c :: s) ++ sep7 ++ join (lit " ") toks).
    rewrite (partition_head _ _ Hc).
    destruct (Z.leb_spec k 0) as [Hk0|Hk0].
    + f_equal. change ((c :: s) ++ sep7 ++ join (lit " ") toks)
        with (position (c :: s) toks).
      f_equal. symmetry. apply firstn_all2. lia.
    + rewrite (tokens_of_join toks Hts).
      assert (Hhead : MakeTargetsFromLogs.re_split_head None
                ((c :: s) ++ sep7 ++ join (lit " ") toks) = c :: s).
      { inversion Hts as [|? ? Ht _]; subst.
        apply token_chars in Ht as (m & r & Hm & Hw & _).
        subst toks. rewrite Hm.
        destruct ts as [|t2 ts].
        - cbn [join]. now apply re_split_head_head.
        - change (join (lit " ") ((m :: r) :: t2 :: ts))
            with (m :: r ++ lit " " ++ join (lit " ") (t2 :: ts)).
          now apply re_split_head_head. }
      rewrite Hhead.
      destruct (Z.geb_spec (Z.of_nat (length toks)) k) as [Hle|Hgt].
      * unfold slice_to. replace (- k <? 0) with true
          by (symmetry; apply Z.ltb_lt; lia).
        rewrite position_by_length. reflexivity.
      * cbn [length Nat.eqb negb]. f_equal.
        replace (Z.to_nat (Z.of_nat (length toks) - k)) with O by lia.
        reflexivity.
Qed.

(** The rewind of expand_targets_back.py does the same as long as
    [k <= N]. *)
Lemma expand_chop_moves_within h ts k :
  head_ok h = true ->
  Forall (fun t => token t = true) ts ->
  0 <= k <= Z.of_nat (length ts) ->
  ExpandTargetsBack.chop_moves (Some (position h ts)) k
  = Some (position h (kept ts k)).
Proof.
  intros Hh Hts Hk.
  destruct (head_ok_parts h Hh) as (Hc & _ & c & s & ->).
  unfold ExpandTargetsBack.chop_moves, kept.
  destruct ts as [|t ts].
  - cbn [position]. rewrite (partition_none _ Hc). now rewrite firstn_nil.
  - set (toks := t :: ts) in *.
    change (position (c :: s) toks)
      with ((c :: s) ++ sep7 ++ join (lit " ") toks).
    cbn [app]. change (c :: s ++ sep7 ++ join (lit " ") toks)
      with ((c :: s) ++ sep7 ++ join (lit " ") toks).
    rewrite (partition_head _ _ Hc), (tokens_of_join toks Hts).
    replace (Z.of_nat (length toks) >=? k) with true
      by (symmetry; apply Z.geb_le; lia).
    rewrite andb_true_r.
    destruct (Z.gtb_spec k 0) as [Hpos|Hzero].
    + unfold slice_to. replace (- k <? 0) with true
        by (symmetry; apply Z.ltb_lt; lia).
      rewrite position_by_length. reflexivity.
    + rewrite position_by_length. do 2 f_equal.
      symmetry. apply firstn_all2. lia.
Qed.

(** Beyond the number of tokens it returns the position unchanged. *)
Lemma expand_chop_moves_beyond h ts k :
  head_ok h = true ->
  Forall (fun t => token t = true) ts ->
  Z.of_nat (length ts) < k ->
  ExpandTargetsBack.chop_moves (Some (position h ts)) k
  = Some (position h ts).
Proof.
  intros Hh Hts Hk.
  destruct (head_ok_parts h Hh) as (Hc & _ & c & s & ->).
  unfold ExpandTargetsBack.chop_moves.
  destruct ts as [|t ts].
  - cbn [position]. now rewrite (partition_none _ Hc).
  - set (toks := t :: ts) in *.
    change (position (c :: s) toks)
      with ((c :: s) ++ sep7 ++ join (lit " ") toks).
    cbn [app]. change (c :: s ++ sep7 ++ join (lit " ") toks)
      with ((c :: s) ++ sep7 ++ join (lit " ") toks).
    rewrite (partition_head _ _ Hc), (tokens_of_join toks Hts).
    replace (Z.of_nat (length toks) >=? k) with false
      by (symmetry; rewrite Z.geb_leb; apply Z.leb_gt; lia).
    rewrite andb_false_r. reflexivity.
Qed.

End ChopMoves.

(** The first concrete scenario of the specification, for both copies. *)
Example chop_moves_scenario :
  ExpandTargetsBack.chop_moves
    (Some (lit "startpos moves 7g7f 3c3d 8h2b 3a2b")) 2
  = Some (lit "startpos moves 7g7f 3c3d")
  /\ MakeTargetsFromLogs.chop_moves
       (Some (lit "startpos moves 7g7f 3c3d 8h2b 3a2b")) 2
     = Some (lit "startpos moves 7g7f 3c3d").
Proof. split; vm_compute; reflexivity. Qed.

(** The general statements at a concrete position. *)
Example chop_moves_sfen_head :
  let h := lit "sfen lnsgkgsnl/1r5b1/ppppppppp/9/9/9/PPPPPPPPP/1B5R1/LNSGKGSNL b - 1" in
  let ts := [lit "7g7f"; lit "3c3d"; lit "P*5e"] in
  MakeTargetsFromLogs.chop_moves (Some (PositionVocabulary.position h ts)) 2
  = Some (PositionVocabulary.position h [lit "7g7f"])
  /\ MakeTargetsFromLogs.chop_moves (Some (PositionVocabulary.position h ts)) 4
     = Some h
  /\ ExpandTargetsBack.chop_moves (Some (PositionVocabulary.position h ts)) 3
     = Some h
  /\ ExpandTargetsBack.chop_moves (Some (PositionVocabulary.position h ts)) 4
     = Some (PositionVocabulary.position h ts).
Proof.
  intros h ts.
  assert (Hts : Forall (fun t => PositionVocabulary.token t = true) ts)
    by (repeat constructor).
  split; [|split; [|split]].
  - exact (logs_chop_moves_position h ts 2 eq_refl Hts ltac:(lia)).
  - exact (logs_chop_moves_position h ts 4 eq_refl Hts ltac:(lia)).
  - exact (expand_chop_moves_within h ts 3 eq_refl Hts ltac:(simpl; lia)).
  - exact (expand_chop_moves_beyond h ts 4 eq_refl Hts ltac:(simpl; lia)).
Qed.

(** The pattern [\\b moves \\b] of make_targets_from_logs.py does not match
    after a head that ends with a character outside [\\w]; the whole
    position is then taken for the head. *)
Example logs_chop_moves_head_without_counter :
  MakeTargetsFromLogs.chop_moves (Some (lit "sfen 9/9/9 b - moves 7g7f 3c3d")) 1
  = Some (lit "sfen 9/9/9 b - moves 7g7f 3c3d moves 7g7f").
Proof. vm_compute. reflexivity. Qed.

(** C1.  The claim fails for [chop_moves] of expand_targets_back.py: for the
    position ["startpos moves 7g7f"], which has one move token, and the
    rewind depth 2 it returns the position with its move token, not the bare
    head ["startpos"] that the claim requires for [k > N] and that
    [chop_moves] of make_targets_from_logs.py returns. *)
Theorem expand_chop_moves_keeps_moves_beyond_count :
  ExpandTargetsBack.chop_moves (Some (lit "startpos moves 7g7f")) 2
  = Some (lit "startpos moves 7g7f")
  /\ ExpandTargetsBack.chop_moves (Some (lit "startpos moves 7g7f")) 2
     <> Some (lit "startpos")
  /\ MakeTargetsFromLogs.chop_moves (Some (lit "startpos moves 7g7f")) 2
     = Some (lit "startpos").
Proof.
  split; [vm_compute; reflexivity|].
  split; [vm_compute; discriminate|vm_compute; reflexivity].
Qed.

(** * Further properties *)

(** ** Context windows around spikes *)

Section Windows.

Import ExtractEvalSpikes.

Lemma add_range_elem (l : list Z) : forall (w : gset Z) k,
  k ∈ fold_left (fun wanted k => {[ k ]} ∪ wanted) l w <-> k ∈ w \/ In k l.
Proof.
  induction l as [|x l IH]; intros w k; cbn [fold_left In].
  - tauto.
  - rewrite IH, elem_of_union, elem_of_singleton. intuition congruence.
Qed.

Lemma window_step_elem back forward nmax w idx k :
  k ∈ window_step back forward nmax w idx <->
  k ∈ w \/ Z.max 1 (idx - back) <= k <= Z.min nmax (idx + forward).
Proof.
  unfold window_step. rewrite add_range_elem, in_range_iff.
  split; (intros [H|H]; [now left|right; lia]).
Qed.

Lemma windows_elem back forward nmax indices : forall (w : gset Z) k,
  k ∈ fold_left (window_step back forward nmax) indices w <->
  k ∈ w \/ exists idx, In idx indices
             /\ Z.max 1 (idx - back) <= k <= Z.min nmax (idx + forward).
Proof.
  induction indices as [|i indices IH]; intros w k; cbn [fold_left].
  - split; [now left|]. intros [H|(idx & [] & _)]. exact H.
  - rewrite IH, window_step_elem. split.
    + intros [[H|H]|(idx & Hin & H)].
      * now left.
      * right. exists i. split; [now left|exact H].
      * right. exists idx. split; [now right|exact H].
    + intros [H|(idx & [<-|Hin] & H)].
      * left. now left.
      * left. now right.
      * right. now exists idx.
Qed.

Lemma sorted_set_elem (s : gset Z) k : In k (sorted_set s) <-> k ∈ s.
Proof.
  unfold sorted_set. rewrite <- list_elem_of_In, merge_sort_Permutation.
  apply elem_of_elements.
Qed.

Lemma sorted_set_increasing (s : gset Z) : StronglySorted Z.lt (sorted_set s).
Proof.
  unfold sorted_set.
  assert (Hnd : NoDup (merge_sort Z.le (elements s))).
  { rewrite merge_sort_Permutation. apply NoDup_elements. }
  assert (Hle : StronglySorted Z.le (merge_sort Z.le (elements s)))
    by apply (StronglySorted_merge_sort Z.le).
  induction Hle as [|x l Hl IH Hx]; [constructor|].
  apply NoDup_cons in Hnd as [Hnot Hnd]. constructor; [now apply IH|].
  rewrite List.Forall_forall in *. intros y Hy.
  specialize (Hx y Hy). assert (x <> y).
  { intros ->. apply Hnot, list_elem_of_In, Hy. }
  lia.
Qed.

(** X1.  [expand_windows] returns, in strictly increasing order, exactly the
    ply numbers [k] that lie in the window of some index:
    [max(1, idx - back) <= k <= min(nmax, idx + forward)]; so every number
    returned is between 1 and [nmax], and none is returned twice. *)
Theorem expand_windows_sorted_clipped (indices : list Z)
  (back forward nmax : Z) :
  let out := expand_windows indices back forward nmax in
  StronglySorted Z.lt out
  /\ (forall k, In k out <->
        exists idx, In idx indices
          /\ Z.max 1 (idx - back) <= k <= Z.min nmax (idx + forward))
  /\ (forall k, In k out -> 1 <= k <= nmax).
Proof.
  intros out.
  assert (Hin : forall k, In k out <->
        exists idx, In idx indices
          /\ Z.max 1 (idx - back) <= k <= Z.min nmax (idx + forward)).
  { intros k. subst out. unfold expand_windows.
    rewrite sorted_set_elem, windows_elem. split.
    - intros [H|H]; [|exact H]. now apply elem_of_empty in H.
    - intros H. now right. }
  split; [apply sorted_set_increasing|]. split; [exact Hin|].
  intros k Hk. apply Hin in Hk as (idx & _ & H). lia.
Qed.

End Windows.

(** ** Reading engine output *)

Section ReadUntil.

Import RunEvalTargets StreamVocabulary.

Local Abbreviation nl := ("010"%char).

Lemma split_char_lines s :
  map (fun l => l ++ [nl]) (removelast (split_char nl s)) = fst (lines_of s)
  /\ List.last (split_char nl s) [] = snd (lines_of s)
  /\ split_char nl s <> [].
Proof.
  induction s as [|c s (IH1 & IH2 & IH3)]; [repeat split; discriminate|].
  cbn [split_char lines_of]. destruct (lines_of s) as [ls rest].
  cbn [fst snd] in *. destruct (Ascii.eqb c nl) eqn:Hc.
  - apply Ascii.eqb_eq in Hc. subst c.
    destruct (split_char nl s) as [|p ps] eqn:Hs; [contradiction|].
    cbn [removelast map fst snd app] in *. rewrite IH1.
    repeat split; [exact IH2|discriminate].
  - destruct (split_char nl s) as [|p ps] eqn:Hs; [contradiction|].
    destruct ps as [|q ps].
    + cbn in IH1, IH2 |- *. subst ls rest. repeat split. discriminate.
    + cbn [removelast map] in IH1 |- *. destruct ls as [|l ls]; [discriminate|].
      injection IH1 as <- <-. cbn [fst snd].
      repeat split; [exact IH2|discriminate].
Qed.

Lemma lines_of_app a : forall b,
  lines_of (a ++ b) =
    (fst (lines_of a) ++ fst (lines_of (snd (lines_of a) ++ b)),
     snd (lines_of (snd (lines_of a) ++ b))).
Proof.
  induction a as [|c a IH]; intros b.
  - cbn. now destruct (lines_of b).
  - cbn [app lines_of]. rewrite IH. destruct (lines_of a) as [la ra].
    cbn [fst snd]. destruct (lines_of (ra ++ b)) as [lb rb] eqn:Hb.
    cbn [fst snd]. destruct (Ascii.eqb c nl) eqn:Hc.
    + cbn [fst snd]. rewrite Hb. reflexivity.
    + destruct la as [|l la]; cbn [app fst snd].
      * cbn [lines_of]. rewrite Hb, Hc. now destruct lb.
      * rewrite Hb. reflexivity.
Qed.

Lemma lines_of_rest s :
  lines_of (snd (lines_of s)) = ([], snd (lines_of s)).
Proof.
  induction s as [|c s IH]; [reflexivity|].
  cbn [lines_of]. destruct (lines_of s) as [ls rest]. cbn [snd] in *.
  destruct (Ascii.eqb c nl) eqn:Hc; [exact IH|].
  destruct ls; cbn [snd]; [|exact IH].
  cbn [lines_of]. now rewrite IH, Hc.
Qed.

Lemma upto_match_app patterns la lb :
  upto_match patterns (la ++ lb) =
    if fst (upto_match patterns la) then upto_match patterns la
    else (fst (upto_match patterns lb),
          la ++ snd (upto_match patterns lb)).
Proof.
  induction la as [|l la IH]; cbn [app upto_match fst snd].
  - now destruct (upto_match patterns lb).
  - destruct (holds patterns l); [reflexivity|]. cbn [fst snd].
    rewrite IH. destruct (upto_match patterns la) as [[] r]; reflexivity.
Qed.

Lemma append_lines_upto patterns lines : forall out_lines,
  append_lines patterns lines out_lines =
    (fst (upto_match patterns (map (fun l => l ++ [nl]) lines)),
     out_lines
     ++ snd (upto_match patterns (map (fun l => l ++ [nl]) lines))).
Proof.
  induction lines as [|l lines IH]; intros out_lines.
  - cbn. now rewrite app_nil_r.
  - cbn [append_lines map upto_match]. unfold holds.
    destruct (existsb _ patterns); [reflexivity|].
    rewrite IH. cbn [fst snd]. now rewrite <- app_assoc.
Qed.

Lemma upto_match_prefix patterns ls :
  exists later, ls = snd (upto_match patterns ls) ++ later
    /\ (fst (upto_match patterns ls) = false -> later = []).
Proof.
  induction ls as [|l ls (later & IH1 & IH2)]; [now exists []|].
  cbn [upto_match]. destruct (holds patterns l).
  - exists ls. split; [reflexivity|discriminate].
  - cbn [fst snd]. exists later. split; [cbn [app]; now f_equal|exact IH2].
Qed.

Lemma upto_match_none patterns ls :
  fst (upto_match patterns ls) = false -> snd (upto_match patterns ls) = ls.
Proof.
  intros Hf. destruct (upto_match_prefix patterns ls) as (later & Hls & Hn).
  rewrite (Hn Hf), app_nil_r in Hls. now symmetry.
Qed.

Lemma read_loop_lines patterns polls : forall buf out_lines,
  lines_of buf = ([], buf) ->
  read_loop polls patterns buf out_lines =
    (fst (upto_match patterns (fst (lines_of (buf ++ stream_of polls)))),
     out_lines
     ++ snd (upto_match patterns (fst (lines_of (buf ++ stream_of polls))))).
Proof.
  induction polls as [|p polls IH]; intros buf out_lines Hbuf.
  - cbn [read_loop stream_of]. rewrite !app_nil_r, Hbuf. cbn.
    now rewrite app_nil_r.
  - destruct p as [|[|c chunk]].
    + cbn [read_loop stream_of]. now apply IH.
    + cbn [read_loop stream_of]. rewrite !app_nil_r, Hbuf. cbn.
      now rewrite app_nil_r.
    + cbn [read_loop stream_of].
      set (ch := c :: chunk). rewrite app_assoc, lines_of_app.
      destruct (split_char_lines (buf ++ ch)) as (Hl & Hr & _).
      rewrite Hr, append_lines_upto, Hl. cbn [fst].
      rewrite upto_match_app.
      pose proof (upto_match_none patterns (fst (lines_of (buf ++ ch))))
        as Hnone.
      destruct (upto_match patterns (fst (lines_of (buf ++ ch)))) as [[] r];
        cbn [fst snd] in *; [reflexivity|].
      rewrite (IH _ _ (lines_of_rest (buf ++ ch))). cbn [fst snd].
      now rewrite (Hnone eq_refl), <- app_assoc.
Qed.


Lemma lines_of_concat s :
  concat (fst (lines_of s)) ++ snd (lines_of s) = s.
Proof.
  induction s as [|c s IH]; [reflexivity|].
  cbn [lines_of]. destruct (lines_of s) as [ls rest]. cbn [fst snd] in *.
  destruct (Ascii.eqb c nl).
  - cbn. now rewrite IH.
  - destruct ls as [|l ls]; cbn in *; now rewrite IH.
Qed.

Lemma lines_of_complete s :
  Forall complete_line (fst (lines_of s))
  /\ ~ In nl (snd (lines_of s)).
Proof.
  induction s as [|c s [IH1 IH2]]; [split; [constructor|intros []]|].
  cbn [lines_of]. destruct (lines_of s) as [ls rest]. cbn [fst snd] in *.
  destruct (Ascii.eqb c nl) eqn:Hc.
  - apply Ascii.eqb_eq in Hc. subst c. cbn [fst snd]. split; [|exact IH2].
    constructor; [|exact IH1]. exists []. split; [reflexivity|intros []].
  - apply Ascii.eqb_neq in Hc. destruct ls as [|l ls]; cbn [fst snd].
    + split; [constructor|]. intros [H|H]; [congruence|contradiction].
    + split; [|exact IH2]. inversion IH1 as [|? ? (body & -> & Hb) Hls]; subst.
      constructor; [|exact Hls]. exists (c :: body). split; [reflexivity|].
      intros [H|H]; [congruence|contradiction].
Qed.

(** X3.  The lines that [_read_until] appends are complete lines (one
    newline, at the end), and joined together they are the beginning of the
    text read: no byte before them is lost or reordered.  When no line
    holds a pattern, what is left out is only the unfinished text after the
    last newline. *)
Theorem read_until_keeps_stream (polls : list poll) (patterns : list str)
  (out_lines : list str) :
  exists new left_out,
    snd (_read_until polls patterns out_lines) = out_lines ++ new
    /\ Forall complete_line new
    /\ stream_of polls = concat new ++ left_out
    /\ (fst (_read_until polls patterns out_lines) = false ->
        ~ In "010"%char left_out).
Proof.
  unfold _read_until.
  rewrite (read_loop_lines patterns polls [] out_lines eq_refl).
  cbn [fst snd app].
  set (s := stream_of polls).
  destruct (upto_match_prefix patterns (fst (lines_of s)))
    as (later & Hls & Hnone).
  destruct (lines_of_complete s) as [Hall Hrest].
  pose proof (lines_of_concat s) as Hcat.
  set (new := snd (upto_match patterns (fst (lines_of s)))) in *.
  exists new, (concat later ++ snd (lines_of s)).
  split; [reflexivity|]. split; [|split].
  - rewrite Hls in Hall. now apply Forall_app in Hall as [H _].
  - rewrite Hls, concat_app, <- app_assoc in Hcat. now symmetry.
  - intros Hf. rewrite (Hnone Hf). exact Hrest.
Qed.

End ReadUntil.

(** ** Selection of the largest spikes *)

Section Selection.

Import MakeTargetsFromLogs SelectionVocabulary.

Lemma insert_desc_perm x l : Permutation (insert_desc x l) (x :: l).
Proof.
  induction l as [|y l IH]; cbn [insert_desc]; [reflexivity|].
  destruct (Z.abs (snd y) <=? Z.abs (snd x)); [reflexivity|].
  rewrite IH. apply perm_swap.
Qed.

Lemma sorted_desc_perm l : Permutation (sorted_desc l) l.
Proof.
  induction l as [|x l IH]; [reflexivity|].
  cbn [sorted_desc fold_right]. rewrite insert_desc_perm. now constructor.
Qed.

Lemma insert_desc_descending x l :
  descending l -> descending (insert_desc x l).
Proof.
  unfold descending. induction 1 as [|y l Hl IH Hy]; cbn [insert_desc].
  - repeat constructor.
  - destruct (Z.leb_spec (Z.abs (snd y)) (Z.abs (snd x))).
    + constructor; [now constructor|]. constructor; [assumption|].
      eapply List.Forall_impl; [|exact Hy]. cbn. lia.
    + constructor; [exact IH|].
      eapply Permutation_Forall; [symmetry; apply insert_desc_perm|].
      constructor; [lia|exact Hy].
Qed.

Lemma sorted_desc_descending l : descending (sorted_desc l).
Proof.
  induction l as [|x l IH]; [constructor|].
  now apply insert_desc_descending.
Qed.

Lemma in_firstn {A} (x : A) n l : In x (firstn n l) -> In x l.
Proof.
  intros H. rewrite <- (firstn_skipn n l). apply in_or_app. now left.
Qed.

Lemma in_skipn {A} (x : A) n l : In x (skipn n l) -> In x l.
Proof.
  intros H. rewrite <- (firstn_skipn n l). apply in_or_app. now right.
Qed.

Lemma descending_firstn n l :
  descending l ->
  descending (firstn n l)
  /\ forall x y, In x (firstn n l) -> In y (skipn n l) ->
       Z.abs (snd y) <= Z.abs (snd x).
Proof.
  unfold descending. intros H. revert n.
  induction H as [|z l Hl IH Hz]; intros [|n]; cbn [firstn skipn];
    [split; [constructor|intros ? ? []]..|].
  destruct (IH n) as [IH1 IH2]. split.
  - constructor; [exact IH1|].
    rewrite List.Forall_forall in Hz |- *. intros y Hy. apply Hz.
    eapply in_firstn; eauto.
  - intros x y [<-|Hx] Hy; [|now apply IH2].
    rewrite List.Forall_forall in Hz. apply Hz. eapply in_skipn; eauto.
Qed.

Lemma slice_to_firstn {A} (l : list A) (k : Z) :
  exists n, slice_to l k = firstn n l
    /\ Z.of_nat (length (firstn n l)) =
         if k <? 0 then Z.max 0 (Z.of_nat (length l) + k)
         else Z.min k (Z.of_nat (length l)).
Proof.
  unfold slice_to. destruct (Z.ltb_spec k 0).
  - eexists. split; [reflexivity|]. rewrite length_firstn. lia.
  - eexists. split; [reflexivity|]. rewrite length_firstn. lia.
Qed.

(** The cut that the three scripts apply to the spikes of one game. *)
Lemma topk_cut (topk : Z) (spikes : list (Z * Z)) :
  let kept :=
    if negb (topk =? 0) && (Z.of_nat (length spikes) >? topk)
    then slice_to (sorted_desc spikes) topk
    else spikes in
  largest_of kept spikes
  /\ Z.of_nat (length kept) = kept_count topk (Z.of_nat (length spikes))
  /\ (topk = 0 \/ Z.of_nat (length spikes) <= topk -> kept = spikes)
  /\ (topk <> 0 -> topk < Z.of_nat (length spikes) -> descending kept).
Proof.
  intros kept. subst kept. unfold kept_count.
  destruct (Z.eqb_spec topk 0) as [->|Hk]; cbn [negb andb].
  - split; [|split; [reflexivity|split; [reflexivity|congruence]]].
    exists []. rewrite app_nil_r. split; [reflexivity|intros ? ? ? []].
  - destruct (Z.gtb_spec (Z.of_nat (length spikes)) topk) as [Hgt|Hle].
    + destruct (slice_to_firstn (sorted_desc spikes) topk) as (n & -> & Hn).
      pose proof (sorted_desc_descending spikes) as Hs.
      destruct (descending_firstn n _ Hs) as [Hd Hdom].
      rewrite (Permutation_length (sorted_desc_perm spikes)) in Hn.
      split; [|split; [|split]].
      * exists (skipn n (sorted_desc spikes)). split; [|exact Hdom].
        rewrite firstn_skipn. apply sorted_desc_perm.
      * rewrite Hn. destruct (Z.ltb_spec topk 0), (Z.ltb_spec 0 topk); lia.
      * intros [?|?]; lia.
      * intros _ _. exact Hd.
    + split; [|split; [|split]].
      * exists []. rewrite app_nil_r. split; [reflexivity|intros ? ? ? []].
      * destruct (Z.ltb_spec 0 topk); lia.
      * reflexivity.
      * lia.
Qed.

(** X4.  The [--topk] cut keeps the largest spikes.  In
    make_targets_from_logs.py, make_targets_from_moves.py and
    extract_eval_spikes.py alike, the spikes kept for a game make up, with
    the ones left out, all the spikes found, and no spike left out has a
    larger absolute difference than one kept.  With [--topk 0], or when
    there are no more than [topk] spikes, all are kept in the order of the
    game; otherwise [topk] are kept, from the largest down (a negative
    [topk] leaves out the [-topk] smallest instead). *)
Theorem topk_keeps_largest_spikes (threshold topk back_min back_max : Z)
  (back forward : Z) (evals : list Z) (moves : list str) :
  let spikes := compute_spikes evals threshold in
  let n := Z.of_nat (length spikes) in
  let kept_logs :=
    select_spikes
      {| MakeTargetsFromLogs.threshold := threshold;
         MakeTargetsFromLogs.topk := topk;
         MakeTargetsFromLogs.back_min := back_min;
         MakeTargetsFromLogs.back_max := back_max |} evals in
  let kept_moves :=
    MakeTargetsFromMoves.select_spikes
      {| MakeTargetsFromMoves.threshold := threshold;
         MakeTargetsFromMoves.topk := topk;
         MakeTargetsFromMoves.back_min := back_min;
         MakeTargetsFromMoves.back_max := back_max |} evals in
  let written :=
    ExtractEvalSpikes.main_outputs
      {| ExtractEvalSpikes.threshold := threshold;
         ExtractEvalSpikes.back := back;
         ExtractEvalSpikes.forward := forward;
         ExtractEvalSpikes.topk := topk |} evals moves in
  (largest_of kept_logs spikes
   /\ Z.of_nat (length kept_logs) = kept_count topk n
   /\ (topk = 0 \/ n <= topk -> kept_logs = spikes)
   /\ (topk <> 0 -> topk < n -> descending kept_logs))
  /\ kept_moves = kept_logs
  /\ (forall out, written = Some out ->
        ExtractEvalSpikes.spikes_csv out = kept_logs).
Proof.
  intros spikes n kept_logs kept_moves written.
  split; [apply (topk_cut topk spikes)|]. split; [reflexivity|].
  intros out. subst written. unfold ExtractEvalSpikes.main_outputs.
  destruct moves; [discriminate|]. intros [= <-]. reflexivity.
Qed.

End Selection.

(** ** Parsing a log with its positions *)

Section LogParser.

Import MakeTargetsFromLogs ParserVocabulary SelectionVocabulary.

Variable INFO_RE : str -> option (score_kind * Z).
Variable BESTMOVE_RE : str -> option str.
Variable POS_LINE_RE : str -> bool.
Variable DEPTH_RE : str -> option Z.

Local Abbreviation parse_from :=
  (MakeTargetsFromLogs.parse_from INFO_RE BESTMOVE_RE POS_LINE_RE DEPTH_RE).
Local Abbreviation parse :=
  (parse_bestmoves_with_positions INFO_RE BESTMOVE_RE POS_LINE_RE DEPTH_RE).
Local Abbreviation find_pos := (find_pos_after POS_LINE_RE).
Local Abbreviation parse_line :=
  (ExtractEvalSpikes.parse_line (info_of_logs INFO_RE) BESTMOVE_RE None None).

Lemma numbered_snoc best b :
  numbered best -> idx b = Z.of_nat (length best) + 1 ->
  numbered (best ++ [b]).
Proof.
  intros Hn Hb i b' Hi. destruct (Nat.lt_ge_cases i (length best)) as [Hlt|Hge].
  - rewrite nth_error_app1 in Hi by exact Hlt. now apply Hn.
  - rewrite nth_error_app2 in Hi by exact Hge.
    destruct (i - length best)%nat as [|k] eqn:Hk; cbn in Hi.
    + injection Hi as <-. rewrite Hb. f_equal. f_equal. lia.
    + now destruct k.
Qed.

Lemma parse_from_records lines : forall st best evals,
  parse_from lines st = Some (best, evals) ->
  length (ps_best st) = length (ps_evals st) ->
  numbered (ps_best st) ->
  length best = length evals
  /\ numbered best
  /\ fst (fold_left parse_line lines
            (ps_evals st, map bestmove (ps_best st), ps_cur_eval st))
     = (evals, map bestmove best).
Proof.
  induction lines as [|l lines IH]; intros st best evals Hp Hlen Hnum.
  - cbn in Hp. injection Hp as <- <-. now repeat split.
  - cbn [MakeTargetsFromLogs.parse_from] in Hp. cbn [fold_left].
    unfold ExtractEvalSpikes.parse_line at 2. unfold info_of_logs at 2.
    destruct (INFO_RE l) as [[kind val]|].
    + apply IH in Hp; [|exact Hlen|exact Hnum]. cbn in Hp.
      destruct kind; exact Hp.
    + destruct (BESTMOVE_RE l) as [bm|]; [|now apply IH].
      destruct (find_pos lines) as [pos|]; [|discriminate].
      apply IH in Hp; cbn [ps_best ps_evals ps_cur_eval] in *.
      * rewrite map_app in Hp. cbn [map bestmove] in Hp.
        destruct (ps_cur_eval st), (ps_evals st); exact Hp.
      * rewrite !length_app. cbn. lia.
      * apply numbered_snoc; [exact Hnum|reflexivity].
Qed.

Lemma parse_from_raises lines : forall st,
  parse_from lines st = None <->
  exists pre l post p,
    lines = pre ++ l :: post
    /\ INFO_RE l = None /\ BESTMOVE_RE l <> None
    /\ find POS_LINE_RE (firstn 79 post) = Some p
    /\ partition (lit " position ") p = None.
Proof.
  induction lines as [|l lines IH]; intros st.
  - split; [discriminate|]. intros (pre & l & post & p & H & _).
    now destruct pre.
  - assert (Hlater : forall st',
      (exists pre l0 post p,
         lines = pre ++ l0 :: post
         /\ INFO_RE l0 = None /\ BESTMOVE_RE l0 <> None
         /\ find POS_LINE_RE (firstn 79 post) = Some p
         /\ partition (lit " position ") p = None) ->
      parse_from lines st' = None) by (intros st'; apply IH).
    cbn [MakeTargetsFromLogs.parse_from]. split.
    + intros Hp. destruct (INFO_RE l) as [[kind val]|] eqn:Hi.
      * apply IH in Hp as (pre & l0 & post & p & -> & H).
        now exists (l :: pre), l0, post, p.
      * destruct (BESTMOVE_RE l) as [bm|] eqn:Hb.
        -- destruct (find_pos lines) as [pos|] eqn:Hf.
           ++ apply IH in Hp as (pre & l0 & post & p & -> & H).
              now exists (l :: pre), l0, post, p.
           ++ unfold find_pos_after in Hf.
              destruct (find POS_LINE_RE (firstn 79 lines)) as [p|] eqn:Hfind;
                [|discriminate].
              exists [], l, lines, p. rewrite Hb.
              destruct (partition (lit " position ") p) as [[? ?]|];
                [discriminate|]. now repeat split.
        -- apply IH in Hp as (pre & l0 & post & p & -> & H).
           now exists (l :: pre), l0, post, p.
    + intros (pre & l0 & post & p & Hl & Hi & Hb & Hf & Hpart).
      destruct pre as [|l' pre]; cbn [app] in Hl; injection Hl as -> ->.
      * rewrite Hi. destruct (BESTMOVE_RE l0); [|congruence].
        unfold find_pos_after. now rewrite Hf, Hpart.
      * assert (Hex : exists pre0 l1 post0 p0,
          pre ++ l0 :: post = pre0 ++ l1 :: post0
          /\ INFO_RE l1 = None /\ BESTMOVE_RE l1 <> None
          /\ find POS_LINE_RE (firstn 79 post0) = Some p0
          /\ partition (lit " position ") p0 = None)
          by now exists pre, l0, post, p.
        destruct (INFO_RE l') as [[kind val]|]; [now apply Hlater|].
        destruct (BESTMOVE_RE l'); [|now apply Hlater].
        destruct (find_pos (pre ++ l0 :: post)); [now apply Hlater|reflexivity].
Qed.

Lemma selected_spike_in_range (a : args) evals spike :
  In spike (select_spikes a evals) ->
  2 <= fst spike <= Z.of_nat (length evals).
Proof.
  intros Hin. unfold select_spikes in Hin.
  destruct (topk_cut (topk a) (compute_spikes evals (threshold a)))
    as ((dropped & Hperm & _) & _).
  assert (Hs : In spike (compute_spikes evals (threshold a))).
  { eapply Permutation_in; [exact Hperm|]. apply in_or_app. now left. }
  change (compute_spikes evals (threshold a))
    with (ExtractEvalSpikes.compute_spikes evals (threshold a)) in Hs.
  rewrite compute_spikes_flagged in Hs. unfold flagged in Hs.
  apply filter_In in Hs as [Hs _]. apply in_map_iff in Hs as (i & <- & Hi).
  apply in_range_iff in Hi. cbn [fst]. lia.
Qed.

(** X5.  When [parse_bestmoves_with_positions] returns, [best] and [evals]
    have one entry for each bestmove line, the entries of [best] are
    numbered from 1 in their order, and [evals] and the moves of [best] are
    the two lists that [parse_log] of extract_eval_spikes.py gives for the
    same lines without [--include] and [--exclude]: the two scripts number
    the plies of a log alike. *)
Theorem parsed_log_entries (lines : list str) (best : list best_entry)
  (evals : list Z) :
  parse lines = Some (best, evals) ->
  length best = length evals
  /\ numbered best
  /\ ExtractEvalSpikes.parse_log (info_of_logs INFO_RE) BESTMOVE_RE None None
       lines
     = (evals, map bestmove best).
Proof.
  intros Hp. apply parse_from_records in Hp;
    [exact Hp|reflexivity|intros [|i] b; discriminate].
Qed.

(** X6.  The ply of a spike names an entry of [best]: for every spike that
    [main] of make_targets_from_logs.py takes from a parsed log, the test
    [ply < 1 or ply > len(best)] is false, [best[ply - 1]] is the entry
    numbered [ply], and the targets of the spike are the ones rewound from
    the position of that entry; no spike is skipped. *)
Theorem spike_ply_names_entry (a : args) (lines : list str)
  (best : list best_entry) (evals : list Z) (base stem : str)
  (st : gen_state) (spike : Z * Z) :
  parse lines = Some (best, evals) ->
  In spike (select_spikes a evals) ->
  exists b,
    nth_error best (Z.to_nat (fst spike - 1)) = Some b
    /\ idx b = fst spike
    /\ emit_spike a base stem best st spike =
         fold_left (emit_back base stem (fst spike) (snd spike) b)
           (range (back_min a) (back_max a + 1)) st.
Proof.
  intros Hp Hin. apply selected_spike_in_range in Hin.
  apply parse_from_records in Hp as (Hlen & Hnum & _);
    [|reflexivity|intros [|i] b; discriminate].
  destruct spike as [ply delta]. cbn [fst snd] in *.
  destruct (nth_error best (Z.to_nat (ply - 1))) as [b|] eqn:Hb.
  - exists b. split; [reflexivity|]. split.
    + rewrite (Hnum _ _ Hb). lia.
    + unfold emit_spike. rewrite Hb.
      destruct (Z.ltb_spec ply 1); [lia|].
      destruct (Z.gtb_spec ply (Z.of_nat (length best))); [lia|]. reflexivity.
  - apply nth_error_None in Hb. lia.
Qed.

(** X7.  [parse_bestmoves_with_positions] raises (the [IndexError] of
    [split(" position ", 1)[1]]) exactly when some bestmove line is
    followed, within the next 79 lines, by a first line matching
    [POS_LINE_RE] that does not contain [" position "] with both spaces,
    such as a line that starts with ["position startpos"]. *)
Theorem parse_raises_on_bare_position_line (lines : list str) :
  parse lines = None <->
  exists pre l post p,
    lines = pre ++ l :: post
    /\ INFO_RE l = None /\ BESTMOVE_RE l <> None
    /\ find POS_LINE_RE (firstn 79 post) = Some p
    /\ partition (lit " position ") p = None.
Proof. apply parse_from_raises. Qed.

End LogParser.

Lemma parsed_log_entries_witness :
  length LogExample.best = length LogExample.evals
  /\ ParserVocabulary.numbered LogExample.best
  /\ ExtractEvalSpikes.parse_log
       (ParserVocabulary.info_of_logs LogExample.INFO_RE)
       LogExample.BESTMOVE_RE None None LogExample.lines
     = (LogExample.evals, map MakeTargetsFromLogs.bestmove LogExample.best).
Proof.
  exact (parsed_log_entries LogExample.INFO_RE LogExample.BESTMOVE_RE
           LogExample.POS_LINE_RE LogExample.DEPTH_RE LogExample.lines
           LogExample.best LogExample.evals eq_refl).
Defined.

Lemma spike_ply_names_entry_witness :
  exists b,
    nth_error LogExample.best 1 = Some b
    /\ MakeTargetsFromLogs.idx b = 2
    /\ MakeTargetsFromLogs.emit_spike LogExample.a (lit "game.md") (lit "game")
         LogExample.best (∅, []) (2, -430)
       = fold_left
           (MakeTargetsFromLogs.emit_back (lit "game.md") (lit "game")
              2 (-430) b)
           (range 1 (2 + 1)) (∅, []).
Proof.
  exact (spike_ply_names_entry LogExample.INFO_RE LogExample.BESTMOVE_RE
           LogExample.POS_LINE_RE LogExample.DEPTH_RE LogExample.a
           LogExample.lines LogExample.best LogExample.evals
           (lit "game.md") (lit "game") (∅, []) (2, -430)
           eq_refl (or_introl eq_refl)).
Defined.

(** ** The files written by extract_eval_spikes.py *)

Section SpikeFiles.

Import ExtractEvalSpikes.

Variable INFO_RE : str -> option (score_kind * Z).
Variable BESTMOVE_RE : str -> option str.
Variables include_re exclude_re : option (str -> bool).

Local Abbreviation parse_line :=
  (ExtractEvalSpikes.parse_line INFO_RE BESTMOVE_RE include_re exclude_re).
Local Abbreviation parse_log :=
  (ExtractEvalSpikes.parse_log INFO_RE BESTMOVE_RE include_re exclude_re).
Local Abbreviation main :=
  (ExtractEvalSpikes.main INFO_RE BESTMOVE_RE include_re exclude_re).

Lemma parse_line_lengths st line :
  length (fst (fst st)) = length (snd (fst st)) ->
  length (fst (fst (parse_line st line)))
  = length (snd (fst (parse_line st line))).
Proof.
  destruct st as [[evals moves] cur]. cbn [fst snd]. intros H.
  unfold ExtractEvalSpikes.parse_line.
  destruct (match include_re with Some re => negb (re line) | None => false end);
    [exact H|].
  destruct (match exclude_re with Some re => re line | None => false end);
    [exact H|].
  destruct (INFO_RE line) as [[[] v]|]; [exact H..|].
  destruct (BESTMOVE_RE line); [|exact H].
  destruct cur, evals; cbn [fst snd]; rewrite !length_app; cbn in *; lia.
Qed.

Lemma parse_log_lengths lines :
  length (fst (parse_log lines)) = length (snd (parse_log lines)).
Proof.
  unfold ExtractEvalSpikes.parse_log.
  assert (H : forall st,
    length (fst (fst st)) = length (snd (fst st)) ->
    length (fst (fst (fold_left parse_line lines st)))
    = length (snd (fst (fold_left parse_line lines st)))).
  { induction lines as [|l lines IH]; intros st Hst; [exact Hst|].
    cbn [fold_left]. apply IH. now apply parse_line_lengths. }
  now apply H.
Qed.

Lemma csv_rows_kept l : forall st x,
  In x (snd st) -> In x (snd (fold_left csv_step l st)).
Proof.
  induction l as [|[i [mv sc]] l IH]; intros [prev rows] x Hx; [exact Hx|].
  cbn [fold_left]. apply IH. cbn. apply in_or_app. now left.
Qed.

Lemma csv_rows_deltas mvs : forall evs i p rows j d,
  length mvs = length evs ->
  In (j, d) (deltas i p evs) ->
  exists mv sc,
    In (j, mv, sc, d)
      (snd (fold_left csv_step (enumerate i (combine mvs evs))
              (Some p, rows))).
Proof.
  induction mvs as [|mv mvs IH]; intros [|sc evs] i p rows j d Hlen Hin;
    try discriminate; [destruct Hin|].
  cbn [combine enumerate fold_left csv_step]. cbn [deltas] in Hin.
  destruct Hin as [[= <- <-]|Hin].
  - exists mv, sc. apply csv_rows_kept. cbn. apply in_or_app. right. now left.
  - apply IH; [now injection Hlen|exact Hin].
Qed.

Lemma csv_rows_plies l : forall i prev rows,
  map (fun r => fst (fst (fst r)))
    (snd (fold_left csv_step (enumerate i l) (prev, rows)))
  = map (fun r => fst (fst (fst r))) rows
    ++ range i (i + Z.of_nat (length l)).
Proof.
  induction l as [|[mv sc] l IH]; intros i prev rows.
  - cbn. rewrite range_empty by lia. now rewrite app_nil_r.
  - cbn [enumerate fold_left csv_step length]. rewrite IH, map_app.
    rewrite range_cons, <- app_assoc. reflexivity.
Qed.

(** X8.  The files that [main] of extract_eval_spikes.py writes agree.
    [evals.csv] has one row for each bestmove of the log, numbered from 1
    in order.  Every row of [spikes.csv] has a difference of at least the
    threshold in absolute value and is the ply and difference of a row of
    [evals.csv].  Every number of [prefixes.txt] is the number of a row of
    [evals.csv], and when [--back] and [--forward] are not negative the ply
    of every spike is among the prefixes. *)
Theorem spike_files_agree (a : args) (lines : list str) (out : outputs) :
  main a lines = Some out ->
  let n := Z.of_nat (length (snd (parse_log lines))) in
  0 < n
  /\ map (fun r => fst (fst (fst r))) (evals_csv out) = range 1 (n + 1)
  /\ (forall i d, In (i, d) (spikes_csv out) ->
        threshold a <= Z.abs d
        /\ exists mv sc, In (i, mv, sc, d) (evals_csv out))
  /\ (forall k, In k (prefixes out) -> 1 <= k <= n)
  /\ (0 <= back a -> 0 <= forward a ->
      forall i d, In (i, d) (spikes_csv out) -> In i (prefixes out)).
Proof.
  unfold ExtractEvalSpikes.main. pose proof (parse_log_lengths lines) as Hlen.
  destruct (parse_log lines) as [evals moves]. cbn [fst snd] in *.
  unfold main_outputs. destruct moves as [|mv0 moves]; [discriminate|].
  destruct evals as [|e0 evals]; [discriminate|].
  injection Hlen as Hlen. intros [= <-].
  cbn [evals_csv spikes_csv prefixes length].
  cbn [combine enumerate fold_left csv_step app].
  set (n := Z.of_nat (S (length moves))).
  set (spikes := compute_spikes (e0 :: evals) (threshold a)).
  set (kept := if negb (topk a =? 0) && (Z.of_nat (length spikes) >? topk a)
               then slice_to (MakeTargetsFromLogs.sorted_desc spikes) (topk a)
               else spikes).
  set (rows := snd (fold_left csv_step (enumerate (1 + 1) (combine moves evals))
                      (Some e0, [(1, mv0, e0, 0)]))).
  assert (Hkept : forall s, In s kept -> In s spikes).
  { destruct (topk_cut (topk a) spikes) as ((dropped & Hperm & _) & _).
    intros s Hs. eapply Permutation_in; [exact Hperm|].
    apply in_or_app. now left. }
  assert (Hspike : forall i d, In (i, d) kept ->
    threshold a <= Z.abs d /\ 2 <= i <= n
    /\ exists mv sc, In (i, mv, sc, d) rows).
  { intros i d Hin. apply Hkept in Hin. subst spikes.
    assert (Hf := Hin). rewrite compute_spikes_flagged in Hf.
    apply filter_In in Hf as [Hf Hth]. apply in_map_iff in Hf as (j & Hj & Hr).
    apply in_range_iff in Hr. injection Hj as -> _. cbn [snd] in Hth.
    split; [lia|]. split; [subst n; cbn [length] in Hr; lia|].
    unfold compute_spikes in Hin.
    cbn [enumerate fold_left spike_step] in Hin. rewrite spike_fold in Hin.
    apply filter_In in Hin as [Hin _].
    apply csv_rows_deltas; [exact (eq_sym Hlen)|exact Hin]. }
  split; [subst n; lia|]. split; [|split; [|split]].
  - subst rows. rewrite csv_rows_plies, length_combine. cbn [map app fst].
    subst n. replace (Z.of_nat (S (length moves)) + 1)
      with (1 + Z.of_nat (S (length moves))) by lia.
    rewrite range_cons. do 2 f_equal. lia.
  - intros i d Hin. destruct (Hspike i d Hin) as (H1 & _ & H2). now split.
  - intros k Hk. unfold expand_windows in Hk.
    apply sorted_set_elem, windows_elem in Hk as [Hk|(idx & _ & Hk)].
    + now apply elem_of_empty in Hk.
    + fold n in Hk. lia.
  - intros Hb Hf i d Hin. unfold expand_windows.
    apply sorted_set_elem, windows_elem. right. exists i. split.
    + apply in_map_iff. now exists (i, d).
    + destruct (Hspike i d Hin) as (_ & Hi & _). fold n. lia.
Qed.

End SpikeFiles.

Lemma spike_files_agree_witness :
  let out := SpikeFilesExample.out in
  0 < 2
  /\ map (fun r => fst (fst (fst r))) (ExtractEvalSpikes.evals_csv out)
     = range 1 (2 + 1)
  /\ (forall i d, In (i, d) (ExtractEvalSpikes.spikes_csv out) ->
        300 <= Z.abs d
        /\ exists mv sc, In (i, mv, sc, d) (ExtractEvalSpikes.evals_csv out))
  /\ (forall k, In k (ExtractEvalSpikes.prefixes out) -> 1 <= k <= 2)
  /\ (0 <= 3 -> 0 <= 2 ->
      forall i d, In (i, d) (ExtractEvalSpikes.spikes_csv out) ->
        In i (ExtractEvalSpikes.prefixes out)).
Proof.
  assert (Hmain :
    ExtractEvalSpikes.main (ParserVocabulary.info_of_logs LogExample.INFO_RE)
      LogExample.BESTMOVE_RE None None SpikeFilesExample.a LogExample.lines
    = Some SpikeFilesExample.out) by (vm_compute; reflexivity).
  exact (spike_files_agree (ParserVocabulary.info_of_logs LogExample.INFO_RE)
           LogExample.BESTMOVE_RE None None SpikeFilesExample.a
           LogExample.lines SpikeFilesExample.out Hmain).
Defined.

(** ** Positions after a move, and their rewinds *)

Section PositionsAfter.

Import PositionVocabulary.

Local Abbreviation sep6 := (lit " moves").
Local Abbreviation sep7 := (lit " moves ").
Local Abbreviation tokens := (Forall (fun t => token t = true)).

(** The rewind of make_targets_from_moves.py keeps the head and the first
    [N - k] tokens, and the bare head when [k > N]. *)
Lemma moves_chop_moves_position h ts k :
  head_ok h = true -> tokens ts -> 0 <= k ->
  MakeTargetsFromMoves.chop_moves (Some (position h ts)) k
  = Some (position h (kept ts k)).
Proof.
  intros Hh Hts Hk.
  destruct (head_ok_parts h Hh) as (Hc & _ & c & s & ->).
  unfold MakeTargetsFromMoves.chop_moves, kept.
  destruct ts as [|t ts].
  - cbn [position]. rewrite (partition_none _ Hc). now rewrite firstn_nil.
  - set (toks := t :: ts) in *.
    change (position (c :: s) toks)
      with ((c :: s) ++ sep7 ++ join (lit " ") toks).
    cbn [app]. change (c :: s ++ sep7 ++ join (lit " ") toks)
      with ((c :: s) ++ sep7 ++ join (lit " ") toks).
    rewrite (partition_head _ _ Hc).
    destruct (Z.leb_spec k 0) as [Hk0|Hk0].
    + f_equal. change ((c :: s) ++ sep7 ++ join (lit " ") toks)
        with (position (c :: s) toks).
      f_equal. symmetry. apply firstn_all2. lia.
    + rewrite (tokens_of_join toks Hts).
      destruct (Z.geb_spec (Z.of_nat (length toks)) k) as [Hle|Hgt].
      * unfold slice_to. replace (- k <? 0) with true
          by (symmetry; apply Z.ltb_lt; lia).
        rewrite position_by_length. reflexivity.
      * cbn [length Nat.eqb negb]. f_equal.
        replace (Z.to_nat (Z.of_nat (length toks) - k)) with O by lia.
        reflexivity.
Qed.

Lemma make_pos_after_position h ts bestmove :
  head_ok h = true -> tokens ts ->
  token (strip bestmove) = true ->
  strip bestmove <> lit "resign" -> strip bestmove <> lit "none" ->
  MakeTargetsFromMoves.make_pos_after (position h ts) bestmove
  = position h (ts ++ [strip bestmove]).
Proof.
  intros Hh Hts Hmv Hr Hn.
  destruct (head_ok_parts h Hh) as (Hc & _ & c & s & ->).
  unfold MakeTargetsFromMoves.make_pos_after.
  set (mv := strip bestmove) in *.
  assert (Htr : truthy mv = true)
    by (apply token_chars in Hmv as (? & ? & -> & _); reflexivity).
  rewrite Htr. cbn [negb orb].
  rewrite (bool_decide_eq_false_2 _ Hr), (bool_decide_eq_false_2 _ Hn).
  cbn [orb]. destruct ts as [|t ts].
  - cbn [position app]. now rewrite (partition_none _ Hc).
  - set (toks := t :: ts) in *.
    change (position (c :: s) toks)
      with ((c :: s) ++ sep7 ++ join (lit " ") toks).
    cbn [app]. change (c :: s ++ sep7 ++ join (lit " ") toks)
      with ((c :: s) ++ sep7 ++ join (lit " ") toks).
    rewrite (partition_head _ _ Hc), (tokens_of_join toks Hts).
    subst toks. reflexivity.
Qed.

Lemma kept_tokens ts k : tokens ts -> tokens (kept ts k).
Proof.
  intros H. unfold kept. rewrite List.Forall_forall in *.
  intros t Ht. apply H. eapply in_firstn, Ht.
Qed.

Lemma kept_snoc ts mv k :
  1 <= k -> kept (ts ++ [mv]) k = kept ts (k - 1).
Proof.
  intros Hk. unfold kept. rewrite length_app. cbn [length].
  replace (Z.of_nat (length ts + 1) - k)
    with (Z.of_nat (length ts) - (k - 1)) by lia.
  rewrite firstn_app.
  replace (Z.to_nat (Z.of_nat (length ts) - (k - 1)) - length ts)%nat
    with O by lia.
  cbn [firstn]. apply app_nil_r.
Qed.

Lemma kept_kept ts a b :
  0 <= a -> 0 <= b -> kept (kept ts a) b = kept ts (a + b).
Proof.
  intros Ha Hb. unfold kept. rewrite length_firstn, firstn_firstn.
  f_equal. lia.
Qed.

(** X9.  The position after a move, rewound.  For a position with a head
    and move tokens and a bestmove that is a move, [make_pos_after] appends
    the move, and [chop_moves] of make_targets_from_moves.py takes the last
    [k] moves away again ([k >= 1]): rewinding by one ply gives the position
    of the record back, and rewinding by [k] plies gives the position
    [k - 1] plies before the move, the bare head when fewer moves were
    played.  For ["resign"], ["none"] and a blank bestmove nothing is
    appended, so the same rewind starts from the position of the record. *)
Theorem rewind_after_move (h : str) (ts : list str) (bestmove : str) (k : Z) :
  head_ok h = true ->
  Forall (fun t => token t = true) ts ->
  1 <= k ->
  let pos_body := position h ts in
  let pos_after := MakeTargetsFromMoves.make_pos_after pos_body bestmove in
  (token (strip bestmove) = true ->
   strip bestmove <> lit "resign" -> strip bestmove <> lit "none" ->
   pos_after = position h (ts ++ [strip bestmove])
   /\ MakeTargetsFromMoves.chop_moves (Some pos_after) 1 = Some pos_body
   /\ MakeTargetsFromMoves.chop_moves (Some pos_after) k
      = Some (position h (kept ts (k - 1))))
  /\ (strip bestmove = [] \/ strip bestmove = lit "resign"
      \/ strip bestmove = lit "none" ->
      pos_after = pos_body
      /\ MakeTargetsFromMoves.chop_moves (Some pos_after) k
         = Some (position h (kept ts k))).
Proof.
  intros Hh Hts Hk pos_body pos_after. split.
  - intros Hmv Hr Hn. subst pos_after pos_body.
    rewrite (make_pos_after_position h ts bestmove Hh Hts Hmv Hr Hn).
    assert (Hall : tokens (ts ++ [strip bestmove])).
    { apply Forall_app. split; [exact Hts|]. now constructor. }
    split; [reflexivity|]. split.
    + rewrite (moves_chop_moves_position _ _ 1 Hh Hall) by lia.
      rewrite kept_snoc by lia. unfold kept.
      rewrite firstn_all2 by lia. reflexivity.
    + rewrite (moves_chop_moves_position _ _ k Hh Hall) by lia.
      now rewrite kept_snoc.
  - intros Hmv.
    assert (Hsame : pos_after = pos_body).
    { subst pos_after. unfold MakeTargetsFromMoves.make_pos_after.
      destruct Hmv as [->|[->| ->]]; reflexivity. }
    rewrite Hsame. split; [reflexivity|].
    apply moves_chop_moves_position; [exact Hh|exact Hts|lia].
Qed.

(** X10.  Rewinds compose.  For a position with a head and move tokens,
    rewinding by [a] plies and then by [b] plies is rewinding by [a + b]
    plies, with [chop_moves] of make_targets_from_logs.py and with the one
    of make_targets_from_moves.py; and the two functions return the same
    position. *)
Theorem rewinds_compose (h : str) (ts : list str) (a b : Z) :
  head_ok h = true ->
  Forall (fun t => token t = true) ts ->
  0 <= a -> 0 <= b ->
  let pos := Some (position h ts) in
  MakeTargetsFromLogs.chop_moves (MakeTargetsFromLogs.chop_moves pos a) b
  = MakeTargetsFromLogs.chop_moves pos (a + b)
  /\ MakeTargetsFromMoves.chop_moves (MakeTargetsFromMoves.chop_moves pos a) b
     = MakeTargetsFromMoves.chop_moves pos (a + b)
  /\ MakeTargetsFromMoves.chop_moves pos a
     = MakeTargetsFromLogs.chop_moves pos a.
Proof.
  intros Hh Hts Ha Hb pos. subst pos.
  pose proof (kept_tokens ts a Hts) as Hka.
  rewrite !(logs_chop_moves_position h ts) by (assumption || lia).
  rewrite !(moves_chop_moves_position h ts) by (assumption || lia).
  rewrite (logs_chop_moves_position h (kept ts a)) by (assumption || lia).
  rewrite (moves_chop_moves_position h (kept ts a)) by (assumption || lia).
  rewrite kept_kept by lia. repeat split.
Qed.

End PositionsAfter.

Lemma rewind_after_move_witness :
  let pos_body := lit "startpos moves 7g7f 3c3d" in
  let pos_after :=
    MakeTargetsFromMoves.make_pos_after pos_body PositionExample.bestmove in
  pos_after = lit "startpos moves 7g7f 3c3d 8h2b"
  /\ MakeTargetsFromMoves.chop_moves (Some pos_after) 1 = Some pos_body
  /\ MakeTargetsFromMoves.chop_moves (Some pos_after) 2
     = Some (lit "startpos moves 7g7f").
Proof.
  assert (Hts : Forall (fun t => PositionVocabulary.token t = true)
                  PositionExample.ts) by (repeat constructor).
  destruct (rewind_after_move PositionExample.h PositionExample.ts
              PositionExample.bestmove 2 eq_refl Hts ltac:(lia)) as [H _].
  apply H; [reflexivity|vm_compute; discriminate|vm_compute; discriminate].
Defined.

Lemma rewinds_compose_witness :
  let pos := Some (lit "startpos moves 7g7f 3c3d") in
  MakeTargetsFromLogs.chop_moves (MakeTargetsFromLogs.chop_moves pos 1) 1
  = MakeTargetsFromLogs.chop_moves pos (1 + 1)
  /\ MakeTargetsFromMoves.chop_moves (MakeTargetsFromMoves.chop_moves pos 1) 1
     = MakeTargetsFromMoves.chop_moves pos (1 + 1)
  /\ MakeTargetsFromMoves.chop_moves pos 1
     = MakeTargetsFromLogs.chop_moves pos 1.
Proof.
  assert (Hts : Forall (fun t => PositionVocabulary.token t = true)
                  PositionExample.ts) by (repeat constructor).
  exact (rewinds_compose PositionExample.h PositionExample.ts 1 1
           eq_refl Hts ltac:(lia) ltac:(lia)).
Defined.

(** ** Targets from move records *)

Section SortBy.

Context {A : Type} (key : A -> Z).

Lemma insert_by_perm x l : Permutation (insert_by key x l) (x :: l).
Proof.
  induction l as [|y l IH]; cbn [insert_by]; [reflexivity|].
  destruct (key x <=? key y); [reflexivity|].
  rewrite IH. apply perm_swap.
Qed.

Lemma sort_by_perm l : Permutation (sort_by key l) l.
Proof.
  induction l as [|x l IH]; [reflexivity|].
  cbn [sort_by fold_right]. rewrite insert_by_perm. now constructor.
Qed.

Lemma sort_by_in x l : In x (sort_by key l) <-> In x l.
Proof.
  split; apply Permutation_in; [|symmetry]; apply sort_by_perm.
Qed.

End SortBy.

Lemma fold_left_invariant {S A} (P : S -> Prop) (f : S -> A -> S) l :
  (forall s x, In x l -> P s -> P (f s x)) ->
  forall s, P s -> P (fold_left f l s).
Proof.
  induction l as [|x l IH]; intros Hf s Hs; [exact Hs|].
  cbn [fold_left]. apply IH.
  - intros s' y Hy. apply Hf. now right.
  - apply Hf; [now left|exact Hs].
Qed.

Section MovesTargets.

Import MakeTargetsFromMoves.

Variable a : args.
Variable groups : list group.

Local Abbreviation sourced := (MovesVocabulary.sourced a groups).
Local Abbreviation generated := (MovesVocabulary.generated a groups).

Lemma emit_back_generated g delta m st back :
  In g groups -> In m (g_recs g) ->
  threshold a <= Z.abs delta ->
  back_min a <= back <= back_max a ->
  generated st ->
  generated
    (emit_back g delta m (make_pos_after (r_position m) (r_bestmove m))
       st back).
Proof.
  intros Hg Hm Hd Hb Hst. destruct st as [uniq targets].
  destruct Hst as (Huniq & Hnd & Hsrc).
  assert (Hst : generated (uniq, targets)) by now split.
  cbn [fst snd] in *. unfold emit_back.
  destruct (chop_moves _ back) as [[|c pos]|] eqn:Hchop;
    [exact Hst| |exact Hst].
  case_bool_decide as Hseen; [exact Hst|].
  split; [|split]; cbn [fst snd].
  - intros p. rewrite map_app, in_app_iff, elem_of_union, elem_of_singleton.
    cbn. rewrite Huniq. intuition congruence.
  - rewrite map_app. cbn [map]. apply List.NoDup_app.
    + exact Hnd.
    + repeat constructor. intros [].
    + intros x Hx [<-|[]]. apply Hseen, Huniq. exact Hx.
  - apply Forall_app. split; [exact Hsrc|]. constructor; [|constructor].
    unfold MovesVocabulary.sourced. cbn. split; [discriminate|]. split; [exact Hb|].
    split; [exact Hd|]. exists g, m. now repeat split.
Qed.

Lemma selected_spike_large evals spike :
  In spike (select_spikes a evals) -> threshold a <= Z.abs (snd spike).
Proof.
  intros Hin. unfold select_spikes in Hin.
  destruct (topk_cut (topk a) (compute_spikes evals (threshold a)))
    as ((dropped & Hperm & _) & _).
  assert (Hs : In spike (compute_spikes evals (threshold a))).
  { eapply Permutation_in; [exact Hperm|]. apply in_or_app. now left. }
  change (compute_spikes evals (threshold a))
    with (ExtractEvalSpikes.compute_spikes evals (threshold a)) in Hs.
  rewrite compute_spikes_flagged in Hs. unfold flagged in Hs.
  apply filter_In in Hs as [_ Hs]. lia.
Qed.

Lemma process_group_generated st g :
  In g groups -> generated st -> generated (process_group a st g).
Proof.
  intros Hg Hst. unfold process_group.
  destruct (main_evals _) as [|e evals] eqn:He; [exact Hst|].
  apply fold_left_invariant; [|exact Hst].
  intros s [idx delta] Hspike Hs. apply selected_spike_large in Hspike.
  cbn [snd] in Hspike. unfold emit_spike.
  destruct ((idx <? 1) || _); [exact Hs|].
  destruct (nth_error _ _) as [m|] eqn:Hm; [|exact Hs].
  apply nth_error_In, sort_by_in in Hm.
  apply fold_left_invariant; [|exact Hs].
  intros s' back Hback Hs'. apply in_range_iff in Hback.
  apply emit_back_generated; try assumption. lia.
Qed.

(** X11.  The targets that make_targets_from_moves.py writes.  No two of
    them have the same position and none has an empty one; each comes from
    a record of one of the groups: its rewind depth is between [--back-min]
    and [--back-max], its difference reaches the threshold, its origin
    fields are those of the group and of the record, and its position is
    the position after the move of the record, rewound by its depth. *)
Theorem moves_targets_distinct_and_sourced :
  List.NoDup (map pre_position (main a groups))
  /\ Forall (MovesVocabulary.sourced a groups) (main a groups).
Proof.
  assert (H : generated (fold_left (process_group a) groups (∅, []))).
  { apply fold_left_invariant.
    - intros s g Hg Hs. now apply process_group_generated.
    - repeat split; cbn; try constructor.
      + intros Hp. now apply elem_of_empty in Hp.
      + intros []. }
  destruct H as (_ & Hnd & Hsrc). now split.
Qed.

End MovesTargets.

(** ** Reading a replay summary *)

Section SummaryLines.

Import RunRegressionChecks SummaryVocabulary.

Variable RE_BESTMOVE : str -> option (Z * str).
Variable RE_INFO : str -> option (Z * Z * Z * Z).

Local Abbreviation parse_line :=
  (RunRegressionChecks.parse_line RE_BESTMOVE RE_INFO).
Local Abbreviation _parse_summary :=
  (RunRegressionChecks._parse_summary RE_BESTMOVE RE_INFO).
Local Abbreviation read_line :=
  (SummaryVocabulary.read_line RE_BESTMOVE RE_INFO).
Local Abbreviation last_move :=
  (SummaryVocabulary.last_move RE_BESTMOVE RE_INFO).
Local Abbreviation last_info :=
  (SummaryVocabulary.last_info RE_BESTMOVE RE_INFO).
Local Abbreviation entry := (SummaryVocabulary.entry RE_BESTMOVE RE_INFO).

Lemma dict_get_set_same {V} (k : Z) (v : V) d :
  dict_get k (dict_set k v d) = Some v.
Proof.
  induction d as [|[k0 v0] d IH]; cbn.
  - now rewrite Z.eqb_refl.
  - destruct (Z.eqb_spec k0 k) as [->|Hk]; cbn.
    + now rewrite Z.eqb_refl.
    + destruct (Z.eqb_spec k0 k); [contradiction|exact IH].
Qed.

Lemma dict_set_keys {V} (k : Z) (v : V) d :
  map fst (dict_set k v d)
  = match dict_get k d with
    | Some _ => map fst d
    | None => map fst d ++ [k]
    end.
Proof.
  induction d as [|[k0 v0] d IH]; cbn; [reflexivity|].
  destruct (Z.eqb_spec k0 k) as [->|Hk]; cbn; [reflexivity|].
  rewrite IH. now destruct (dict_get k d).
Qed.

Lemma dict_get_keys {V} (k : Z) (d : dict V) :
  In k (map fst d) <-> dict_get k d <> None.
Proof.
  induction d as [|[k0 v0] d IH]; cbn; [tauto|].
  destruct (Z.eqb_spec k0 k) as [->|Hk].
  - split; [discriminate|now left].
  - rewrite <- IH. intuition congruence.
Qed.

Lemma dict_get_in {V} (k : Z) (v : V) (d : dict V) :
  List.NoDup (map fst d) -> In (k, v) d <-> dict_get k d = Some v.
Proof.
  induction d as [|[k0 v0] d IH]; cbn; intros Hnd.
  - split; [contradiction|discriminate].
  - apply List.NoDup_cons_iff in Hnd as [Hk0 Hnd].
    destruct (Z.eqb_spec k0 k) as [->|Hk].
    + split.
      * intros [[= ->]|Hin]; [reflexivity|].
        exfalso. apply Hk0. apply in_map_iff. now exists (k, v).
      * intros [= ->]. now left.
    + rewrite <- (IH Hnd). split.
      * intros [[= ? ?]|Hin]; [contradiction|exact Hin].
      * intros Hin. now right.
Qed.

Lemma dict_set_nodup {V} (k : Z) (v : V) d :
  List.NoDup (map fst d) -> List.NoDup (map fst (dict_set k v d)).
Proof.
  intros Hnd. rewrite dict_set_keys.
  destruct (dict_get k d) eqn:Hg; [exact Hnd|].
  apply List.NoDup_app; [exact Hnd|repeat constructor; intros []|].
  intros x Hx [<-|[]]. apply dict_get_keys in Hx. contradiction.
Qed.

Lemma last_move_snoc p lines line :
  last_move p (lines ++ [line])
  = match read_line line with
    | BestmoveLine num move =>
        if num =? p then Some move else last_move p lines
    | _ => last_move p lines
    end.
Proof. unfold SummaryVocabulary.last_move. now rewrite fold_left_app. Qed.

Lemma last_info_snoc p lines line :
  last_info p (lines ++ [line])
  = match read_line line with
    | InfoLine num d sd score =>
        if num =? p then Some (d, sd, score) else last_info p lines
    | _ => last_info p lines
    end.
Proof. unfold SummaryVocabulary.last_info. now rewrite fold_left_app. Qed.

Lemma parse_line_nodup results line :
  List.NoDup (map fst results) ->
  List.NoDup (map fst (parse_line results line)).
Proof.
  intros Hnd. unfold RunRegressionChecks.parse_line.
  destruct (negb (truthy (strip line)) || _); [exact Hnd|].
  destruct (RE_BESTMOVE (strip line)) as [[num best]|].
  - destruct (dict_get num results); now apply dict_set_nodup.
  - destruct (RE_INFO (strip line)) as [[[[num d] sd] sc]|]; [|exact Hnd].
    now apply dict_set_nodup.
Qed.

Lemma parsed_nodup lines :
  List.NoDup (map fst (fold_left parse_line lines [])).
Proof.
  apply (fold_left_invariant (fun r => List.NoDup (map fst r))).
  - intros s x _. apply parse_line_nodup.
  - constructor.
Qed.

(** The record of every prefix after the loop of [_parse_summary]. *)
Lemma parsed_entry p lines :
  dict_get p (fold_left parse_line lines []) = entry p lines.
Proof.
  induction lines as [|line lines IH] using rev_ind; [reflexivity|].
  rewrite fold_left_app. cbn [fold_left].
  unfold SummaryVocabulary.entry. rewrite last_move_snoc, last_info_snoc.
  unfold SummaryVocabulary.entry in IH.
  set (results := fold_left parse_line lines []) in *.
  unfold RunRegressionChecks.parse_line, SummaryVocabulary.read_line.
  destruct (negb (truthy (strip line)) || _); [exact IH|].
  destruct (RE_BESTMOVE (strip line)) as [[num best]|].
  - destruct (Z.eqb_spec num p) as [->|Hne].
    + destruct (dict_get p results) as [res|] eqn:Hres;
        rewrite dict_get_set_same;
        destruct (last_move p lines), (last_info p lines) as [[[d sd] sc]|];
        try discriminate; try (injection IH as ->); reflexivity.
    + destruct (dict_get num results);
        rewrite dict_get_set_other by exact Hne; exact IH.
  - destruct (RE_INFO (strip line)) as [[[[num d] sd] sc]|]; [|exact IH].
    destruct (Z.eqb_spec num p) as [->|Hne].
    + rewrite dict_get_set_same.
      destruct (dict_get p results) as [res|] eqn:Hres;
        destruct (last_move p lines), (last_info p lines) as [[[d' sd'] sc']|];
        try discriminate; try (injection IH as ->); reflexivity.
    + rewrite dict_get_set_other by exact Hne. exact IH.
Qed.

(** X12.  [_parse_summary] keeps, for every prefix, the last lines about
    it.  When it returns, the record of a prefix has the move of the last
    bestmove line of the prefix and depth, selective depth and score of its
    last report (zeros when there is none; a mate score counts as
    [+100000] or [-100000]); a prefix has a record exactly when a line is
    about it, no prefix has two, and no record has the move ["(unknown)"].
    When it raises, the message lists, once each, exactly the prefixes
    with a report and no bestmove line, or whose last bestmove line gives
    the move ["(unknown)"]. *)
Theorem parse_summary_keeps_last_lines (lines : list str) :
  match _parse_summary lines with
  | inr results =>
      (forall p, dict_get p results = entry p lines)
      /\ List.NoDup (map fst results)
      /\ (forall p res, In (p, res) results ->
            last_move p lines = Some (bestmove res)
            /\ bestmove res <> lit "(unknown)")
  | inl f =>
      exists missing,
        f = SummaryMissingData missing
        /\ missing <> [] /\ List.NoDup missing
        /\ forall p, In p missing <->
             (last_move p lines = None /\ last_info p lines <> None)
             \/ last_move p lines = Some (lit "(unknown)")
  end.
Proof.
  unfold RunRegressionChecks._parse_summary.
  set (results := fold_left parse_line lines []).
  pose proof (parsed_nodup lines) as Hnd. fold results in Hnd.
  assert (Hentry : forall p, dict_get p results = entry p lines)
    by (intros p; apply parsed_entry).
  set (unknown := fun kv : Z * PrefixResult =>
         bool_decide (bestmove (snd kv) = lit "(unknown)")).
  assert (Hmiss : forall p, In p (map fst (List.filter unknown results)) <->
            (last_move p lines = None /\ last_info p lines <> None)
            \/ last_move p lines = Some (lit "(unknown)")).
  { intros p. rewrite in_map_iff. split.
    - intros ([p' res] & <- & Hin). apply filter_In in Hin as [Hin Hu].
      apply bool_decide_eq_true in Hu. cbn [fst snd] in *.
      apply (dict_get_in _ _ _ Hnd) in Hin. rewrite Hentry in Hin.
      unfold SummaryVocabulary.entry in Hin.
      destruct (last_move p' lines) as [m|],
        (last_info p' lines) as [[[d sd] sc]|]; try discriminate;
        injection Hin as <-; cbn [bestmove] in Hu.
      + right. now rewrite Hu.
      + right. now rewrite Hu.
      + left. split; [reflexivity|discriminate].
    - intros H.
      assert (Hex : exists res, entry p lines = Some res
                      /\ bestmove res = lit "(unknown)").
      { unfold SummaryVocabulary.entry.
        destruct H as [[-> Hi]| ->].
        - destruct (last_info p lines) as [[[d sd] sc]|]; [|contradiction].
          eexists. split; reflexivity.
        - destruct (last_info p lines) as [[[d sd] sc]|];
            eexists; split; reflexivity. }
      destruct Hex as (res & Hres & Hu). exists (p, res). split; [reflexivity|].
      apply filter_In. split.
      + apply (dict_get_in _ _ _ Hnd). now rewrite Hentry.
      + apply bool_decide_eq_true. exact Hu. }
  destruct (map fst (List.filter unknown results)) as [|m ms] eqn:Hm.
  - split; [exact Hentry|]. split; [exact Hnd|].
    intros p res Hin. apply (dict_get_in _ _ _ Hnd) in Hin.
    assert (Hknown : bestmove res <> lit "(unknown)").
    { intros Hu. assert (Hp : In p []); [|destruct Hp].
      rewrite <- Hm. apply in_map_iff. exists (p, res). split; [reflexivity|].
      apply filter_In. split; [now apply (dict_get_in _ _ _ Hnd)|].
      now apply bool_decide_eq_true. }
    split; [|exact Hknown].
    rewrite Hentry in Hin. unfold SummaryVocabulary.entry in Hin.
    destruct (last_move p lines) as [mv|],
      (last_info p lines) as [[[d sd] sc]|]; try discriminate;
      injection Hin as <-; try reflexivity; now contradiction Hknown.
  - exists (m :: ms). split; [reflexivity|]. split; [discriminate|].
    split; [|exact Hmiss].
    rewrite <- Hm. clear - Hnd. induction results as [|[k v] r IH];
      [constructor|].
    cbn [map] in Hnd. apply List.NoDup_cons_iff in Hnd as [Hk Hnd].
    cbn [List.filter]. destruct (unknown (k, v)); [|now apply IH].
    cbn [map fst]. constructor; [|now apply IH].
    intros Hin. apply Hk. apply in_map_iff in Hin as (x & <- & Hx).
    apply filter_In in Hx as [Hx _]. apply in_map_iff. now exists x.
Qed.

End SummaryLines.

(** ** Guards and the choice of scenarios *)

Section Guards.

Import RunRegressionChecks SummaryVocabulary.

Lemma guard_map_get n guards : forall m,
  dict_get n (fold_left (fun m pg => dict_set (number pg) pg m) guards m)
  = match find (fun g => number g =? n) (rev guards) with
    | Some g => Some g
    | None => dict_get n m
    end.
Proof.
  induction guards as [|g guards IH] using rev_ind; intros m; [reflexivity|].
  rewrite fold_left_app, rev_app_distr. cbn [fold_left rev app find].
  destruct (Z.eqb_spec (number g) n) as [<-|Hne].
  - apply dict_get_set_same.
  - rewrite dict_get_set_other by exact Hne. apply IH.
Qed.

Lemma guard_map_nodup scn : List.NoDup (map fst (guard_map scn)).
Proof.
  unfold guard_map.
  apply (fold_left_invariant (fun m => List.NoDup (map fst m))).
  - intros m pg _. apply dict_set_nodup.
  - constructor.
Qed.

Lemma guard_map_effective scn n g :
  In (n, g) (guard_map scn) <-> n = number g /\ effective scn g.
Proof.
  rewrite (dict_get_in _ _ _ (guard_map_nodup scn)).
  unfold guard_map, effective. rewrite guard_map_get. cbn [dict_get].
  split.
  - destruct (find _ (rev (prefix_guards scn))) as [g'|] eqn:Hf;
      [|discriminate].
    intros [= ->]. pose proof (find_some _ _ Hf) as [_ Hn].
    apply Z.eqb_eq in Hn. subst n. split; [reflexivity|exact Hf].
  - intros [-> Hf]. now rewrite Hf.
Qed.

Lemma for_each_passes {A} (body : A -> failure + unit) l :
  for_each body l = inr tt <-> forall x, In x l -> body x = inr tt.
Proof.
  split; [|apply for_each_pass].
  induction l as [|y l IH]; intros H x Hin; [contradiction|].
  cbn [for_each] in H. destruct (body y) as [f|[]] eqn:Hy; [discriminate|].
  destruct Hin as [<-|Hin]; [exact Hy|now apply IH].
Qed.

(** X13.  Of several prefix guards with the same number only the last one
    declared is checked.  [_check_bounds] passes exactly when every
    declared prefix has a record within the bounds of the scenario and,
    for every prefix number with guards, the record of that prefix
    satisfies the last guard declared for the number; an earlier guard
    with the same number has no effect. *)
Theorem check_bounds_applies_last_guard (scn : Scenario)
  (results : dict PrefixResult) :
  (forall n,
     dict_get n (guard_map scn)
     = find (fun g => number g =? n) (rev (prefix_guards scn)))
  /\ (_check_bounds scn results = inr tt <->
      (forall p, In p (prefixes scn) -> check_prefix scn results p = inr tt)
      /\ (forall g, effective scn g ->
            check_guard results (number g, g) = inr tt)).
Proof.
  split.
  - intros n. unfold guard_map. rewrite guard_map_get. cbn [dict_get].
    now destruct (find _ _).
  - unfold _check_bounds.
    assert (Hand : forall a b : failure + unit,
              and_then a b = inr tt <-> a = inr tt /\ b = inr tt).
    { intros [f|[]] b; cbn; split; try tauto; try discriminate. }
    rewrite Hand, !for_each_passes. split.
    + intros [Hp Hg]. split; [exact Hp|]. intros g Hg'.
      apply Hg. now apply guard_map_effective.
    + intros [Hp Hg]. split; [exact Hp|]. intros [n g] Hin.
      apply guard_map_effective in Hin as [-> He]. now apply Hg.
Qed.

Lemma init_selected (requested : option (list str)) (all : list Scenario) :
  forall selected,
  fold_left
    (fun selected scn =>
       match requested with
       | Some names =>
           if bool_decide (name scn ∈ names) then selected ++ [scn]
           else selected
       | None => selected ++ [scn]
       end)
    all selected
  = selected
    ++ List.filter
         (fun scn =>
            match requested with
            | Some names => bool_decide (name scn ∈ names)
            | None => true
            end)
         all.
Proof.
  induction all as [|scn all IH]; intros selected; cbn [fold_left List.filter].
  - now rewrite app_nil_r.
  - rewrite IH. destruct requested as [names|].
    + destruct (bool_decide (name scn ∈ names)); [|reflexivity].
      now rewrite <- app_assoc.
    + now rewrite <- app_assoc.
Qed.

(** X14.  [RegressionSuite.__init__] runs what was asked for or nothing.
    It stops with ["Config file has no scenarios"] exactly when the config
    has none.  Otherwise, when it returns, the suite holds the scenarios
    of the config whose name was given with [--scenario] (all of them when
    none was given), in the order of the config, and every name given is
    the name of one of them; and it stops with
    ["Unknown scenarios requested"] exactly when some name given is the
    name of no scenario of the config, listing those names in the order
    given. *)
Theorem init_selects_requested (all_entries : list Scenario)
  (scenarios : option (list str)) :
  let unknown :=
    List.filter (fun n => negb (bool_decide (n ∈ map name all_entries)))
      (requested scenarios) in
  (__init__ all_entries scenarios = inl NoScenarios <-> all_entries = [])
  /\ (forall selected,
        __init__ all_entries scenarios = inr selected <->
        all_entries <> [] /\ unknown = []
        /\ selected = List.filter (wanted scenarios) all_entries)
  /\ (forall selected n,
        __init__ all_entries scenarios = inr selected ->
        In n (requested scenarios) ->
        exists scn, In scn selected /\ name scn = n)
  /\ (forall missing,
        __init__ all_entries scenarios = inl (UnknownScenarios missing) <->
        all_entries <> [] /\ missing <> [] /\ missing = unknown).
Proof.
  intros unknown.
  assert (Hnames : forall names, names <> [] ->
    forall n, In n names ->
      bool_decide
        (n ∈ map name
               (List.filter (fun scn => bool_decide (name scn ∈ names))
                  all_entries))
      = bool_decide (n ∈ map name all_entries)).
  { intros names _ n Hn. apply bool_decide_ext.
    rewrite !list_elem_of_In, !in_map_iff. split.
    - intros (s & <- & Hs). apply filter_In in Hs as [Hs _]. now exists s.
    - intros (s & <- & Hs). exists s. split; [reflexivity|].
      apply filter_In. split; [exact Hs|].
      apply bool_decide_eq_true, list_elem_of_In, Hn. }
  assert (Hmain : __init__ all_entries scenarios =
    match all_entries with
    | [] => inl NoScenarios
    | _ :: _ =>
        match unknown with
        | [] => inr (List.filter (wanted scenarios) all_entries)
        | m :: ms => inl (UnknownScenarios (m :: ms))
        end
    end).
  { subst unknown. unfold __init__, requested, wanted.
    destruct all_entries as [|e all]; [reflexivity|].
    set (all_entries := e :: all) in *. cbv zeta.
    rewrite init_selected. cbn [app].
    destruct scenarios as [[|n ns]|]; try reflexivity.
    erewrite (filter_ext_in _
                (fun n0 => negb (bool_decide (n0 ∈ map name all_entries)))).
    + reflexivity.
    + intros n0 Hn0. f_equal. now apply Hnames. }
  rewrite Hmain. split; [|split; [|split]].
  - destruct all_entries; [tauto|]. destruct unknown; split; discriminate.
  - intros selected. destruct all_entries as [|e all].
    + split; [discriminate|]. intros [H _]. contradiction.
    + destruct unknown.
      * split; [now intros [= <-]|]. now intros (_ & _ & ->).
      * split; [discriminate|]. intros (_ & H & _). discriminate.
  - intros selected n. destruct all_entries as [|e all]; [discriminate|].
    set (all_entries := e :: all) in *.
    destruct unknown eqn:Hu; [|discriminate]. intros Heq Hn.
    assert (Hsel : selected = List.filter (wanted scenarios) all_entries)
      by congruence.
    rewrite Hsel. clear Heq Hsel.
    assert (Hknown : In n (map name all_entries)).
    { destruct (bool_decide (n ∈ map name all_entries)) eqn:Hb.
      - apply bool_decide_eq_true in Hb. now apply list_elem_of_In.
      - assert (Hin : In n unknown).
        { apply filter_In. split; [exact Hn|]. now rewrite Hb. }
        rewrite Hu in Hin. destruct Hin. }
    apply in_map_iff in Hknown as (scn & Hname & Hscn).
    exists scn. split; [|exact Hname]. apply filter_In. split; [exact Hscn|].
    unfold wanted, requested in *. destruct scenarios as [[|n0 ns]|];
      try contradiction.
    apply bool_decide_eq_true, list_elem_of_In. now rewrite Hname.
  - intros missing. destruct all_entries as [|e all].
    + split; [discriminate|]. intros [H _]. contradiction.
    + destruct unknown.
      * split; [discriminate|]. intros (_ & H & ->). contradiction.
      * split; [intros [= <-]|intros (_ & _ & ->)]; repeat split; discriminate.
Qed.

End Guards.

(** ** The first bad target of an origin *)

Section SortedBy.

Context {A : Type} (key : A -> Z).

Lemma insert_by_sorted x l :
  StronglySorted (fun a b => key a <= key b) l ->
  StronglySorted (fun a b => key a <= key b) (insert_by key x l).
Proof.
  induction 1 as [|y l Hl IH Hy]; cbn [insert_by].
  - repeat constructor.
  - destruct (Z.leb_spec (key x) (key y)).
    + constructor; [now constructor|]. constructor; [assumption|].
      eapply List.Forall_impl; [|exact Hy]. cbn. lia.
    + constructor; [exact IH|].
      eapply Permutation_Forall; [symmetry; apply insert_by_perm|].
      constructor; [lia|exact Hy].
Qed.

Lemma sort_by_sorted l :
  StronglySorted (fun a b => key a <= key b) (sort_by key l).
Proof.
  induction l as [|x l IH]; [constructor|]. now apply insert_by_sorted.
Qed.

Lemma sorted_after (pre post : list A) x y :
  StronglySorted (fun a b => key a <= key b) (pre ++ x :: post) ->
  In y post -> key x <= key y.
Proof.
  induction pre as [|z pre IH]; cbn [app]; intros Hs Hy.
  - apply StronglySorted_inv in Hs as [_ Hx].
    rewrite List.Forall_forall in Hx. now apply Hx.
  - apply StronglySorted_inv in Hs as [Hs _]. now apply IH.
Qed.

End SortedBy.

Section Grouping.

Import FirstBadVocabulary.

Context {V : Type}.

Lemma setdefault_append_assoc (k : str) (v : V) d k' :
  assoc k' (setdefault_append k v d)
  = if bool_decide (k' = k)
    then Some (match assoc k d with Some vs => vs | None => [] end ++ [v])
    else assoc k' d.
Proof.
  induction d as [|[k0 vs] d IH]; cbn [setdefault_append assoc].
  - destruct (decide (k' = k)) as [->|Hne].
    + now rewrite !bool_decide_eq_true_2.
    + rewrite bool_decide_eq_false_2 by congruence.
      now rewrite bool_decide_eq_false_2.
  - destruct (decide (k0 = k)) as [->|Hk0].
    + rewrite !(bool_decide_eq_true_2 (k = k)) by reflexivity.
      cbn [assoc]. destruct (decide (k' = k)) as [->|Hne].
      * now rewrite !bool_decide_eq_true_2.
      * rewrite (bool_decide_eq_false_2 (k = k')) by congruence.
        now rewrite (bool_decide_eq_false_2 (k' = k)).
    + rewrite !(bool_decide_eq_false_2 (k0 = k)) by exact Hk0.
      cbn [assoc]. rewrite IH.
      destruct (decide (k0 = k')) as [->|Hne].
      * rewrite (bool_decide_eq_true_2 (k' = k')) by reflexivity.
        now rewrite (bool_decide_eq_false_2 (k' = k)).
      * now rewrite (bool_decide_eq_false_2 (k0 = k')).
Qed.

Lemma setdefault_append_keys (k : str) (v : V) d :
  List.NoDup (map fst d) ->
  List.NoDup (map fst (setdefault_append k v d))
  /\ forall k', In k' (map fst (setdefault_append k v d)) <->
       k' = k \/ In k' (map fst d).
Proof.
  induction d as [|[k0 vs] d IH]; cbn [setdefault_append map fst]; intros Hnd.
  - split; [repeat constructor; intros []|]. intros k'. cbn. intuition.
  - apply List.NoDup_cons_iff in Hnd as [Hk0 Hnd].
    case_bool_decide as Hk; cbn [map fst].
    + subst k0. split; [now constructor|]. intros k'. cbn. intuition.
    + destruct (IH Hnd) as [IH1 IH2]. split.
      * constructor; [|exact IH1]. rewrite IH2. intros [->|H]; contradiction.
      * intros k'. cbn. rewrite IH2. intuition.
Qed.

Lemma assoc_in (k : str) (vs : V) (d : list (str * V)) :
  List.NoDup (map fst d) -> In (k, vs) d -> assoc k d = Some vs.
Proof.
  induction d as [|[k0 v0] d IH]; cbn [map fst assoc]; intros Hnd;
    [intros []|].
  apply List.NoDup_cons_iff in Hnd as [Hk0 Hnd].
  intros [[= -> ->]|Hin].
  - now rewrite bool_decide_eq_true_2.
  - rewrite bool_decide_eq_false_2; [now apply IH|].
    intros ->. apply Hk0. apply in_map_iff. now exists (k, vs).
Qed.

End Grouping.

Section FirstBad.

Import SummarizeFirstBadMetrics FirstBadVocabulary.

Lemma grouped_nodup targets :
  List.NoDup (map fst (fold_left group_target targets [])).
Proof.
  apply (fold_left_invariant (fun d => List.NoDup (map fst d))).
  - intros d t _ Hd. unfold group_target.
    destruct (match t_origin_log t with Some o => o | None => [] end);
      [exact Hd|].
    destruct (t_tag t); [|exact Hd]. now apply setdefault_append_keys.
  - constructor.
Qed.

Lemma grouped_candidates targets origin :
  assoc origin (fold_left group_target targets [])
  = if bool_decide (origin = []) then None
    else match candidates targets origin with
         | [] => None
         | c :: cs => Some (c :: cs)
         end.
Proof.
  induction targets as [|t targets IH] using rev_ind.
  - cbn. now case_bool_decide.
  - rewrite fold_left_app. cbn [fold_left].
    assert (Hc : candidates (targets ++ [t]) origin
                 = candidates targets origin
                   ++ match t_tag t with
                      | Some tag =>
                          if bool_decide (origin_of t = origin)
                          then [(back_of t, tag)] else []
                      | None => []
                      end).
    { unfold candidates. rewrite flat_map_app. cbn [flat_map].
      now rewrite app_nil_r. }
    rewrite Hc. clear Hc. unfold group_target at 1.
    fold (origin_of t). fold (back_of t).
    destruct (origin_of t) as [|c o] eqn:Ho.
    + destruct (t_tag t) as [tag|]; rewrite ?app_nil_r; try exact IH.
      rewrite IH. destruct (decide (origin = [])) as [->|Hne].
      * now rewrite !bool_decide_eq_true_2.
      * rewrite (bool_decide_eq_false_2 ([] = origin)) by congruence.
        now rewrite app_nil_r.
    + destruct (t_tag t) as [tag|]; [|now rewrite app_nil_r].
      rewrite setdefault_append_assoc.
      destruct (decide (origin = c :: o)) as [->|Hne].
      * rewrite bool_decide_eq_true_2 by reflexivity.
        rewrite IH. rewrite (bool_decide_eq_false_2 (c :: o = [])) by discriminate.
        destruct (candidates targets (c :: o)); reflexivity.
      * rewrite bool_decide_eq_false_2 by exact Hne.
        rewrite (bool_decide_eq_false_2 (c :: o = origin)) by congruence.
        now rewrite app_nil_r.
Qed.

Lemma candidates_in targets origin back tag :
  In (back, tag) (candidates targets origin) <->
  exists t, In t targets /\ origin_of t = origin
            /\ t_tag t = Some tag /\ back_of t = back.
Proof.
  unfold candidates. rewrite in_flat_map. split.
  - intros (t & Ht & Hin). exists t. destruct (t_tag t); [|destruct Hin].
    case_bool_decide; [|destruct Hin]. destruct Hin as [[= <- <-]|[]].
    now repeat split.
  - intros (t & Ht & Ho & Htag & Hb). exists t. split; [exact Ht|].
    rewrite Htag, bool_decide_eq_true_2 by exact Ho. left. now rewrite Hb.
Qed.

Lemma indexed_score rows profile tag :
  fold_left index_row rows ∅ !! (Some tag, profile)
  = match
      find (fun r => bool_decide ((s_tag r, s_profile r) = (Some tag, profile)))
        (rev rows)
    with
    | Some r => Some (s_eval_cp r)
    | None => None
    end.
Proof.
  induction rows as [|r rows IH] using rev_ind; [reflexivity|].
  rewrite fold_left_app, rev_app_distr. cbn [fold_left rev app find].
  unfold index_row at 1. case_bool_decide as Hk.
  - rewrite Hk. apply lookup_insert_eq.
  - rewrite lookup_insert_ne by exact Hk. exact IH.
Qed.

Lemma first_bad_found rows profile bad_th items tag :
  first_bad (fold_left index_row rows ∅) profile bad_th items = Some tag ->
  exists pre back post,
    items = pre ++ (back, tag) :: post
    /\ bad rows profile bad_th tag
    /\ forall x, In x pre -> ~ bad rows profile bad_th (snd x).
Proof.
  assert (Hbad : forall t,
    bad rows profile bad_th t <->
    exists cp, fold_left index_row rows ∅ !! (Some t, profile) = Some (Some cp)
               /\ cp <= bad_th).
  { intros t. unfold bad, score_of. rewrite indexed_score.
    destruct (find _ (rev rows)) as [r|].
    - split; intros (cp & H & Hle); exists cp; split; congruence.
    - split; intros (cp & H & _); discriminate. }
  induction items as [|[back t] items IH]; cbn [first_bad]; [discriminate|].
  intros Hf.
  destruct (fold_left index_row rows ∅ !! (Some t, profile))
    as [[cp|]|] eqn:Hcp.
  - destruct (Z.leb_spec cp bad_th) as [Hle|Hgt].
    + injection Hf as ->. exists [], back, items.
      split; [reflexivity|]. split; [|intros ? []].
      apply Hbad. now exists cp.
    + destruct (IH Hf) as (pre & b & post & -> & Hb & Hpre).
      exists ((back, t) :: pre), b, post. split; [reflexivity|].
      split; [exact Hb|]. intros x [<-|Hx]; [|now apply Hpre].
      cbn [snd]. rewrite Hbad, Hcp. intros (cp' & [= <-] & Hle). lia.
  - destruct (IH Hf) as (pre & b & post & -> & Hb & Hpre).
    exists ((back, t) :: pre), b, post. split; [reflexivity|].
    split; [exact Hb|]. intros x [<-|Hx]; [|now apply Hpre].
    cbn [snd]. rewrite Hbad, Hcp. intros (cp' & [=] & _).
  - destruct (IH Hf) as (pre & b & post & -> & Hb & Hpre).
    exists ((back, t) :: pre), b, post. split; [reflexivity|].
    split; [exact Hb|]. intros x [<-|Hx]; [|now apply Hpre].
    cbn [snd]. rewrite Hbad, Hcp. intros (cp' & [=] & _).
Qed.

Lemma derived_from_group rows profile bad_th
  (groups : list (str * list (Z * str))) tag : forall tags,
  In tag
    (fold_left
       (fun tags item =>
          match
            first_bad (fold_left index_row rows ∅) profile bad_th
              (sort_by fst (snd item))
          with
          | Some (c :: tag) => tags ++ [c :: tag]
          | _ => tags
          end)
       groups tags) ->
  In tag tags
  \/ tag <> []
     /\ exists item,
          In item groups
          /\ first_bad (fold_left index_row rows ∅) profile bad_th
               (sort_by fst (snd item)) = Some tag.
Proof.
  induction groups as [|item groups IH]; intros tags; cbn [fold_left];
    [now left|].
  intros Hin. apply IH in Hin as [Hin|(Hne & it & Hit & Hf)].
  - destruct (first_bad _ _ _ (sort_by fst (snd item))) as [[|c tg]|] eqn:Hf;
      try (now left).
    apply in_app_or in Hin as [Hin|[<-|[]]]; [now left|].
    right. split; [discriminate|]. exists item. split; [now left|exact Hf].
  - right. split; [exact Hne|]. exists it. split; [now right|exact Hf].
Qed.

(** X15.  [derive_first_bad_tags_from_summary] picks, for an origin, a bad
    target of the smallest rewind depth.  Every tag it returns is not
    empty and is the tag of a target with an origin, its score in the
    summary under the profile (the last row for the tag and profile
    counts) is at or below the threshold, and no target of the same
    origin with a score at or below the threshold has a smaller rewind
    depth. *)
Theorem first_bad_tag_is_least_rewind (targets : list target_entry)
  (rows : list summary_row) (profile : option str) (bad_th : Z) (tag : str) :
  In tag (derive_first_bad_tags_from_summary targets rows profile bad_th) ->
  tag <> []
  /\ bad rows profile bad_th tag
  /\ exists t,
       In t targets /\ t_tag t = Some tag /\ origin_of t <> []
       /\ forall t' tag',
            In t' targets -> origin_of t' = origin_of t ->
            t_tag t' = Some tag' -> bad rows profile bad_th tag' ->
            back_of t <= back_of t'.
Proof.
  unfold derive_first_bad_tags_from_summary. intros Hin.
  apply derived_from_group in Hin as [[]|(Hne & [origin items] & Hit & Hf)].
  cbn [snd] in Hf. split; [exact Hne|].
  apply first_bad_found in Hf as (pre & back & post & Hsorted & Hbad & Hpre).
  split; [exact Hbad|].
  apply (assoc_in _ _ _ (grouped_nodup targets)) in Hit.
  rewrite grouped_candidates in Hit.
  destruct origin as [|c o]; [discriminate|].
  rewrite bool_decide_eq_false_2 in Hit by discriminate.
  destruct (candidates targets (c :: o)) as [|x xs] eqn:Hc; [discriminate|].
  injection Hit as <-. rewrite <- Hc in Hsorted. clear x xs Hc.
  assert (Hchosen : In (back, tag) (candidates targets (c :: o))).
  { apply (sort_by_in fst). rewrite Hsorted. apply in_or_app. right. now left. }
  apply candidates_in in Hchosen as (t & Ht & Ho & Htag & Hb).
  exists t. split; [exact Ht|]. split; [exact Htag|].
  split; [rewrite Ho; discriminate|].
  intros t' tag' Ht' Ho' Htag' Hbad'.
  assert (Hin' : In (back_of t', tag') (sort_by fst (candidates targets (c :: o)))).
  { apply sort_by_in, candidates_in. exists t'. repeat split; congruence. }
  pose proof (sort_by_sorted fst (candidates targets (c :: o))) as Hs.
  rewrite Hsorted in Hin', Hs. rewrite Hb.
  apply in_app_or in Hin' as [Hin'|[Heq|Hin']].
  - exfalso. now apply (Hpre _ Hin').
  - injection Heq as -> _. lia.
  - apply (sorted_after fst _ _ _ _ Hs) in Hin'. exact Hin'.
Qed.

End FirstBad.

Lemma first_bad_tag_is_least_rewind_witness :
  lit "game_ply9_back2" <> []
  /\ FirstBadVocabulary.bad FirstBadExample.rows (Some (lit "base")) (-600)
       (lit "game_ply9_back2")
  /\ exists t,
       In t FirstBadExample.targets
       /\ SummarizeFirstBadMetrics.t_tag t = Some (lit "game_ply9_back2")
       /\ FirstBadVocabulary.origin_of t <> []
       /\ forall t' tag',
            In t' FirstBadExample.targets ->
            FirstBadVocabulary.origin_of t' = FirstBadVocabulary.origin_of t ->
            SummarizeFirstBadMetrics.t_tag t' = Some tag' ->
            FirstBadVocabulary.bad FirstBadExample.rows (Some (lit "base"))
              (-600) tag' ->
            FirstBadVocabulary.back_of t <= FirstBadVocabulary.back_of t'.
Proof.
  apply (first_bad_tag_is_least_rewind FirstBadExample.targets
           FirstBadExample.rows (Some (lit "base")) (-600)
           (lit "game_ply9_back2")).
  vm_compute. left. reflexivity.
Defined.

(** ** The order of the counts *)

Section Counts.

Import SummarizeDropMetrics MetricsVocabulary.

Lemma count_le (P Q : row -> bool) rows :
  (forall r, P r = true -> Q r = true) -> count P rows <= count Q rows.
Proof.
  intros HPQ. induction rows as [|r rows IH]; [reflexivity|].
  rewrite !count_cons. specialize (HPQ r).
  destruct (P r), (Q r); first [lia|discriminate (HPQ eq_refl)].
Qed.

Lemma count_le_length P rows : count P rows <= Z.of_nat (length rows).
Proof.
  induction rows as [|r rows IH]; [reflexivity|].
  rewrite count_cons. cbn [length]. destruct (P r); lia.
Qed.

Lemma is_bad_has_score th r : is_bad th r = true -> has_score r = true.
Proof. unfold is_bad, has_score. now destruct (eval_cp r). Qed.

Lemma is_bad_mono th th' r :
  th <= th' -> is_bad th r = true -> is_bad th' r = true.
Proof.
  unfold is_bad. destruct (eval_cp r); [|discriminate]. lia.
Qed.

Lemma selected_length rows p :
  Z.of_nat (length (selected rows p)) <= Z.of_nat (length rows).
Proof.
  destruct p as [[|c p]|]; cbn [selected]; try lia.
  pose proof (filter_length_le
    (fun r => bool_decide (profile r = Some (c :: p))) rows). lia.
Qed.

(** X16.  The counts that the metrics report are ordered: in
    summarize_drop_metrics.py and in [compute_metrics] of
    summarize_first_bad_metrics.py, [0 <= bad_count <= valid <= total], and
    [total] is at most the number of rows read; and raising [--bad-th]
    never lowers [bad_count] while [valid] and [total] stay the same. *)
Theorem metrics_counts_ordered (rows : list row) (p : option str)
  (th th' : Z) :
  let m := main rows p th in
  let m' := main rows p th' in
  let fb := SummarizeFirstBadMetrics.compute_metrics rows in
  (0 <= bad_count m <= valid m
   /\ valid m <= total m <= Z.of_nat (length rows))
  /\ (th <= th' ->
      bad_count m <= bad_count m'
      /\ valid m' = valid m /\ total m' = total m)
  /\ (0 <= bad_count fb <= valid fb
      /\ valid fb <= total fb /\ total fb = Z.of_nat (length rows)).
Proof.
  intros m m' fb.
  destruct (main_counters rows p th) as (Hv & Hb & _).
  destruct (main_counters rows p th') as (Hv' & Hb' & _).
  fold m in Hv, Hb. fold m' in Hv', Hb'.
  assert (Ht : forall t, total (main rows p t)
                         = Z.of_nat (length (selected rows p))).
  { intros t. unfold main. rewrite selected_rows. reflexivity. }
  split; [|split].
  - rewrite Hb, Hv. unfold m. rewrite Ht. repeat split.
    + apply count_nonneg.
    + apply count_le, is_bad_has_score.
    + apply count_le_length.
    + apply selected_length.
  - intros Hth. rewrite Hb, Hb', Hv, Hv'. unfold m, m'. rewrite !Ht.
    repeat split. apply count_le. intros r. now apply is_bad_mono.
  - subst fb. unfold SummarizeFirstBadMetrics.compute_metrics.
    change (fold_left SummarizeFirstBadMetrics.count_row)
      with (fold_left (count_row (-600))).
    rewrite count_row_fold. cbn [bad_count valid total c_bad c_valid].
    rewrite !Z.add_0_l. repeat split.
    + apply count_nonneg.
    + apply count_le, is_bad_has_score.
    + apply count_le_length.
Qed.

End Counts.

(** ** The waits of a session *)

Section Waits.

Import RunEvalTargets StreamVocabulary SessionVocabulary.

Local Abbreviation nl := ("010"%char).
Local Abbreviation bestmove_pat := (lit " bestmove ").







(** X18.  The last read of [run_one], after [quit], has the empty pattern,
    which every line contains: [_read_until] appends the first complete
    line that arrives, returns [True] at once, and appends nothing when no
    complete line arrives.  So the log of a session holds at most one line
    written after [quit].  Both scripts read so. *)
Theorem read_after_quit_keeps_one_line (polls : list poll)
  (out_lines : list str) :
  let ls := fst (lines_of (stream_of polls)) in
  _read_until polls [lit ""] out_lines
  = (match ls with [] => false | _ :: _ => true end, out_lines ++ firstn 1 ls)
  /\ RunEvalTargetsParams._read_until polls [lit ""] out_lines
     = (match ls with [] => false | _ :: _ => true end,
        out_lines ++ firstn 1 ls).
Proof.
  intros ls.
  assert (Hfirst : upto_match [lit ""] ls
                   = (match ls with [] => false | _ :: _ => true end,
                      firstn 1 ls)).
  { destruct ls as [|ln ls']; [reflexivity|]. cbn [upto_match firstn].
    unfold holds. cbn [existsb].
    assert (Hc : contains (lit "") ln = true) by now destruct ln.
    now rewrite Hc. }
  split; unfold _read_until, RunEvalTargetsParams._read_until;
    rewrite (read_loop_lines _ polls [] out_lines eq_refl);
    cbn [app]; fold ls; now rewrite Hfirst.
Qed.

End Waits.

